(** * Tactical combat core: a shallow embedding and its checked properties

    The development follows the TypeScript sources module by module: the
    seeded generator ([Rng]), the ability formulas ([Stats]), the weapon and
    spell tables ([Weapons], [Spells]), the data model (one module for each
    interface), the combat log and the attack roll ([CombatLog]), the grid
    search ([Pathfinding]) and the engine ([CombatEngine], and
    [CombatEngineAlt] for its second copy).  Definitions come first,
    properties afterwards.

    Numbers.  Every quantity the modelled code computes with is an integer
    valued JavaScript number, embedded as [Z]; this is exact while the
    integers stay below 2^53, which holds for every generator state after
    the first call to [next()] (states are remainders modulo 2^31-1) and for
    every seed of magnitude at most 2^38.  The only fractions are the results
    of [next()] and [Math.random()], embedded as exact rationals [Q], and
    [Math.floor] of a product with such a fraction is [Qfloor] of the exact
    product.  The double the source computes can fall on the other side of
    an integer only when the exact product is itself an integer or within
    rounding error of one; the general properties below are stated for
    whatever the rolls turn out to be, and the worked examples use products
    that are far from an integer. *)

From Stdlib Require Import ZArith QArith Qround.
From stdpp Require Import list strings gmap sorting pretty.
From Stdlib Require Import Ascii.

Open Scope Z_scope.

(** * Part I: the embedding *)

(** ** The seeded generator (class [SeededRNG]) *)

Module Rng.

(** [ToInt32]: the wrap-around of the bit operators [<<] and [&]. *)
Definition toInt32 (z : Z) : Z := (z + 2 ^ 31) mod 2 ^ 32 - 2 ^ 31.

(** One round of the loop of [hashString]:
    [hash = ((hash << 5) - hash) + char; hash = hash & hash]. *)
Definition hashStep (hash char : Z) : Z :=
  let hash1 := toInt32 (Z.shiftl (toInt32 hash) 5) - hash + char in
  Z.land (toInt32 hash1) (toInt32 hash1).

(** The rolling hash over the code units of the string. *)
Definition hashCodes (codes : list Z) : Z := Z.abs (fold_left hashStep codes 0).

(** [str.charCodeAt(i)] for every [i]; a [string] holds code units below 256. *)
Definition charCodes (str : string) : list Z :=
  (λ c, Z.of_nat (Ascii.nat_of_ascii c)) <$> String.list_ascii_of_string str.

Definition hashString (str : string) : Z := hashCodes (charCodes str).

(** The argument of the constructor and of [setSeed]: [string | number]. *)
Inductive SeedArg :=
| SeedNumber (n : Z)
| SeedString (s : string).

Record SeededRNG := { seed : Z }.

Definition installSeed (a : SeedArg) : Z :=
  match a with
  | SeedString s => hashString s
  | SeedNumber n => n
  end.

(** [new SeededRNG(seed?)].  [mathRandom] is the value [Math.random()] would
    return in the run that constructs the generator; it is consulted only
    when no seed is passed. *)
Definition new (seedArg : option SeedArg) (mathRandom : Q) : SeededRNG :=
  {| seed := match seedArg with
             | Some a => installSeed a
             | None => Qfloor (mathRandom * 2147483647)
             end |}.

(** [next()]: [%] is the truncating remainder, the sign follows the dividend. *)
Definition next (g : SeededRNG) : Q * SeededRNG :=
  let s := Z.rem (seed g * 16807) 2147483647 in
  ((s - 1) # 2147483646, {| seed := s |}).

Definition nextInt (min max : Z) (g : SeededRNG) : Z * SeededRNG :=
  let '(x, g') := next g in
  (Qfloor (x * inject_Z (max - min + 1)) + min, g').

Definition rollDie (sides : Z) (g : SeededRNG) : Z * SeededRNG := nextInt 1 sides g.

(** The loop of [rollDice], [i] running over [0 .. count-1]. *)
Fixpoint rollDiceLoop (count : nat) (sides total : Z) (g : SeededRNG) : Z * SeededRNG :=
  match count with
  | O => (total, g)
  | S count' =>
      let '(r, g') := rollDie sides g in
      rollDiceLoop count' sides (total + r) g'
  end.

Definition rollDice (count sides modifier : Z) (g : SeededRNG) : Z * SeededRNG :=
  rollDiceLoop (Z.to_nat count) sides modifier g.

(** *** The dice expression [/(\d+)?d(\d+)([+\-]\d+)?/] *)

Definition isDigit (c : ascii) : bool :=
  let n := Ascii.nat_of_ascii c in (48 <=? n)%nat && (n <=? 57)%nat.

(** The longest run of digits at the front, and what follows it. *)
Fixpoint takeDigits (s : list ascii) : list ascii * list ascii :=
  match s with
  | c :: s' =>
      if isDigit c then let '(ds, r) := takeDigits s' in (c :: ds, r) else ([], s)
  | [] => ([], [])
  end.

(** The capture groups of a match: [match[1]], [match[2]], [match[3]]. *)
Record DiceMatch := {
  countGroup : option (list ascii);
  sidesGroup : list ascii;
  modifierGroup : option (list ascii)
}.

(** A match that starts at the head of [s].  The first group is greedy; when
    the digits it took are not followed by [d] and a digit, no shorter choice
    of the group can succeed at this position either. *)
Definition matchHere (s : list ascii) : option DiceMatch :=
  let '(ds, r) := takeDigits s in
  match r with
  | "d"%char :: r1 =>
      let '(ss, r2) := takeDigits r1 in
      match ss with
      | [] => None
      | _ :: _ =>
          let modifier :=
            match r2 with
            | sign :: r3 =>
                if bool_decide (sign = "+"%char ∨ sign = "-"%char) then
                  match takeDigits r3 with
                  | ([], _) => None
                  | (ms, _) => Some (sign :: ms)
                  end
                else None
            | [] => None
            end in
          Some {| countGroup := match ds with [] => None | _ => Some ds end;
                  sidesGroup := ss;
                  modifierGroup := modifier |}
      end
  | _ => None
  end.

(** [diceString.match(...)]: the leftmost position at which a match starts. *)
Fixpoint matchDice (s : list ascii) : option DiceMatch :=
  match matchHere s with
  | Some m => Some m
  | None => match s with
            | [] => None
            | _ :: s' => matchDice s'
            end
  end.

Definition digitsValue (ds : list ascii) : Z :=
  fold_left (λ acc c, 10 * acc + (Z.of_nat (Ascii.nat_of_ascii c) - 48)) ds 0.

(** [parseInt] on the text of a capture group: digits with an optional sign. *)
Definition parseInt (s : list ascii) : Z :=
  match s with
  | "-"%char :: ds => - digitsValue ds
  | "+"%char :: ds => digitsValue ds
  | _ => digitsValue s
  end.

Definition parseDiceString (diceString : string) (g : SeededRNG) : Z * SeededRNG :=
  match matchDice (String.list_ascii_of_string diceString) with
  | None => (0, g)
  | Some m =>
      let count := parseInt (default ["1"%char] (countGroup m)) in
      let sides := parseInt (sidesGroup m) in
      let modifier := parseInt (default ["0"%char] (modifierGroup m)) in
      rollDice count sides modifier g
  end.

(** [array[k]] for a number [k]: [undefined] outside the array. *)
Definition arrayGet {A} (array : list A) (k : Z) : option A :=
  if bool_decide (0 ≤ k) then array !! Z.to_nat k else None.


(** *** [shuffle]

    The copy [result] is an array object: a map from property keys to values
    with a fixed [length].  A key below 0 (which [nextInt] yields from a seed
    outside 1..2^31-2) names an ordinary property next to the elements;
    reading a key that was never written gives [undefined], here [None]. *)
Definition assign {A} (k : Z) (v : option A) (result : gmap Z A) : gmap Z A :=
  match v with
  | Some x => <[k:=x]> result
  | None => delete k result
  end.

(** [for (let i = ...; i > 0; i--)], entered with [i] at its current value. *)
Fixpoint shuffleLoop {A} (i : nat) (result : gmap Z A) (g : SeededRNG)
  : gmap Z A * SeededRNG :=
  match i with
  | O => (result, g)
  | S i' =>
      let '(j, g') := nextInt 0 (Z.of_nat i) g in
      let ri := result !! Z.of_nat i in
      let rj := result !! j in
      shuffleLoop i' (assign j ri (assign (Z.of_nat i) rj result)) g'
  end.

Definition shuffle {A} (array : list A) (g : SeededRNG) : list (option A) * SeededRNG :=
  let '(result, g') := shuffleLoop (length array - 1) (map_seqZ 0 array) g in
  ((λ k, result !! Z.of_nat k) <$> seq 0 (length array), g').

Definition getSeed (g : SeededRNG) : Z := seed g.

Definition setSeed (a : SeedArg) (g : SeededRNG) : SeededRNG := {| seed := installSeed a |}.

(** A call a client can make on a generator, and what it returns. *)
Inductive Call (T : Type) :=
| CallNext
| CallRollDie (sides : Z)
| CallShuffle (array : list T).
Arguments CallNext {T}.
Arguments CallRollDie {T} sides.
Arguments CallShuffle {T} array.

Inductive Answer (T : Type) :=
| Fraction (x : Q)
| Whole (n : Z)
| Shuffled (result : list (option T)).
Arguments Fraction {T} x.
Arguments Whole {T} n.
Arguments Shuffled {T} result.

Definition perform {T} (c : Call T) (g : SeededRNG) : Answer T * SeededRNG :=
  match c with
  | CallNext => let '(x, g') := next g in (Fraction x, g')
  | CallRollDie sides => let '(n, g') := rollDie sides g in (Whole n, g')
  | CallShuffle array => let '(r, g') := shuffle array g in (Shuffled r, g')
  end.

(** The answers to a sequence of calls made one after the other. *)
Fixpoint performAll {T} (cs : list (Call T)) (g : SeededRNG) : list (Answer T) * SeededRNG :=
  match cs with
  | [] => ([], g)
  | c :: cs' =>
      let '(a, g1) := perform c g in
      let '(answers, g2) := performAll cs' g1 in
      (a :: answers, g2)
  end.

End Rng.


(** ** Ability formulas (core/stats) *)

Module Stats.

(** [Math.floor((score - 10) / 2)]; [Z.div] rounds down. *)
Definition getModifier (score : Z) : Z := (score - 10) / 2.

(** [Math.ceil(level / 4)] on a whole number. *)
Definition ceilQuarter (level : Z) : Z := - ((- level) / 4).

Definition getProficiencyBonus (level : Z) : Z := ceilQuarter level + 1.

End Stats.

(** ** The weapon table (data/weapons) *)

Module Weapons.

Inductive Category := melee | ranged.
Inductive WeaponType := simple | martial.

#[global] Instance Category_eq_dec : EqDecision Category.
Proof. solve_decision. Defined.

Record Damage := { dice : string; damageType : string }.

Record Range := { normal : Z; long : option Z }.

(** What the property [properties] of a weapon object holds.  The interface
    declares a list of trait names; each literal of the table goes on to
    define the key a second time, as an object that carries the damage. *)
Inductive Properties :=
| Traits (names : list string)
| Bag (damage : Damage).

Record WeaponData := {
  id : string;
  name : string;
  damage : Damage;
  range : Range;
  weaponType : WeaponType;
  category : Category;
  properties : Properties
}.

(** An object literal that writes the key [properties] twice: the later
    definition is the one the object ends up with. *)
Definition literal (id name dice damageType : string) (normal : Z) (long : option Z)
    (weaponType : WeaponType) (category : Category)
    (properties1 : list string) (properties2 : Damage) : WeaponData :=
  {| id := id; name := name;
     damage := {| dice := dice; damageType := damageType |};
     range := {| normal := normal; long := long |};
     weaponType := weaponType; category := category;
     properties := Bag properties2 |}.

Definition WEAPONS : list (string * WeaponData) :=
  [ ("dagger", literal "dagger" "Dagger" "1d4" "piercing" 5 (Some 20) simple melee
       ["light"; "finesse"; "thrown"] {| dice := "1d4"; damageType := "piercing" |});
    ("shortsword", literal "shortsword" "Shortsword" "1d6" "piercing" 5 None martial melee
       ["light"; "finesse"] {| dice := "1d6"; damageType := "piercing" |});
    ("longsword", literal "longsword" "Longsword" "1d8" "slashing" 5 None martial melee
       ["versatile"] {| dice := "1d8"; damageType := "slashing" |});
    ("greataxe", literal "greataxe" "Greataxe" "1d12" "slashing" 5 None martial melee
       ["two-handed"; "heavy"] {| dice := "1d12"; damageType := "slashing" |});
    ("shortbow", literal "shortbow" "Shortbow" "1d6" "piercing" 80 (Some 320) simple ranged
       ["ammunition"; "two-handed"] {| dice := "1d6"; damageType := "piercing" |});
    ("longbow", literal "longbow" "Longbow" "1d8" "piercing" 150 (Some 600) martial ranged
       ["ammunition"; "heavy"; "two-handed"] {| dice := "1d8"; damageType := "piercing" |});
    ("handaxe", literal "handaxe" "Handaxe" "1d6" "slashing" 5 (Some 20) simple melee
       ["light"; "thrown"] {| dice := "1d6"; damageType := "slashing" |});
    ("quarterstaff", literal "quarterstaff" "Quarterstaff" "1d6" "bludgeoning" 5 None simple melee
       ["versatile"] {| dice := "1d6"; damageType := "bludgeoning" |});
    ("crossbow_light", literal "crossbow_light" "Light Crossbow" "1d8" "piercing" 80 (Some 320)
       simple ranged
       ["ammunition"; "light"] {| dice := "1d8"; damageType := "piercing" |});
    ("warhammer", literal "warhammer" "Warhammer" "1d8" "bludgeoning" 5 None martial melee
       ["versatile"] {| dice := "1d8"; damageType := "bludgeoning" |}) ].

(** [WEAPONS[id]], for ids that do not name a member every object inherits. *)
Definition getWeaponById (id : string) : option WeaponData :=
  (list_to_map WEAPONS : gmap string WeaponData) !! id.

End Weapons.

(** ** The spell table (data/spells) *)

Module Spells.

Record Spell := { id : string; name : string; level : Z }.

(** The table is keyed by the property names of the literal, which are not
    always the [id] written inside the entry. *)
Definition SPELLS : list (string * Spell) :=
  [ ("firebolt", {| id := "firebolt"; name := "Fire Bolt"; level := 0 |});
    ("magicMissile", {| id := "magic_missile"; name := "Magic Missile"; level := 1 |});
    ("healingWord", {| id := "healing_word"; name := "Healing Word"; level := 1 |});
    ("cureWounds", {| id := "cure_wounds"; name := "Cure Wounds"; level := 1 |});
    ("shield", {| id := "shield"; name := "Shield"; level := 1 |});
    ("burningHands", {| id := "burning_hands"; name := "Burning Hands"; level := 1 |});
    ("holdPerson", {| id := "hold_person"; name := "Hold Person"; level := 2 |});
    ("fireball", {| id := "fireball"; name := "Fireball"; level := 3 |});
    ("lightningBolt", {| id := "lightning_bolt"; name := "Lightning Bolt"; level := 3 |});
    ("bless", {| id := "bless"; name := "Bless"; level := 1 |});
    ("spiritualWeapon", {| id := "spiritual_weapon"; name := "Spiritual Weapon"; level := 2 |});
    ("web", {| id := "web"; name := "Web"; level := 2 |});
    ("mistyStep", {| id := "misty_step"; name := "Misty Step"; level := 2 |});
    ("counterspell", {| id := "counterspell"; name := "Counterspell"; level := 3 |});
    ("haste", {| id := "haste"; name := "Haste"; level := 3 |}) ].

(** [SPELLS[spellId]]. *)
Definition lookup (spellId : string) : option Spell :=
  (list_to_map SPELLS : gmap string Spell) !! spellId.

End Spells.

(** ** The data model (core/types)

    Each interface is a record in a module of its name, so that fields keep
    the names they have in the source.  Of [Character], the fields that the
    modelled modules read or write are kept; the campaign layer (class,
    experience, inventory, equipment, known spells) is not. *)

Module Position.
Record t := mk { x : Z; y : Z }.
#[global] Instance eq_dec : EqDecision t.
Proof. solve_decision. Defined.
End Position.

Module StatBlock.
Record t := mk {
  strength : Z; dexterity : Z; constitution : Z;
  intelligence : Z; wisdom : Z; charisma : Z
}.
End StatBlock.

Module Health.
Record t := mk { current : Z; maximum : Z; temporary : Z }.
Definition setCurrent (v : Z) (h : t) : t :=
  {| current := v; maximum := maximum h; temporary := temporary h |}.
End Health.

(** A pool [{ current, maximum }] of [Resources]. *)
Module Pool.
Record t := mk { current : Z; maximum : Z }.
Definition setCurrent (v : Z) (p : t) : t := {| current := v; maximum := maximum p |}.
End Pool.

Module Resources.
(** [spellSlots : Record<number, { current, maximum }>]. *)
Record t := mk { spellSlots : gmap Z Pool.t }.
End Resources.

Module StatusEffect.
Inductive Kind := buff | debuff | neutral.
Record t := mk {
  id : string;
  name : string;
  duration : Z;
  kind : Kind;                       (* effect.type *)
  modifiers : gmap string Z          (* effect.modifiers *)
}.
End StatusEffect.

Module CreatureType.
Inductive t := player | companion | enemy.
#[global] Instance eq_dec : EqDecision t.
Proof. solve_decision. Defined.
End CreatureType.

Module Character.
Record t := mk {
  id : string;
  name : string;
  level : Z;
  stats : StatBlock.t;
  health : Health.t;
  armorClass : Z;
  speed : Z;
  resources : Resources.t;
  position : Position.t;
  type : CreatureType.t;
  statusEffects : list StatusEffect.t;
  initiative : Z;
  hasUsedAction : bool;
  hasUsedBonusAction : bool;
  hasUsedReaction : bool;
  movementUsed : Z
}.

(** Assignments to a single field of the object. *)
Definition setHealth (v : Health.t) (c : t) : t :=
  mk (id c) (name c) (level c) (stats c) v (armorClass c) (speed c) (resources c)
     (position c) (type c) (statusEffects c) (initiative c) (hasUsedAction c)
     (hasUsedBonusAction c) (hasUsedReaction c) (movementUsed c).
Definition setSpeed (v : Z) (c : t) : t :=
  mk (id c) (name c) (level c) (stats c) (health c) (armorClass c) v (resources c)
     (position c) (type c) (statusEffects c) (initiative c) (hasUsedAction c)
     (hasUsedBonusAction c) (hasUsedReaction c) (movementUsed c).
Definition setResources (v : Resources.t) (c : t) : t :=
  mk (id c) (name c) (level c) (stats c) (health c) (armorClass c) (speed c) v
     (position c) (type c) (statusEffects c) (initiative c) (hasUsedAction c)
     (hasUsedBonusAction c) (hasUsedReaction c) (movementUsed c).
Definition setPosition (v : Position.t) (c : t) : t :=
  mk (id c) (name c) (level c) (stats c) (health c) (armorClass c) (speed c) (resources c)
     v (type c) (statusEffects c) (initiative c) (hasUsedAction c)
     (hasUsedBonusAction c) (hasUsedReaction c) (movementUsed c).
Definition setStatusEffects (v : list StatusEffect.t) (c : t) : t :=
  mk (id c) (name c) (level c) (stats c) (health c) (armorClass c) (speed c) (resources c)
     (position c) (type c) v (initiative c) (hasUsedAction c)
     (hasUsedBonusAction c) (hasUsedReaction c) (movementUsed c).
Definition setInitiative (v : Z) (c : t) : t :=
  mk (id c) (name c) (level c) (stats c) (health c) (armorClass c) (speed c) (resources c)
     (position c) (type c) (statusEffects c) v (hasUsedAction c)
     (hasUsedBonusAction c) (hasUsedReaction c) (movementUsed c).
Definition setHasUsedAction (v : bool) (c : t) : t :=
  mk (id c) (name c) (level c) (stats c) (health c) (armorClass c) (speed c) (resources c)
     (position c) (type c) (statusEffects c) (initiative c) v
     (hasUsedBonusAction c) (hasUsedReaction c) (movementUsed c).
Definition setHasUsedBonusAction (v : bool) (c : t) : t :=
  mk (id c) (name c) (level c) (stats c) (health c) (armorClass c) (speed c) (resources c)
     (position c) (type c) (statusEffects c) (initiative c) (hasUsedAction c)
     v (hasUsedReaction c) (movementUsed c).
Definition setHasUsedReaction (v : bool) (c : t) : t :=
  mk (id c) (name c) (level c) (stats c) (health c) (armorClass c) (speed c) (resources c)
     (position c) (type c) (statusEffects c) (initiative c) (hasUsedAction c)
     (hasUsedBonusAction c) v (movementUsed c).
Definition setMovementUsed (v : Z) (c : t) : t :=
  mk (id c) (name c) (level c) (stats c) (health c) (armorClass c) (speed c) (resources c)
     (position c) (type c) (statusEffects c) (initiative c) (hasUsedAction c)
     (hasUsedBonusAction c) (hasUsedReaction c) v.
End Character.

Module CombatAction.
Inductive Kind :=
| move | attack | spell | dash | dodge | help | hide | ready | disengage.

(** [target?: Position | string]. *)
Inductive Target :=
| Cell (p : Position.t)
| Name (id : string).

Record t := mk {
  id : string;
  type : Kind;
  characterId : string;
  target : option Target;
  path : option (list Position.t);
  spellId : option string;
  itemId : option string;
  weaponId : option string;
  damage : option Z;
  attackRoll : option Z;
  targetAC : option Z;
  description : string
}.

(** The three assignments [processAttack] makes on the action it was given. *)
Definition annotate (roll ac dmg : Z) (a : t) : t :=
  mk (id a) (type a) (characterId a) (target a) (path a) (spellId a) (itemId a)
     (weaponId a) (Some dmg) (Some roll) (Some ac) (description a).
End CombatAction.

Module CombatLogEntry.
Inductive Kind := move | attack | spell | damage | heal | status | turn | round.

Record Details := mkDetails {
  attackRoll : option Z;
  damageAmount : option Z;            (* details.damage *)
  targetId : option string;
  targetName : option string;
  spellName : option string;
  weaponName : option string;
  fromPosition : option Position.t;
  toPosition : option Position.t;
  targetAC : option Z
}.

Definition noDetails : Details :=
  mkDetails None None None None None None None None None.

(** What the logging methods hand to [addEntry]: an entry without [id] and
    [timestamp]. *)
Record Body := mkBody {
  type : Kind;
  characterId : string;
  characterName : string;
  message : string;
  details : option Details
}.

Record t := mk { id : string; timestamp : Z; body : Body }.
End CombatLogEntry.

Module Battlefield.
Record Effect := mkEffect {
  effectPosition : Position.t;
  effect : StatusEffect.t;
  effectDuration : Z
}.
Record t := mk {
  width : Z;
  height : Z;
  obstacles : list Position.t;
  effects : list Effect
}.
End Battlefield.

Module CombatState.
Inductive Side := players | enemies.

Record t := mk {
  round : Z;
  turn : Z;
  characters : list Character.t;
  initiativeOrder : list string;
  currentCharacterId : option string;     (* [None]: the value [undefined] *)
  combatLog : list CombatLogEntry.t;
  battlefield : Battlefield.t;
  isActive : bool;
  victor : option Side
}.

Definition setCharacters (v : list Character.t) (s : t) : t :=
  mk (round s) (turn s) v (initiativeOrder s) (currentCharacterId s) (combatLog s)
     (battlefield s) (isActive s) (victor s).
Definition setInitiativeOrder (v : list string) (s : t) : t :=
  mk (round s) (turn s) (characters s) v (currentCharacterId s) (combatLog s)
     (battlefield s) (isActive s) (victor s).
Definition setCurrentCharacterId (v : option string) (s : t) : t :=
  mk (round s) (turn s) (characters s) (initiativeOrder s) v (combatLog s)
     (battlefield s) (isActive s) (victor s).
Definition setCombatLog (v : list CombatLogEntry.t) (s : t) : t :=
  mk (round s) (turn s) (characters s) (initiativeOrder s) (currentCharacterId s) v
     (battlefield s) (isActive s) (victor s).
Definition setRound (v : Z) (s : t) : t :=
  mk v (turn s) (characters s) (initiativeOrder s) (currentCharacterId s) (combatLog s)
     (battlefield s) (isActive s) (victor s).
Definition setTurn (v : Z) (s : t) : t :=
  mk (round s) v (characters s) (initiativeOrder s) (currentCharacterId s) (combatLog s)
     (battlefield s) (isActive s) (victor s).
Definition setEnded (v : Side) (s : t) : t :=
  mk (round s) (turn s) (characters s) (initiativeOrder s) (currentCharacterId s)
     (combatLog s) (battlefield s) false (Some v).
End CombatState.

(** ** What the modules share at run time

    The process-wide generator [globalRNG], the clock behind [Date.now()] and
    the source behind [Math.random()].  The clock and the random source are
    outside the program: they are given as the sequence of values they will
    return, with a counter of the calls made so far. *)

Module Runtime.

Record Ambient := mk {
  globalRNG : Rng.SeededRNG;
  dateNow : nat → Z;
  ticks : nat;
  mathRandom : nat → Q;
  draws : nat
}.

Definition withRNG (g : Rng.SeededRNG) (a : Ambient) : Ambient :=
  mk g (dateNow a) (ticks a) (mathRandom a) (draws a).

(** [Date.now()]. *)
Definition now (a : Ambient) : Z * Ambient :=
  (dateNow a (ticks a), mk (globalRNG a) (dateNow a) (S (ticks a)) (mathRandom a) (draws a)).

(** [Math.random()]. *)
Definition random (a : Ambient) : Q * Ambient :=
  (mathRandom a (draws a), mk (globalRNG a) (dateNow a) (ticks a) (mathRandom a) (S (draws a))).

(** A method of [globalRNG] run on the shared generator. *)
Definition onRNG {A} (f : Rng.SeededRNG → A * Rng.SeededRNG) (a : Ambient) : A * Ambient :=
  let '(r, g) := f (globalRNG a) in (r, withRNG g a).

(** What a call ends in: a value, or an uncaught [TypeError]. *)
Inductive Outcome (A : Type) :=
| Returns (a : A)
| TypeError.
Arguments Returns {A} a.
Arguments TypeError {A}.

End Runtime.

(** ** The combat log and the attack roll (systems/combatLog) *)

Module CombatLog.
Import Runtime.

(** The private field [log] of a [CombatLogger]. *)
Abbreviation Logger := (list CombatLogEntry.t).

(** A string that counts as true in a condition: present and not empty. *)
Definition truthy (s : option string) : option string :=
  match s with
  | Some v => if bool_decide (v = "") then None else Some v
  | None => None
  end.

(** A number, or [undefined], inside a template literal. *)
Definition show (v : option Z) : string := from_option pretty "undefined" v.

(** [addEntry]: the id is built first (clock, then generator), then the
    timestamp is read; the log is cut after the push. *)
Definition addEntry (entry : CombatLogEntry.Body) (st : Logger * Ambient) : Logger * Ambient :=
  let '(log, amb) := st in
  let '(t1, amb1) := now amb in
  let '(n, amb2) := onRNG (Rng.nextInt 1000 9999) amb1 in
  let '(t2, amb3) := now amb2 in
  let log1 := log ++ [CombatLogEntry.mk ("log_" +:+ pretty t1 +:+ "_" +:+ pretty n) t2 entry] in
  (if bool_decide (100 < length log1)%nat then drop (length log1 - 50) log1 else log1, amb3).

(** A client that logs a sequence of entries one at a time. *)
Definition addAll (entries : list CombatLogEntry.Body) (st : Logger * Ambient)
  : Logger * Ambient :=
  foldl (λ st entry, addEntry entry st) st entries.

Definition getLog (log : Logger) : list CombatLogEntry.t := log.

Definition clearLog (log : Logger) : Logger := [].

Definition logTurnStart (character : Character.t) : Logger * Ambient → Logger * Ambient :=
  addEntry (CombatLogEntry.mkBody CombatLogEntry.turn
    (Character.id character) (Character.name character)
    (Character.name character +:+ "'s turn begins") None).

Definition logRoundStart (round : Z) : Logger * Ambient → Logger * Ambient :=
  addEntry (CombatLogEntry.mkBody CombatLogEntry.round "" ""
    ("Round " +:+ pretty round +:+ " begins") None).

Definition showPosition (p : Position.t) : string :=
  "(" +:+ pretty (Position.x p) +:+ ", " +:+ pretty (Position.y p) +:+ ")".

Definition logMovement (character : Character.t) (fromPosition toPosition : Position.t)
  : Logger * Ambient → Logger * Ambient :=
  addEntry (CombatLogEntry.mkBody CombatLogEntry.move
    (Character.id character) (Character.name character)
    (Character.name character +:+ " moves from " +:+ showPosition fromPosition
       +:+ " to " +:+ showPosition toPosition)
    (Some (CombatLogEntry.mkDetails None None None None None None
             (Some fromPosition) (Some toPosition) None))).

(** [action.weaponId ? getWeaponById(action.weaponId) : null]. *)
Definition weaponOf (weaponId : option string) : option Weapons.WeaponData :=
  truthy weaponId ≫= Weapons.getWeaponById.

Definition logAttack (attacker target : Character.t) (action : CombatAction.t)
    (hit : bool) (damage : Z) : Logger * Ambient → Logger * Ambient :=
  let weapon := weaponOf (CombatAction.weaponId action) in
  let weaponName :=
    default "unarmed strike" (truthy (Weapons.name <$> weapon)) in
  if hit then
    addEntry (CombatLogEntry.mkBody CombatLogEntry.attack
      (Character.id attacker) (Character.name attacker)
      (Character.name attacker +:+ " hits " +:+ Character.name target +:+ " with "
         +:+ weaponName +:+ " for " +:+ pretty damage +:+ " damage")
      (Some (CombatLogEntry.mkDetails (CombatAction.attackRoll action) (Some damage)
               (Some (Character.id target)) (Some (Character.name target)) None
               (Some weaponName) None None None)))
  else
    addEntry (CombatLogEntry.mkBody CombatLogEntry.attack
      (Character.id attacker) (Character.name attacker)
      (Character.name attacker +:+ " misses " +:+ Character.name target +:+ " with "
         +:+ weaponName +:+ " (rolled " +:+ show (CombatAction.attackRoll action)
         +:+ " vs AC " +:+ show (CombatAction.targetAC action) +:+ ")")
      (Some (CombatLogEntry.mkDetails (CombatAction.attackRoll action) None
               (Some (Character.id target)) (Some (Character.name target)) None
               (Some weaponName) None None (CombatAction.targetAC action)))).

Definition logSpellCast (caster : Character.t) (spellId : string)
    (target : option Character.t) (st : Logger * Ambient) : Logger * Ambient :=
  match Spells.lookup spellId with
  | None => st
  | Some spell =>
      let targetText := from_option (λ t, " on " +:+ Character.name t) "" target in
      addEntry (CombatLogEntry.mkBody CombatLogEntry.spell
        (Character.id caster) (Character.name caster)
        (Character.name caster +:+ " casts " +:+ Spells.name spell +:+ targetText)
        (Some (CombatLogEntry.mkDetails None None
                 (Character.id <$> target) (Character.name <$> target)
                 (Some (Spells.name spell)) None None None None))) st
  end.

Definition logDamage (character : Character.t) (damage : Z) (damageType : option string)
  : Logger * Ambient → Logger * Ambient :=
  let typeText := from_option (λ t, " " +:+ t) "" (truthy damageType) in
  addEntry (CombatLogEntry.mkBody CombatLogEntry.damage
    (Character.id character) (Character.name character)
    (Character.name character +:+ " takes " +:+ pretty damage +:+ typeText +:+ " damage")
    (Some (CombatLogEntry.mkDetails None (Some damage) None None None None None None None))).

Definition logHealing (character : Character.t) (healing : Z)
  : Logger * Ambient → Logger * Ambient :=
  addEntry (CombatLogEntry.mkBody CombatLogEntry.heal
    (Character.id character) (Character.name character)
    (Character.name character +:+ " recovers " +:+ pretty healing +:+ " hit points")
    (Some (CombatLogEntry.mkDetails None (Some healing) None None None None None None None))).

Definition logStatusEffect (character : Character.t) (effectName : string) (applied : bool)
  : Logger * Ambient → Logger * Ambient :=
  let action := if applied then "gains" else "loses" in
  addEntry (CombatLogEntry.mkBody CombatLogEntry.status
    (Character.id character) (Character.name character)
    (Character.name character +:+ " " +:+ action +:+ " " +:+ effectName) None).

Definition logDeath (character : Character.t) : Logger * Ambient → Logger * Ambient :=
  addEntry (CombatLogEntry.mkBody CombatLogEntry.status
    (Character.id character) (Character.name character)
    (Character.name character +:+ " falls unconscious") None).

(** *** [rollAttack] *)

Record AttackResult := mkResult { hit : bool; attackRoll : Z; damage : Z }.

(** [weapon?.properties.includes(trait)]: no weapon gives [undefined], which
    counts as false; a [properties] that is not a list has no [includes], and
    calling it throws. *)
Definition includesTrait (trait : string) (weapon : option Weapons.WeaponData) : Outcome bool :=
  match weapon with
  | None => Returns false
  | Some w =>
      match Weapons.properties w with
      | Weapons.Traits names => Returns (bool_decide (trait ∈ names))
      | Weapons.Bag _ => TypeError
      end
  end.

(** [weapon?.category === 'ranged']. *)
Definition isRanged (weapon : option Weapons.WeaponData) : bool :=
  match weapon with
  | Some w => bool_decide (Weapons.category w = Weapons.ranged)
  | None => false
  end.

(** [weapon?.damage?.dice || '1d4']. *)
Definition damageDiceOf (weapon : option Weapons.WeaponData) : string :=
  default "1d4" (truthy ((λ w, Weapons.dice (Weapons.damage w)) <$> weapon)).

(** The body of [rollAttack] once the weapon has been looked up. *)
Definition rollAttackWith (weapon : option Weapons.WeaponData)
    (attacker target : Character.t) (g : Rng.SeededRNG)
  : Outcome AttackResult * Rng.SeededRNG :=
  let str := Stats.getModifier (StatBlock.strength (Character.stats attacker)) in
  let dex := Stats.getModifier (StatBlock.dexterity (Character.stats attacker)) in
  match includesTrait "finesse" weapon with
  | TypeError => (TypeError, g)
  | Returns finesse =>
      let attackBonus0 :=
        if finesse then Z.max str dex
        else if isRanged weapon then dex
        else str in
      let attackBonus := attackBonus0 + (Stats.ceilQuarter (Character.level attacker) + 1) in
      let '(d20Roll, g1) := Rng.rollDie 20 g in
      let attackRoll := d20Roll + attackBonus in
      let hit := bool_decide (Character.armorClass target ≤ attackRoll) in
      if hit then
        let damageDice := damageDiceOf weapon in
        let '(rolled, g2) := Rng.parseDiceString damageDice g1 in
        let damage := rolled + (if isRanged weapon then dex else str) in
        let damage := Z.max 1 damage in
        if bool_decide (d20Roll = 20) then
          let '(critDamage, g3) := Rng.parseDiceString damageDice g2 in
          (Returns (mkResult hit attackRoll (damage + critDamage)), g3)
        else (Returns (mkResult hit attackRoll damage), g2)
      else (Returns (mkResult hit attackRoll 0), g1)
  end.

Definition rollAttack (attacker target : Character.t) (weaponId : option string)
    (g : Rng.SeededRNG) : Outcome AttackResult * Rng.SeededRNG :=
  rollAttackWith (weaponOf weaponId) attacker target g.

End CombatLog.

(** ** Grid search (combat/pathfinding) *)

Module Pathfinding.

(** A search node.  [parent] is a reference to a node that has already been
    taken out of the open set; such a node is never written again, so the
    reference can be held as the node's value. *)
#[warnings="-register-all"]
Inductive PathNode := mkNode {
  position : Position.t;
  gCost : Z;
  hCost : Z;
  fCost : Z;
  parent : option PathNode
}.

Definition calculateDistance (start goal : Position.t) : Z :=
  Z.abs (Position.x start - Position.x goal) + Z.abs (Position.y start - Position.y goal).

Definition directions : list Position.t :=
  [ Position.mk 0 (-1); Position.mk 1 0; Position.mk 0 1; Position.mk (-1) 0;
    Position.mk (-1) (-1); Position.mk 1 (-1); Position.mk (-1) 1; Position.mk 1 1 ].

Definition inBounds (battlefield : Battlefield.t) (p : Position.t) : bool :=
  bool_decide (0 ≤ Position.x p) && bool_decide (Position.x p < Battlefield.width battlefield)
  && bool_decide (0 ≤ Position.y p) && bool_decide (Position.y p < Battlefield.height battlefield).

Definition offset (p dir : Position.t) : Position.t :=
  Position.mk (Position.x p + Position.x dir) (Position.y p + Position.y dir).

Definition getNeighbors (p : Position.t) (battlefield : Battlefield.t) : list Position.t :=
  filter (λ q, inBounds battlefield q = true) (offset p <$> directions).

(** [a.x === b.x && a.y === b.y]. *)
Definition sameCell (a b : Position.t) : bool :=
  bool_decide (Position.x a = Position.x b) && bool_decide (Position.y a = Position.y b).

(** [excludeCharacter] is optional; no id is equal to [undefined]. *)
Definition isPositionBlocked (p : Position.t) (st : CombatState.t)
    (excludeCharacter : option string) : bool :=
  if existsb (λ obs, sameCell obs p) (Battlefield.obstacles (CombatState.battlefield st))
  then true
  else existsb (λ char,
         negb (bool_decide (Some (Character.id char) = excludeCharacter))
         && bool_decide (Position.x (Character.position char) = Position.x p)
         && bool_decide (Position.y (Character.position char) = Position.y p)
         && bool_decide (0 < Health.current (Character.health char)))
       (CombatState.characters st).

(** [openSet.sort((a, b) => a.fCost - b.fCost)]: the sort is stable, so its
    result is the one a stable insertion sort gives. *)
Fixpoint insertByF (n : PathNode) (l : list PathNode) : list PathNode :=
  match l with
  | [] => [n]
  | m :: l' => if bool_decide (fCost n ≤ fCost m) then n :: l else m :: insertByF n l'
  end.

Definition sortByF (l : list PathNode) : list PathNode := foldr insertByF [] l.

(** The key [`${x},${y}`] of the closed set determines the cell and is
    determined by it; the set is kept as a set of coordinate pairs. *)
Definition key (p : Position.t) : Z * Z := (Position.x p, Position.y p).

(** The walk back along [parent], each cell put in front of the path. *)
Fixpoint pathTo (n : PathNode) : list Position.t :=
  match n with
  | mkNode pos _ _ _ par =>
      match par with
      | None => [pos]
      | Some p => pathTo p ++ [pos]
      end
  end.

(** The body of the loop over the neighbours of [currentNode], for one
    neighbour.  A node found in the open set is updated where it stands. *)
Definition visit (goal : Position.t) (st : CombatState.t) (excludeCharacter : option string)
    (closedSet : gset (Z * Z)) (currentNode : PathNode)
    (openSet : list PathNode) (neighborPos : Position.t) : list PathNode :=
  if bool_decide (key neighborPos ∈ closedSet) then openSet
  else if isPositionBlocked neighborPos st excludeCharacter && negb (sameCell neighborPos goal)
  then openSet
  else
    let tentativeGCost := gCost currentNode + 1 in
    match list_find (λ node, sameCell (position node) neighborPos = true) openSet with
    | Some (i, existingNode) =>
        if bool_decide (gCost existingNode ≤ tentativeGCost) then openSet
        else
          <[i := mkNode (position existingNode) tentativeGCost (hCost existingNode)
                   (tentativeGCost + hCost existingNode) (Some currentNode)]> openSet
    | None =>
        let h := calculateDistance neighborPos goal in
        openSet ++ [mkNode neighborPos tentativeGCost h (tentativeGCost + h) (Some currentNode)]
    end.

(** What the search ends in.  [OutOfFuel] is not a result of the source: it
    marks a run of the model that was given fewer rounds than the loop needs. *)
Inductive SearchResult :=
| Found (path : list Position.t)
| NoPath
| OutOfFuel.

(** The [while (openSet.length > 0)] loop, at most [fuel] rounds of it. *)
Fixpoint search (fuel : nat) (goal : Position.t) (st : CombatState.t)
    (excludeCharacter : option string) (openSet : list PathNode)
    (closedSet : gset (Z * Z)) : SearchResult :=
  match fuel with
  | O => match openSet with [] => NoPath | _ => OutOfFuel end
  | S fuel' =>
      match sortByF openSet with
      | [] => NoPath
      | currentNode :: rest =>
          let closedSet' := {[ key (position currentNode) ]} ∪ closedSet in
          if sameCell (position currentNode) goal then Found (pathTo currentNode)
          else
            search fuel' goal st excludeCharacter
              (fold_left (visit goal st excludeCharacter closedSet' currentNode)
                 (getNeighbors (position currentNode) (CombatState.battlefield st)) rest)
              closedSet'
      end
  end.

Definition startNode (start goal : Position.t) : PathNode :=
  let h := calculateDistance start goal in mkNode start 0 h (0 + h) None.

Definition findPathWithin (fuel : nat) (start goal : Position.t) (st : CombatState.t)
    (excludeCharacter : option string) : SearchResult :=
  search fuel goal st excludeCharacter [startNode start goal] ∅.

(** Every round closes a cell that was not closed before, and a cell other
    than [start] is only ever opened inside the battlefield: the loop makes
    at most [width * height + 1] rounds. *)
Definition findPath (start goal : Position.t) (st : CombatState.t)
    (excludeCharacter : option string) : SearchResult :=
  let battlefield := CombatState.battlefield st in
  findPathWithin
    (S (Z.to_nat (Battlefield.width battlefield * Battlefield.height battlefield)))
    start goal st excludeCharacter.

(** [for (let v = lo; v <= hi; v++)]: the values the loop variable takes. *)
Definition span (lo hi : Z) : list Z := seqZ lo (hi - lo + 1).

(** [getPositionsInRange]: the outer loop runs over [x], the inner over [y],
    and a cell is pushed when it is near enough. *)
Definition getPositionsInRange (center : Position.t) (range : Z) (st : CombatState.t)
  : list Position.t :=
  let battlefield := CombatState.battlefield st in
  x ← span (Z.max 0 (Position.x center - range))
           (Z.min (Battlefield.width battlefield - 1) (Position.x center + range));
  y ← span (Z.max 0 (Position.y center - range))
           (Z.min (Battlefield.height battlefield - 1) (Position.y center + range));
  if bool_decide (calculateDistance center (Position.mk x y) ≤ range)
  then [Position.mk x y] else [].

(** [obstacles.some(obs => obs.x === x && obs.y === y)]. *)
Definition obstacleAt (st : CombatState.t) (x y : Z) : bool :=
  existsb (λ obs, bool_decide (Position.x obs = x) && bool_decide (Position.y obs = y))
    (Battlefield.obstacles (CombatState.battlefield st)).

(** The [while (true)] loop of [hasLineOfSight], at most [fuel] rounds of
    it, entered with the current [x], [y] and [err].  [None] is not a result
    of the source: it marks a run that was given too few rounds. *)
Fixpoint sightLoop (fuel : nat) (start goal : Position.t) (st : CombatState.t)
    (dx dy sx sy : Z) (x y err : Z) : option bool :=
  match fuel with
  | O => None
  | S fuel' =>
      let atStart := bool_decide (x = Position.x start) && bool_decide (y = Position.y start) in
      let atGoal := bool_decide (x = Position.x goal) && bool_decide (y = Position.y goal) in
      if negb atStart && negb atGoal && obstacleAt st x y then Some false
      else if atGoal then Some true
      else
        let e2 := 2 * err in
        let '(err, x) := if bool_decide (- dy < e2) then (err - dy, x + sx) else (err, x) in
        let '(err, y) := if bool_decide (e2 < dx) then (err + dx, y + sy) else (err, y) in
        sightLoop fuel' start goal st dx dy sx sy x y err
  end.

(** [hasLineOfSight].  A round that does not end the loop moves [x] or [y]
    one step nearer to the goal, so [dx + dy + 1] rounds are the most the
    loop makes. *)
Definition hasLineOfSight (start goal : Position.t) (st : CombatState.t) : option bool :=
  let dx := Z.abs (Position.x goal - Position.x start) in
  let dy := Z.abs (Position.y goal - Position.y start) in
  let sx := if bool_decide (Position.x start < Position.x goal) then 1 else -1 in
  let sy := if bool_decide (Position.y start < Position.y goal) then 1 else -1 in
  sightLoop (S (Z.to_nat (dx + dy))) start goal st dx dy sx sy
    (Position.x start) (Position.y start) (dx - dy).

End Pathfinding.

(** ** The engine (combat/combatEngine) *)

Module CombatEngine.
Import Runtime.

(** The fields of a [CombatEngine] together with what it shares with the
    other modules.  The array [characters] holds distinct objects; a
    reference to one of them is its index in the array. *)
Record Engine := mk {
  combatState : CombatState.t;
  logger : CombatLog.Logger;
  ambient : Ambient
}.

(** A method: it runs on the engine, may change it, and returns or throws. *)
Definition Method (A : Type) : Type := Engine → Outcome A * Engine.

Definition ret {A} (a : A) : Method A := λ e, (Returns a, e).

Definition throw {A} : Method A := λ e, (TypeError, e).

Definition bind {A B} (m : Method A) (k : A → Method B) : Method B :=
  λ e, match m e with
       | (Returns a, e1) => k a e1
       | (TypeError, e1) => (TypeError, e1)
       end.

Notation "'let*' x := m 'in' k" := (bind m (λ x, k))
  (at level 10, x pattern, m at level 100, k at level 200).
Notation "m ;; k" := (bind m (λ _, k))
  (at level 100, k at level 200, right associativity).

(** Reading and writing the state. *)
Definition getState : Method CombatState.t := λ e, (Returns (combatState e), e).

Definition modifyState (f : CombatState.t → CombatState.t) : Method unit :=
  λ e, (Returns (), mk (f (combatState e)) (logger e) (ambient e)).

(** Reading the object behind a reference; a reference handed out by
    [getCharacterById] always resolves. *)
Definition deref (ref : nat) : Method Character.t :=
  λ e, match CombatState.characters (combatState e) !! ref with
       | Some c => (Returns c, e)
       | None => (TypeError, e)
       end.

(** An assignment to a field of the object behind a reference. *)
Definition assign (ref : nat) (f : Character.t → Character.t) : Method unit :=
  modifyState (λ s, CombatState.setCharacters (alter f ref (CombatState.characters s)) s).

(** A call on [this.logger]. *)
Definition logging (f : CombatLog.Logger * Ambient → CombatLog.Logger * Ambient)
  : Method unit :=
  λ e, let '(log, amb) := f (logger e, ambient e) in (Returns (), mk (combatState e) log amb).

(** A call on [globalRNG]. *)
Definition rolling {A} (f : Rng.SeededRNG → A * Rng.SeededRNG) : Method A :=
  λ e, let '(r, amb) := onRNG f (ambient e) in (Returns r, mk (combatState e) (logger e) amb).

(** [Math.random()]. *)
Definition mathRandom : Method Q :=
  λ e, let '(r, amb) := random (ambient e) in (Returns r, mk (combatState e) (logger e) amb).

(** [characters.find(c => c.id === id) || null], as a reference. *)
Definition findCharacter (id : option string) (characters : list Character.t) : option nat :=
  fst <$> list_find (λ c, Some (Character.id c) = id) characters.

Definition getCharacterById (id : option string) : Method (option nat) :=
  λ e, (Returns (findCharacter id (CombatState.characters (combatState e))), e).

Definition getCurrentCharacter : Method (option nat) :=
  let* s := getState in
  getCharacterById (CombatState.currentCharacterId s).

(** *** [initializeCombat] *)

(** The callback of [characters.forEach], for the element at index [i]. *)
Definition rollInitiative (i : nat) : Method unit :=
  let* character := deref i in
  let dexModifier := (StatBlock.dexterity (Character.stats character) - 10) / 2 in
  let* roll := rolling (Rng.rollDie 20) in
  assign i (Character.setInitiative (roll + dexModifier)).

Fixpoint forEach (indices : list nat) (f : nat → Method unit) : Method unit :=
  match indices with
  | [] => ret ()
  | i :: rest => f i ;; forEach rest f
  end.

(** [characters.sort((a, b) => b.initiative - a.initiative)]: stable, highest
    initiative first. *)
Fixpoint insertByInitiative (c : Character.t) (l : list Character.t) : list Character.t :=
  match l with
  | [] => [c]
  | d :: l' =>
      if bool_decide (Character.initiative d ≤ Character.initiative c)
      then c :: l else d :: insertByInitiative c l'
  end.

Definition sortByInitiative (l : list Character.t) : list Character.t :=
  foldr insertByInitiative [] l.

Definition initializeCombat : Method unit :=
  let* s := getState in
  forEach (seq 0 (length (CombatState.characters s))) rollInitiative ;;
  (* the sort rearranges [characters] itself; [map] then reads the ids *)
  modifyState (λ s, CombatState.setCharacters (sortByInitiative (CombatState.characters s)) s) ;;
  modifyState (λ s, CombatState.setInitiativeOrder (Character.id <$> CombatState.characters s) s) ;;
  modifyState (λ s, CombatState.setCurrentCharacterId (head (CombatState.initiativeOrder s)) s) ;;
  modifyState (CombatState.setCombatLog []) ;;
  let* s := getState in
  logging (CombatLog.logRoundStart (CombatState.round s)) ;;
  let* current := getCurrentCharacter in
  match current with
  | None => throw                       (* [character.id] of [null] *)
  | Some ref =>
      let* character := deref ref in
      logging (CombatLog.logTurnStart character)
  end.

(** *** The action handlers *)

Definition processMovement (character : nat) (action : CombatAction.t)
  : Method (bool * CombatAction.t) :=
  match CombatAction.target action with
  | None | Some (CombatAction.Name _) => ret (false, action)
  | Some (CombatAction.Cell target) =>
      let* c := deref character in
      let oldPosition := Character.position c in
      assign character (Character.setPosition target) ;;
      let distance := Z.abs (Position.x oldPosition - Position.x target)
                      + Z.abs (Position.y oldPosition - Position.y target) in
      assign character (λ c, Character.setMovementUsed (Character.movementUsed c + distance * 5) c) ;;
      let* c := deref character in
      logging (CombatLog.logMovement c oldPosition target) ;;
      ret (true, action)
  end.

(** [target.health.current = Math.max(0, target.health.current - damage)]. *)
Definition takeDamage (damage : Z) (c : Character.t) : Character.t :=
  Character.setHealth
    (Health.setCurrent (Z.max 0 (Health.current (Character.health c) - damage))
       (Character.health c)) c.

(** The check for death after damage has been applied. *)
Definition checkDeath (target : nat) : Method unit :=
  let* t := deref target in
  if bool_decide (Health.current (Character.health t) = 0)
  then logging (CombatLog.logDeath t)
  else ret ().

Definition processAttack (character : nat) (action : CombatAction.t)
  : Method (bool * CombatAction.t) :=
  match CombatAction.target action with
  | None | Some (CombatAction.Cell _) => ret (false, action)
  | Some (CombatAction.Name targetId) =>
      if bool_decide (targetId = "") then ret (false, action)
      else
        let* found := getCharacterById (Some targetId) in
        match found with
        | None => ret (false, action)
        | Some target =>
            assign character (Character.setHasUsedAction true) ;;
            let* c := deref character in
            let* t := deref target in
            let* rolled := rolling (CombatLog.rollAttack c t (CombatAction.weaponId action)) in
            match rolled with
            | TypeError => throw
            | Returns attackResult =>
                let action :=
                  CombatAction.annotate (CombatLog.attackRoll attackResult)
                    (Character.armorClass t) (CombatLog.damage attackResult) action in
                logging (CombatLog.logAttack c t action (CombatLog.hit attackResult)
                           (CombatLog.damage attackResult)) ;;
                (if CombatLog.hit attackResult then
                   assign target (takeDamage (CombatLog.damage attackResult)) ;;
                   let* t := deref target in
                   logging (CombatLog.logDamage t (CombatLog.damage attackResult) None) ;;
                   checkDeath target
                 else ret ()) ;;
                ret (true, action)
            end
        end
  end.

(** [let target; if (action.target && typeof action.target === 'string')
    target = this.getCharacterById(action.target)]. *)
Definition spellTarget (action : CombatAction.t) : Method (option nat) :=
  match CombatAction.target action with
  | Some (CombatAction.Name targetId) =>
      if bool_decide (targetId = "") then ret None else getCharacterById (Some targetId)
  | _ => ret None
  end.

Definition derefOption (ref : option nat) : Method (option Character.t) :=
  match ref with
  | Some r => let* c := deref r in ret (Some c)
  | None => ret None
  end.

(** The damage branch shared by the two spells the handler knows. *)
Definition spellDamage (target : nat) (damage : Z) (damageType : string) : Method unit :=
  assign target (takeDamage damage) ;;
  let* t := deref target in
  logging (CombatLog.logDamage t damage (Some damageType)) ;;
  checkDeath target.

Definition processSpell (character : nat) (action : CombatAction.t)
  : Method (bool * CombatAction.t) :=
  match CombatLog.truthy (CombatAction.spellId action) with
  | None => ret (false, action)
  | Some spellId =>
      assign character (Character.setHasUsedAction true) ;;
      let* target := spellTarget action in
      let* c := deref character in
      let* t := derefOption target in
      logging (CombatLog.logSpellCast c spellId t) ;;
      match target with
      | Some target =>
          if bool_decide (spellId = "magic_missile") then
            let* r := mathRandom in
            spellDamage target (3 + Qfloor (r * 4) + 1) "force" ;;
            ret (true, action)
          else if bool_decide (spellId = "firebolt") then
            let* r := mathRandom in
            spellDamage target (Qfloor (r * 10) + 1) "fire" ;;
            ret (true, action)
          else ret (true, action)
      | None => ret (true, action)
      end
  end.

Definition processDash (character : nat) : Method bool :=
  assign character (Character.setHasUsedAction true) ;;
  assign character (λ c, Character.setSpeed (Character.speed c * 2) c) ;;
  ret true.

Definition dodging : StatusEffect.t :=
  StatusEffect.mk "dodge" "Dodging" 1 StatusEffect.buff {[ "ac" := 2 ]}.

Definition processDodge (character : nat) : Method bool :=
  assign character (Character.setHasUsedAction true) ;;
  assign character (λ c, Character.setStatusEffects (Character.statusEffects c ++ [dodging]) c) ;;
  ret true.

Definition processAction (action : CombatAction.t) : Method (bool * CombatAction.t) :=
  let* found := getCharacterById (Some (CombatAction.characterId action)) in
  match found with
  | None => ret (false, action)
  | Some character =>
      match CombatAction.type action with
      | CombatAction.move => processMovement character action
      | CombatAction.attack => processAttack character action
      | CombatAction.spell => processSpell character action
      | CombatAction.dash => let* ok := processDash character in ret (ok, action)
      | CombatAction.dodge => let* ok := processDodge character in ret (ok, action)
      | _ => ret (false, action)
      end
  end.

(** *** [endTurn] *)

(** [initiativeOrder.indexOf(id)], -1 when there is none. *)
Definition indexOf (id : option string) (order : list string) : Z :=
  match list_find (λ o, Some o = id) order with
  | Some (i, _) => Z.of_nat i
  | None => -1
  end.

Definition resetTurnFlags (c : Character.t) : Character.t :=
  Character.setMovementUsed 0
    (Character.setHasUsedReaction false
       (Character.setHasUsedBonusAction false
          (Character.setHasUsedAction false c))).

Definition endTurn : Method unit :=
  let* current := getCurrentCharacter in
  match current with
  | Some ref => assign ref resetTurnFlags
  | None => ret ()
  end ;;
  let* s := getState in
  let order := CombatState.initiativeOrder s in
  let currentIndex := indexOf (CombatState.currentCharacterId s) order in
  (* with an empty order the remainder is not a number: nothing is at that
     index and the comparison with 0 fails *)
  let nextIndex : option Z :=
    if bool_decide (order = []) then None
    else Some (Z.rem (currentIndex + 1) (Z.of_nat (length order))) in
  modifyState (CombatState.setCurrentCharacterId (nextIndex ≫= Rng.arrayGet order)) ;;
  modifyState (λ s, CombatState.setTurn (CombatState.turn s + 1) s) ;;
  (if bool_decide (nextIndex = Some 0) then
     modifyState (λ s, CombatState.setRound (CombatState.round s + 1) s) ;;
     let* s := getState in
     logging (CombatLog.logRoundStart (CombatState.round s))
   else ret ()) ;;
  let* next := getCurrentCharacter in
  match next with
  | Some ref => let* c := deref ref in logging (CombatLog.logTurnStart c)
  | None => ret ()
  end.

(** *** [checkCombatEnd] *)

Definition alive (c : Character.t) : bool :=
  bool_decide (0 < Health.current (Character.health c)).

Definition checkCombatEnd : Method (option CombatState.Side) :=
  let* s := getState in
  let alivePlayers :=
    filter (λ c, (bool_decide (Character.type c = CreatureType.player)
                  || bool_decide (Character.type c = CreatureType.companion))
                 && alive c = true) (CombatState.characters s) in
  let aliveEnemies :=
    filter (λ c, bool_decide (Character.type c = CreatureType.enemy) && alive c = true)
      (CombatState.characters s) in
  if bool_decide (length alivePlayers = 0%nat) then
    modifyState (CombatState.setEnded CombatState.enemies) ;;
    ret (Some CombatState.enemies)
  else if bool_decide (length aliveEnemies = 0%nat) then
    modifyState (CombatState.setEnded CombatState.players) ;;
    ret (Some CombatState.players)
  else ret None.

Definition getCombatLog : Method (list CombatLogEntry.t) :=
  λ e, (Returns (CombatLog.getLog (logger e)), e).

End CombatEngine.

(** ** The engine, second copy

    The repository holds a second copy of the engine file.  It has no
    accessor for the state, and its [processSpell] consumes a spell slot
    where the first copy applies damage; everything else is the same. *)

Module CombatEngineAlt.
Import Runtime CombatEngine.

(** [const spellSlots = character.resources.spellSlots[level];
    if (spellSlots && spellSlots.current > 0) spellSlots.current--]. *)
Definition consumeSlot (level : Z) (c : Character.t) : Character.t :=
  let slots := Resources.spellSlots (Character.resources c) in
  match slots !! level with
  | Some pool =>
      if bool_decide (0 < Pool.current pool)
      then Character.setResources
             (Resources.mk (<[level := Pool.setCurrent (Pool.current pool - 1) pool]> slots)) c
      else c
  | None => c
  end.

Definition processSpell (character : nat) (action : CombatAction.t)
  : Method (bool * CombatAction.t) :=
  match CombatLog.truthy (CombatAction.spellId action) with
  | None => ret (false, action)
  | Some spellId =>
      assign character (Character.setHasUsedAction true) ;;
      let* target := spellTarget action in
      let* c := deref character in
      let* t := derefOption target in
      logging (CombatLog.logSpellCast c spellId t) ;;
      match Spells.lookup spellId with
      | Some spell =>
          if bool_decide (0 < Spells.level spell)
          then assign character (consumeSlot (Spells.level spell))
          else ret ()
      | None => ret ()
      end ;;
      ret (true, action)
  end.

Definition processAction (action : CombatAction.t) : Method (bool * CombatAction.t) :=
  let* found := getCharacterById (Some (CombatAction.characterId action)) in
  match found with
  | None => ret (false, action)
  | Some character =>
      match CombatAction.type action with
      | CombatAction.move => processMovement character action
      | CombatAction.attack => processAttack character action
      | CombatAction.spell => processSpell character action
      | CombatAction.dash => let* ok := processDash character in ret (ok, action)
      | CombatAction.dodge => let* ok := processDodge character in ret (ok, action)
      | _ => ret (false, action)
      end
  end.

End CombatEngineAlt.

(** ** Sample data for the worked examples *)

Module Fixtures.

Definition ambient (seed : Z) : Runtime.Ambient :=
  Runtime.mk (Rng.new (Some (Rng.SeedNumber seed)) 0) (λ n, 1700000000000 + Z.of_nat n) 0
    (λ _, 1 # 2) 0.

(** A combatant with the given Strength and Dexterity; the other scores
    are 10. *)
Definition combatant (id : string) (kind : CreatureType.t) (level strength dexterity : Z)
    (hitPoints armorClass : Z) (slots : gmap Z Pool.t) (x y : Z) : Character.t :=
  Character.mk id id level (StatBlock.mk strength dexterity 10 10 10 10)
    (Health.mk hitPoints hitPoints 0) armorClass 30 (Resources.mk slots)
    (Position.mk x y) kind [] 0 false false false 0.

Definition fighter : Character.t :=
  combatant "fighter" CreatureType.player 1 16 10 12 16 ∅ 0 0.

Definition weakling : Character.t :=
  combatant "weakling" CreatureType.player 1 6 10 8 10 ∅ 0 1.

Definition wizard : Character.t :=
  combatant "wizard" CreatureType.player 5 8 14 20 12
    {[ 1 := Pool.mk 4 4; 2 := Pool.mk 3 3; 3 := Pool.mk 2 2 ]} 1 0.

Definition orc : Character.t :=
  combatant "orc" CreatureType.enemy 1 16 12 15 15 ∅ 3 3.

Definition goblin : Character.t :=
  combatant "goblin" CreatureType.enemy 1 8 14 7 10 ∅ 4 1.

(** The longsword as the interface declares a weapon, with the list of
    traits as its [properties]. *)
Definition declaredLongsword : Weapons.WeaponData :=
  Weapons.Build_WeaponData "longsword" "Longsword"
    (Weapons.Build_Damage "1d8" "slashing") (Weapons.Build_Range 5 None)
    Weapons.martial Weapons.melee (Weapons.Traits ["versatile"]).

Definition board (width height : Z) (characters : list Character.t) : CombatState.t :=
  CombatState.mk 1 0 characters [] None [] (Battlefield.mk width height [] []) true None.

Definition engine (seed : Z) (state : CombatState.t) : CombatEngine.Engine :=
  CombatEngine.mk state [] (ambient seed).

(** A combat that has been started by hand: the order of the array is the
    initiative order and the first character is up. *)
Definition started (width height : Z) (characters : list Character.t) : CombatState.t :=
  CombatState.mk 1 0 characters (Character.id <$> characters)
    (head (Character.id <$> characters)) [] (Battlefield.mk width height [] []) true None.

Definition act (kind : CombatAction.Kind) (actor : string)
    (target : option CombatAction.Target) (spellId : option string) : CombatAction.t :=
  CombatAction.mk "a1" kind actor target None spellId None None None None None "".

(** A hundred and one log entries that can be told apart. *)
Definition entries101 : list CombatLogEntry.Body :=
  (λ n, CombatLogEntry.mkBody CombatLogEntry.round "" ""
          ("Round " +:+ pretty n +:+ " begins") None) <$> seqZ 1 101.

End Fixtures.

(** ** Vocabulary of the statements *)

Module Vocabulary.
Import Runtime CombatEngine.

(** A method that never answers [false]: it returns [true] or throws. *)
Definition neverFalse (m : Method (bool * CombatAction.t)) : Prop :=
  ∀ e action' e', m e ≠ (Returns (false, action'), e').

(** A method under which a relation to the state it started from, once
    established, goes on to hold, whatever the method ends in. *)
Definition keeps {A} (I : Engine → Prop) (m : Method A) : Prop :=
  ∀ e out e', I e → m e = (out, e') → I e'.

(** A relation that only looks at the combat state. *)
Definition onState (P : CombatState.t → Prop) : Engine → Prop :=
  λ e, P (combatState e).

(** What a caller does with an engine: it submits an action or ends the
    turn.  [run] makes the calls in order and gives the engine they leave;
    a call that throws leaves the engine as it was at the throw. *)
Inductive Call :=
| Submit (action : CombatAction.t)
| EndTurn.

Definition call (c : Call) (e : Engine) : Engine :=
  match c with
  | Submit action => (processAction action e).2
  | EndTurn => (endTurn e).2
  end.

Definition run (calls : list Call) (e : Engine) : Engine := foldl (λ e c, call c e) e calls.

(** The character with the given id, as the engine would find it. *)
Definition characterOf (id : string) (e : Engine) : option Character.t :=
  findCharacter (Some id) (CombatState.characters (combatState e))
    ≫= λ ref, CombatState.characters (combatState e) !! ref.

(** The [current] count of a character's pool of slots of a level. *)
Definition slotsLeft (id : string) (level : Z) (e : Engine) : option Z :=
  characterOf id e
    ≫= λ c, Pool.current <$> Resources.spellSlots (Character.resources c) !! level.

End Vocabulary.

Module PathVocabulary.
Import Pathfinding.

(** The number of king's moves between two cells. *)
Definition chebyshev (a b : Position.t) : Z :=
  Z.max (Z.abs (Position.x a - Position.x b)) (Z.abs (Position.y a - Position.y b)).

Definition inside (battlefield : Battlefield.t) (p : Position.t) : Prop :=
  0 ≤ Position.x p < Battlefield.width battlefield
  ∧ 0 ≤ Position.y p < Battlefield.height battlefield.

(** A board without obstacles on which every character other than the
    excluded one is down. *)
Definition openBoard (st : CombatState.t) (excludeCharacter : option string) : Prop :=
  Battlefield.obstacles (CombatState.battlefield st) = []
  ∧ Forall (λ c, Some (Character.id c) = excludeCharacter
                 ∨ Health.current (Character.health c) ≤ 0)
      (CombatState.characters st).

(** The neighbour of [p] that is nearest to [goal]: one step along each
    axis on which the two differ. *)
Definition toward (goal p : Position.t) : Position.t :=
  Position.mk (Position.x p + Z.sgn (Position.x goal - Position.x p))
              (Position.y p + Z.sgn (Position.y goal - Position.y p)).

(** The cell reached from [start] after [t] such steps. *)
Fixpoint cell (start goal : Position.t) (t : nat) : Position.t :=
  match t with
  | O => start
  | S t' => toward goal (cell start goal t')
  end.

(** The search node for that cell: [t] steps from the start, reached from
    the node of the step before. *)
Fixpoint node (start goal : Position.t) (t : nat) : PathNode :=
  let p := cell start goal t in
  let h := calculateDistance p goal in
  mkNode p (Z.of_nat t) h (Z.of_nat t + h)
    match t with
    | O => None
    | S t' => Some (node start goal t')
    end.

(** An open node that cannot be taken before [node start goal t]. *)
Definition lagging (start goal : Position.t) (t : nat) (n : PathNode) : Prop :=
  let h := calculateDistance (cell start goal t) goal in
  Z.of_nat t + h + 1 ≤ fCost n
  ∧ gCost n ≤ Z.of_nat t
  ∧ h + 1 ≤ calculateDistance (position n) goal.

(** The state of the loop at the start of round [t] on an open board. *)
Definition frontier (start goal : Position.t) (t : nat)
    (openSet : list PathNode) (closedSet : gset (Z * Z)) : Prop :=
  (∃ rest, openSet ≡ₚ node start goal t :: rest ∧ Forall (lagging start goal t) rest)
  ∧ ∀ p, key p ∈ closedSet →
         calculateDistance (cell start goal t) goal + 1 ≤ calculateDistance p goal.

End PathVocabulary.

(** ** Further sample data *)

Module MoreFixtures.

(** The dagger as the interface declares a weapon, with its list of
    traits. *)
Definition declaredDagger : Weapons.WeaponData :=
  Weapons.Build_WeaponData "dagger" "Dagger"
    (Weapons.Build_Damage "1d4" "piercing") (Weapons.Build_Range 5 (Some 20))
    Weapons.simple Weapons.melee (Weapons.Traits ["light"; "finesse"; "thrown"]).

Definition generator (seed : Z) : Rng.SeededRNG := Rng.new (Some (Rng.SeedNumber seed)) 0.

End MoreFixtures.

(** ** Vocabulary of the further properties *)

Module RngVocabulary.
Import Rng.

(** A generator state of the Lehmer sequence proper. *)
Definition inPeriod (g : SeededRNG) : Prop := 1 ≤ seed g ≤ 2147483646.

(** Whether some [d] in the text is directly followed by a digit. *)
Fixpoint dieBeforeDigit (s : list ascii) : bool :=
  match s with
  | c1 :: s' =>
      match s' with
      | c2 :: _ => (bool_decide (c1 = "d"%char) && isDigit c2) || dieBeforeDigit s'
      | [] => false
      end
  | [] => false
  end.

End RngVocabulary.

Module PathMoreVocabulary.
Import Pathfinding PathVocabulary.

(** Two cells a king's move apart. *)
Definition adjacent (p q : Position.t) : Prop := chebyshev p q = 1.

(** A cell the search may step on: inside the battlefield, and free unless
    it is the goal. *)
Definition steppable (goal : Position.t) (st : CombatState.t)
    (excludeCharacter : option string) (p : Position.t) : Prop :=
  inside (CombatState.battlefield st) p
  ∧ (isPositionBlocked p st excludeCharacter = false ∨ p = goal).

(** The paths that start at [start] and go on by steps to adjacent cells
    that can be stepped on. *)
Inductive Walk (start goal : Position.t) (st : CombatState.t)
    (excludeCharacter : option string) : list Position.t → Prop :=
| walk_start : Walk start goal st excludeCharacter [start]
| walk_step path p q :
    Walk start goal st excludeCharacter path →
    last path = Some p →
    adjacent p q →
    steppable goal st excludeCharacter q →
    Walk start goal st excludeCharacter (path ++ [q]).

(** A node whose chain of parents is such a walk. *)
Fixpoint sound (start goal : Position.t) (st : CombatState.t)
    (excludeCharacter : option string) (n : PathNode) : Prop :=
  match n with
  | mkNode pos _ _ _ par =>
      match par with
      | None => pos = start
      | Some p =>
          sound start goal st excludeCharacter p
          ∧ adjacent (position p) pos
          ∧ steppable goal st excludeCharacter pos
      end
  end.

(** The keys of the cells of the battlefield. *)
Definition cells (battlefield : Battlefield.t) : gset (Z * Z) :=
  list_to_set (x ← seqZ 0 (Battlefield.width battlefield);
               y ← seqZ 0 (Battlefield.height battlefield);
               [(x, y)]).

(** The open and closed sets of a search that is under way: the open nodes
    stand on different cells, none of them closed, and every cell in either
    set is the start or a cell of the battlefield. *)
Definition tidy (start : Position.t) (st : CombatState.t)
    (openSet : list PathNode) (closedSet : gset (Z * Z)) : Prop :=
  let universe := {[ key start ]} ∪ cells (CombatState.battlefield st) in
  NoDup ((key ∘ position) <$> openSet)
  ∧ (∀ k, k ∈ (key ∘ position) <$> openSet → (k ∉ closedSet) ∧ k ∈ universe)
  ∧ closedSet ⊆ universe.

(** The node the first round of the search opens for a goal next to the
    start. *)
Definition goalNode (start goal : Position.t) : PathNode :=
  mkNode goal (0 + 1) (calculateDistance goal goal)
    (0 + 1 + calculateDistance goal goal) (Some (startNode start goal)).

(** An open set after the first round: every node is one step from the
    start, and only the node of the goal is as cheap as one. *)
Definition firstRing (start goal : Position.t) (openSet : list PathNode) : Prop :=
  Forall (λ m, gCost m = 1
               ∧ (position m = goal → m = goalNode start goal)
               ∧ (position m ≠ goal → 1 < fCost m)) openSet.

End PathMoreVocabulary.

Module EngineVocabulary.
Import CombatEngine.

(** What a character is, as opposed to how the fight stands for it. *)
Definition sheet (c : Character.t)
  : string * string * Z * StatBlock.t * Z * Z * Resources.t * CreatureType.t * Z :=
  (Character.id c, Character.name c, Character.level c, Character.stats c,
   Health.maximum (Character.health c), Character.armorClass c, Character.resources c,
   Character.type c, Character.initiative c).

(** The setting of a fight: the board, the order of turns, the log the
    state carries, and the sheets of the characters in the roster. *)
Definition setting (s : CombatState.t) :=
  (CombatState.battlefield s, CombatState.initiativeOrder s, CombatState.combatLog s,
   sheet <$> CombatState.characters s).

(** Members of the two sides that are still standing. *)
Definition standingPlayer (c : Character.t) : Prop :=
  (Character.type c = CreatureType.player ∨ Character.type c = CreatureType.companion)
  ∧ 0 < Health.current (Character.health c).

Definition standingEnemy (c : Character.t) : Prop :=
  Character.type c = CreatureType.enemy ∧ 0 < Health.current (Character.health c).

End EngineVocabulary.

(** * Part II: properties *)

(** ** The seeded generator *)

Module RngFacts.
Import Rng.

Lemma seed_of_new (seedArg : SeedArg) (mathRandom : Q) :
  seed (new (Some seedArg) mathRandom) = installSeed seedArg.
Proof. reflexivity. Qed.

Lemma performAll_length {T} (calls : list (Call T)) (g : SeededRNG) :
  length (performAll calls g).1 = length calls.
Proof.
  revert g. induction calls as [|c calls IH]; intros g; [done|].
  cbn [performAll]. destruct (perform c g) as [a g1].
  specialize (IH g1). destruct (performAll calls g1) as [answers g2].
  cbn in *. by rewrite IH.
Qed.

(** The answers are a function of the state the generator is in. *)
Lemma performAll_state {T} (calls : list (Call T)) (g1 g2 : SeededRNG) :
  getSeed g1 = getSeed g2 → performAll calls g1 = performAll calls g2.
Proof. destruct g1, g2; cbn; intros ->; reflexivity. Qed.

(** C1.  Two generators constructed from the same seed, a number or a
    string, in runs whose [Math.random()] may differ, answer every sequence
    of calls to [next], [rollDie] and [shuffle] alike, and end in the same
    state. *)
Theorem same_seed_same_sequence {T} (seedArg : SeedArg) (mathRandom1 mathRandom2 : Q)
    (calls : list (Call T)) :
  performAll calls (new (Some seedArg) mathRandom1)
  = performAll calls (new (Some seedArg) mathRandom2).
Proof. apply performAll_state. by rewrite !seed_of_new. Qed.

(** Without a seed the construction does depend on the run. *)
Lemma unseeded_generators_differ :
  (next (new None 0)).1 ≠ (next (new None (1 # 2))).1.
Proof. vm_compute. discriminate. Qed.

Lemma modulus_coprime : Z.gcd 2147483647 16807 = 1.
Proof. reflexivity. Qed.

(** From a state in 1 .. 2^31-2 the generator stays in that range and
    [next] is a fraction in [0, 1). *)
Lemma next_in_unit_interval (g : SeededRNG) :
  1 ≤ seed g ≤ 2147483646 →
  (0 <= (next g).1)%Q ∧ ((next g).1 < 1)%Q ∧ 1 ≤ seed (next g).2 ≤ 2147483646.
Proof.
  intros Hs. unfold next. cbn [fst snd seed].
  rewrite Z.rem_mod_nonneg by lia.
  set (s := (seed g * 16807) `mod` 2147483647).
  assert (0 ≤ s < 2147483647) as Hr by (apply Z.mod_pos_bound; lia).
  assert (s ≠ 0) as Hnz.
  { intros Hz. subst s. apply Z.mod_divide in Hz; [|lia].
    rewrite Z.mul_comm in Hz. apply Z.gauss in Hz; [|apply modulus_coprime].
    apply Z.divide_pos_le in Hz; lia. }
  unfold Qle, Qlt. cbn. lia.
Qed.

(** C8, at the seed the claim names.  A generator constructed with the
    number 0, or with the empty string, stays in state 0: [next] returns
    -1/2147483646, below the interval [0, 1), and [rollDie 20] returns 0. *)
Theorem next_below_zero_at_seed_zero (mathRandom : Q) :
  let g0 := new (Some (SeedNumber 0)) mathRandom in
  new (Some (SeedString "")) mathRandom = g0
  ∧ next g0 = (-1 # 2147483646, g0)
  ∧ ((next g0).1 < 0)%Q
  ∧ (rollDie 20 g0).1 = 0.
Proof. cbn. repeat split. Qed.

End RngFacts.

(** ** The combat log and the attack roll *)

Module CombatLogFacts.
Import Runtime CombatLog.

(** What one [addEntry] does to the log: one entry with the given body is
    put at the end, and a log that is then longer than 100 keeps its last 50
    entries. *)
Lemma addEntry_log (entry : CombatLogEntry.Body) (log : Logger) (amb : Ambient) :
  ∃ e, CombatLogEntry.body e = entry
       ∧ (addEntry entry (log, amb)).1
         = if bool_decide (100 < length (log ++ [e]))%nat
           then drop (length (log ++ [e]) - 50) (log ++ [e]) else log ++ [e].
Proof.
  unfold addEntry, now, onRNG. cbn [globalRNG].
  destruct (Rng.nextInt 1000 9999 _) as [n g]. cbn [fst].
  eexists. split; [|reflexivity]. reflexivity.
Qed.

Lemma addAll_snoc (entries : list CombatLogEntry.Body) (entry : CombatLogEntry.Body)
    (st : Logger * Ambient) :
  addAll (entries ++ [entry]) st = addEntry entry (addAll entries st).
Proof. unfold addAll. by rewrite foldl_app. Qed.

(** Up to a hundred entries nothing is dropped. *)
Lemma addAll_keeps_all (entries : list CombatLogEntry.Body) (amb : Ambient) :
  (length entries ≤ 100)%nat →
  CombatLogEntry.body <$> (addAll entries ([], amb)).1 = entries.
Proof.
  induction entries as [|entry entries IH] using rev_ind; intros Hlen; [done|].
  rewrite length_app in Hlen. cbn in Hlen.
  rewrite addAll_snoc. destruct (addAll entries ([], amb)) as [log amb'] eqn:E.
  cbn [fst] in IH. specialize (IH ltac:(lia)).
  destruct (addEntry_log entry log amb') as (e & He & ->).
  assert (length log = length entries) as Hl by (by rewrite <- IH, length_fmap).
  rewrite bool_decide_false by (rewrite length_app; cbn; lia).
  by rewrite fmap_app, IH; cbn; rewrite He.
Qed.

(** C9.  After 101 entries have been added to an empty log one at a time,
    the log holds exactly 50 entries, the last 50 in the order they were
    added; and whenever an entry is added to a log that already holds 100 or
    more, the log is cut to the 50 most recent entries, the new one last. *)
Theorem log_retention (entries : list CombatLogEntry.Body) (amb : Ambient)
    (entry : CombatLogEntry.Body) (log0 : Logger) (amb0 : Ambient) :
  length entries = 101%nat →
  (100 ≤ length log0)%nat →
  let log := (addAll entries ([], amb)).1 in
  let log1 := (addEntry entry (log0, amb0)).1 in
  (length log = 50%nat ∧ CombatLogEntry.body <$> log = drop 51 entries)
  ∧ (length log1 = 50%nat
     ∧ CombatLogEntry.body <$> log1
       = drop (length log0 - 49) ((CombatLogEntry.body <$> log0) ++ [entry])).
Proof.
  intros Hn H0. cbn zeta.
  assert (∀ l a b, (100 ≤ length l)%nat →
            length (addEntry b (l, a)).1 = 50%nat
            ∧ CombatLogEntry.body <$> (addEntry b (l, a)).1
              = drop (length l - 49) ((CombatLogEntry.body <$> l) ++ [b])) as Hstep.
  { intros l a b Hl. destruct (addEntry_log b l a) as (e & He & ->).
    rewrite bool_decide_true by (rewrite length_app; cbn; lia).
    rewrite length_drop, fmap_drop, fmap_app, !length_app. cbn. rewrite He.
    split; [lia|]. f_equal. lia. }
  split; [|by apply Hstep].
  destruct entries as [|last front _] using rev_ind; [done|].
  rewrite length_app in Hn. cbn in Hn.
  rewrite addAll_snoc. destruct (addAll front ([], amb)) as [log amb'] eqn:E.
  pose proof (addAll_keeps_all front amb ltac:(lia)) as Hfront.
  rewrite E in Hfront. cbn [fst] in Hfront.
  assert (length log = 100%nat) as Hl by (rewrite <- (length_fmap CombatLogEntry.body), Hfront; lia).
  destruct (Hstep log amb' last ltac:(lia)) as [-> ->].
  split; [done|]. rewrite Hfront, Hl. reflexivity.
Qed.

Lemma log_retention_witness :
  let entries := Fixtures.entries101 in
  let amb := Fixtures.ambient 42 in
  let entry := CombatLogEntry.mkBody CombatLogEntry.turn "orc" "orc" "orc's turn begins" None in
  let log0 := (addAll (take 100 entries) ([], amb)).1 in
  let log := (addAll entries ([], amb)).1 in
  let log1 := (addEntry entry (log0, amb)).1 in
  (length entries = 101%nat ∧ (100 ≤ length log0)%nat)
  ∧ (length log = 50%nat ∧ CombatLogEntry.body <$> log = drop 51 entries)
  ∧ (length log1 = 50%nat
     ∧ CombatLogEntry.body <$> log1
       = drop (length log0 - 49) ((CombatLogEntry.body <$> log0) ++ [entry])).
Proof.
  cbn zeta.
  assert ((100 ≤ length (addAll (take 100 Fixtures.entries101)
                           ([], Fixtures.ambient 42)).1)%nat) as Hlog0
    by (vm_compute; lia).
  split; [by split|].
  apply (log_retention Fixtures.entries101 (Fixtures.ambient 42)); [reflexivity|exact Hlog0].
Defined.

End CombatLogFacts.

Module AttackFacts.
Import Runtime CombatLog.

(** The bonus at level 1 is 2: [Math.ceil(1 / 4) + 1]. *)
Lemma proficiency_at_level_one : Stats.getProficiencyBonus 1 = 2.
Proof. reflexivity. Qed.

Lemma modifier_of_sixteen : Stats.getModifier 16 = 3.
Proof. reflexivity. Qed.

(** Every weapon of the table ends up with the damage object as its
    [properties], and the attack roll stops at [includes]. *)
Lemma table_weapon_throws (id : string) (w : Weapons.WeaponData)
    (attacker target : Character.t) (g : Rng.SeededRNG) :
  Weapons.getWeaponById id = Some w →
  rollAttackWith (Some w) attacker target g = (TypeError, g).
Proof.
  unfold Weapons.getWeaponById. intros Hw.
  apply elem_of_list_to_map_2 in Hw. unfold Weapons.WEAPONS in Hw.
  repeat (apply elem_of_cons in Hw as [[= -> ->]|Hw]; [reflexivity|]).
  by apply elem_of_nil in Hw.
Qed.

(** C3, as the claim states it, fails: the attacker with Strength 16 at
    level 1 rolls a 10 against armor class 15; the total is 15 and the
    attack hits, without a weapon and with a longsword that carries its list
    of traits alike.  (With the longsword of the table the call throws.) *)
Lemma roll_of_ten_hits :
  let g := Rng.new (Some (Rng.SeedNumber 57500)) 0 in
  StatBlock.strength (Character.stats Fixtures.fighter) = 16
  ∧ Character.level Fixtures.fighter = 1
  ∧ Character.armorClass Fixtures.orc = 15
  ∧ (Rng.rollDie 20 g).1 = 10
  ∧ (∃ result g', rollAttack Fixtures.fighter Fixtures.orc None g = (Returns result, g')
                  ∧ attackRoll result = 15 ∧ hit result = true)
  ∧ (∃ result g', rollAttackWith (Some Fixtures.declaredLongsword)
                    Fixtures.fighter Fixtures.orc g = (Returns result, g')
                  ∧ attackRoll result = 15 ∧ hit result = true)
  ∧ rollAttack Fixtures.fighter Fixtures.orc (Some "longsword") g = (TypeError, g).
Proof. cbn zeta. split_and!; try reflexivity; vm_compute; eauto. Qed.

(** C3, amended.  For an attacker with Strength 16 at level 1 against armor
    class 15, attacking on Strength (no weapon, or one whose trait list has
    no finesse and which is not ranged), the total is the d20 roll plus 5
    (modifier 3, proficiency 2), and the attack hits exactly when the d20
    shows 10 or more: a 10 (total 15) hits, a 9 (total 14) misses. *)
Theorem attack_threshold (attacker target : Character.t)
    (weapon : option Weapons.WeaponData) (g : Rng.SeededRNG) :
  StatBlock.strength (Character.stats attacker) = 16 →
  Character.level attacker = 1 →
  Character.armorClass target = 15 →
  includesTrait "finesse" weapon = Returns false →
  isRanged weapon = false →
  ∃ result g',
    rollAttackWith weapon attacker target g = (Returns result, g')
    ∧ attackRoll result = (Rng.rollDie 20 g).1 + 5
    ∧ (hit result = true ↔ 10 ≤ (Rng.rollDie 20 g).1).
Proof.
  intros Hstr Hlevel Hac Hfinesse Hranged.
  unfold rollAttackWith. rewrite Hfinesse, Hranged, Hstr, Hlevel, Hac.
  change (Stats.getModifier 16 + (Stats.ceilQuarter 1 + 1)) with 5.
  destruct (Rng.rollDie 20 g) as [d20 g1]. cbn [fst].
  destruct (decide (15 ≤ d20 + 5)) as [Hhit|Hmiss].
  - rewrite (bool_decide_true _ Hhit).
    destruct (Rng.parseDiceString _ g1) as [rolled g2].
    case_bool_decide.
    + destruct (Rng.parseDiceString _ g2) as [crit g3].
      eexists _, _. split; [reflexivity|]. cbn. split; [done|]. split; [lia|done].
    + eexists _, _. split; [reflexivity|]. cbn. split; [done|]. split; [lia|done].
  - rewrite (bool_decide_false _ Hmiss).
    eexists _, _. split; [reflexivity|]. cbn. split; [done|]. split; [done|lia].
Qed.

Lemma attack_threshold_witness :
  let weapon := Some Fixtures.declaredLongsword in
  let g := Rng.new (Some (Rng.SeedNumber 51111)) 0 in
  (StatBlock.strength (Character.stats Fixtures.fighter) = 16
   ∧ Character.level Fixtures.fighter = 1
   ∧ Character.armorClass Fixtures.orc = 15
   ∧ includesTrait "finesse" weapon = Returns false
   ∧ isRanged weapon = false)
  ∧ ∃ result g',
      rollAttackWith weapon Fixtures.fighter Fixtures.orc g = (Returns result, g')
      ∧ attackRoll result = (Rng.rollDie 20 g).1 + 5
      ∧ (hit result = true ↔ 10 ≤ (Rng.rollDie 20 g).1).
Proof.
  cbn zeta. split; [by split_and!|].
  apply attack_threshold; reflexivity.
Defined.

(** The two rolls on either side of the threshold, on generator states
    that produce them: 10 hits with total 15, 9 misses with total 14. *)
Lemma attack_threshold_examples :
  (Rng.rollDie 20 (Rng.new (Some (Rng.SeedNumber 57500)) 0)).1 = 10
  ∧ (rollAttack Fixtures.fighter Fixtures.orc None (Rng.new (Some (Rng.SeedNumber 57500)) 0)).1
    = Returns (mkResult true 15 5)
  ∧ (Rng.rollDie 20 (Rng.new (Some (Rng.SeedNumber 51111)) 0)).1 = 9
  ∧ (rollAttack Fixtures.fighter Fixtures.orc None (Rng.new (Some (Rng.SeedNumber 51111)) 0)).1
    = Returns (mkResult false 14 0).
Proof. vm_compute. repeat split. Qed.

(** C4, as the claim states it, fails: an attacker with Strength 6
    (modifier -2) rolls a natural 20 and hits armor class 10; the weapon
    dice show 1 and then 2.  The damage is 3, not 1 + 2 - 2. *)
Lemma critical_keeps_the_floor :
  let g := Rng.new (Some (Rng.SeedNumber 121388)) 0 in
  let g1 := (Rng.rollDie 20 g).2 in
  let first := Rng.parseDiceString "1d4" g1 in
  let second := Rng.parseDiceString "1d4" first.2 in
  (Rng.rollDie 20 g).1 = 20
  ∧ first.1 = 1 ∧ second.1 = 2
  ∧ Stats.getModifier (StatBlock.strength (Character.stats Fixtures.weakling)) = -2
  ∧ (rollAttack Fixtures.weakling Fixtures.goblin None g).1 = Returns (mkResult true 20 3)
  ∧ 3 ≠ first.1 + second.1 + -2.
Proof. vm_compute. repeat split; discriminate. Qed.

(** C4, amended.  When the d20 shows 20 and the attack hits, the damage is
    a first roll of the weapon dice plus the ability modifier (Dexterity for
    a ranged weapon, Strength otherwise), raised to 1 if it is less, plus a
    second roll of the weapon dice made on the generator right after the
    first.  When the first roll plus the modifier is at least 1, that is the
    sum of the two rolls and the modifier, counted once. *)
Theorem critical_damage (attacker target : Character.t)
    (weapon : option Weapons.WeaponData) (g g' : Rng.SeededRNG) (result : AttackResult) :
  rollAttackWith weapon attacker target g = (Returns result, g') →
  (Rng.rollDie 20 g).1 = 20 →
  hit result = true →
  let first := Rng.parseDiceString (damageDiceOf weapon) (Rng.rollDie 20 g).2 in
  let second := Rng.parseDiceString (damageDiceOf weapon) first.2 in
  let modifier :=
    if isRanged weapon
    then Stats.getModifier (StatBlock.dexterity (Character.stats attacker))
    else Stats.getModifier (StatBlock.strength (Character.stats attacker)) in
  damage result = Z.max 1 (first.1 + modifier) + second.1
  ∧ g' = second.2
  ∧ (1 ≤ first.1 + modifier → damage result = first.1 + second.1 + modifier).
Proof.
  unfold rollAttackWith. intros Hrun Hd20 Hhit. cbn zeta.
  destruct (includesTrait "finesse" weapon) as [finesse|]; [|done].
  destruct (Rng.rollDie 20 g) as [d20 g1]. cbn [fst snd] in *. subst d20.
  case_bool_decide as Hac.
  - destruct (Rng.parseDiceString (damageDiceOf weapon) g1) as [rolled g2].
    cbn [fst snd]. rewrite bool_decide_true in Hrun by done.
    destruct (Rng.parseDiceString (damageDiceOf weapon) g2) as [crit g3].
    injection Hrun as <- <-. cbn [damage fst snd].
    split; [reflexivity|]. split; [reflexivity|].
    generalize (if isRanged weapon
                then Stats.getModifier (StatBlock.dexterity (Character.stats attacker))
                else Stats.getModifier (StatBlock.strength (Character.stats attacker))).
    intros modifier Hfloor. lia.
  - injection Hrun as <- <-. done.
Qed.

Lemma critical_damage_witness :
  let g := Rng.new (Some (Rng.SeedNumber 121386)) 0 in
  let result := mkResult true 25 11 in
  let first := Rng.parseDiceString (damageDiceOf None) (Rng.rollDie 20 g).2 in
  let second := Rng.parseDiceString (damageDiceOf None) first.2 in
  let modifier :=
    if isRanged None
    then Stats.getModifier (StatBlock.dexterity (Character.stats Fixtures.fighter))
    else Stats.getModifier (StatBlock.strength (Character.stats Fixtures.fighter)) in
  (rollAttackWith None Fixtures.fighter Fixtures.orc g = (Returns result, second.2)
   ∧ (Rng.rollDie 20 g).1 = 20
   ∧ hit result = true)
  ∧ (damage result = Z.max 1 (first.1 + modifier) + second.1
     ∧ second.2 = second.2
     ∧ (1 ≤ first.1 + modifier → damage result = first.1 + second.1 + modifier)).
Proof.
  cbn zeta. split; [by split_and!|].
  apply (critical_damage Fixtures.fighter Fixtures.orc None
           (Rng.new (Some (Rng.SeedNumber 121386)) 0)); reflexivity.
Defined.

End AttackFacts.

(** ** The engine *)

Module EngineFacts.
Import Runtime CombatEngine Vocabulary.

(** *** Methods that cannot answer [false] *)

Lemma neverFalse_ret (action : CombatAction.t) : neverFalse (ret (true, action)).
Proof. intros e a' e'. unfold ret. congruence. Qed.

Lemma neverFalse_throw : neverFalse throw.
Proof. intros e a' e'. unfold throw. congruence. Qed.

Lemma neverFalse_bind {A} (m : Method A) (k : A → Method (bool * CombatAction.t)) :
  (∀ a, neverFalse (k a)) → neverFalse (bind m k).
Proof.
  intros Hk e a' e'. unfold bind. destruct (m e) as [[a|] e1]; [apply Hk|congruence].
Qed.

Ltac never_false :=
  repeat first
    [ apply neverFalse_ret
    | apply neverFalse_throw
    | apply neverFalse_bind; intros
    | match goal with
      | |- neverFalse (match ?x with _ => _ end) => destruct x
      end ].

(** A run that ends in [false] is impossible for a method that never
    answers [false]. *)
Ltac absurd_false :=
  let H := fresh "H" in
  intros H; exfalso; revert H;
  match goal with
  | |- ?m ?e = (Returns (false, ?a), ?e') → False =>
      let N := fresh "N" in
      assert (neverFalse m) as N by never_false; exact (N e a e')
  end.

Lemma processMovement_false (character : nat) (action action' : CombatAction.t) (e e' : Engine) :
  processMovement character action e = (Returns (false, action'), e') →
  e' = e ∧ action' = action.
Proof.
  unfold processMovement.
  destruct (CombatAction.target action) as [[target|targetId]|];
    try (unfold ret; intros [= <- <-]; done).
  absurd_false.
Qed.

Lemma processAttack_false (character : nat) (action action' : CombatAction.t) (e e' : Engine) :
  processAttack character action e = (Returns (false, action'), e') →
  e' = e ∧ action' = action.
Proof.
  unfold processAttack.
  destruct (CombatAction.target action) as [[target|targetId]|];
    try (unfold ret; intros [= <- <-]; done).
  case_bool_decide; [unfold ret; intros [= <- <-]; done|].
  unfold bind at 1, getCharacterById.
  destruct (findCharacter _ _) as [target|]; [|unfold ret; intros [= <- <-]; done].
  absurd_false.
Qed.

Lemma processSpell_false (character : nat) (action action' : CombatAction.t) (e e' : Engine) :
  processSpell character action e = (Returns (false, action'), e') →
  e' = e ∧ action' = action.
Proof.
  unfold processSpell.
  destruct (CombatLog.truthy (CombatAction.spellId action)) as [spellId|];
    [|unfold ret; intros [= <- <-]; done].
  absurd_false.
Qed.

(** C6.  When [processAction] answers [false], the engine is as it was
    before the call: the combat state with every character, the battlefield
    and the scheduler fields, the logger's entries, the shared generator and
    the clock; the action object is as it was passed in. *)
Theorem failed_action_changes_nothing (action action' : CombatAction.t) (e e' : Engine) :
  processAction action e = (Returns (false, action'), e') →
  e' = e ∧ action' = action.
Proof.
  unfold processAction, bind at 1, getCharacterById.
  destruct (findCharacter _ _) as [character|]; [|unfold ret; intros [= <- <-]; done].
  destruct (CombatAction.type action).
  - apply processMovement_false.
  - apply processAttack_false.
  - apply processSpell_false.
  - (* dash answers [true] *)
    unfold processDash, bind, assign, modifyState, ret. intros [=].
  - (* dodge answers [true] *)
    unfold processDodge, bind, assign, modifyState, ret. intros [=].
  - unfold ret; intros [= <- <-]; done.
  - unfold ret; intros [= <- <-]; done.
  - unfold ret; intros [= <- <-]; done.
  - unfold ret; intros [= <- <-]; done.
Qed.

Lemma failed_action_changes_nothing_witness :
  let e := Fixtures.engine 42 (Fixtures.started 8 8 [Fixtures.fighter; Fixtures.orc]) in
  let action := Fixtures.act CombatAction.attack "fighter" (Some (CombatAction.Name "ghost")) None in
  processAction action e = (Returns (false, action), e) ∧ (e = e ∧ action = action).
Proof.
  cbn zeta. split; [reflexivity|].
  apply failed_action_changes_nothing. reflexivity.
Defined.

Lemma bind_returns {A B} (m : Method A) (k : A → Method B) (e e1 : Engine) (a : A) :
  m e = (Returns a, e1) → bind m k e = k a e1.
Proof. unfold bind. by intros ->. Qed.

(** The three kinds of invalid action, each answered with [false]: an
    actor that does not exist, a target of the wrong shape (a character id
    for a move, a cell for an attack), and a spell without a spell id. *)
Lemma invalid_actions_answer_false :
  let e := Fixtures.engine 42 (Fixtures.started 8 8 [Fixtures.fighter; Fixtures.orc]) in
  let answer action := (processAction action e).1 in
  let ghost := Fixtures.act CombatAction.dash "ghost" None None in
  let move := Fixtures.act CombatAction.move "fighter" (Some (CombatAction.Name "orc")) None in
  let attack := Fixtures.act CombatAction.attack "fighter"
                  (Some (CombatAction.Cell (Position.mk 3 3))) None in
  let spell := Fixtures.act CombatAction.spell "fighter" (Some (CombatAction.Name "orc")) None in
  answer ghost = Returns (false, ghost)
  ∧ answer move = Returns (false, move)
  ∧ answer attack = Returns (false, attack)
  ∧ answer spell = Returns (false, spell).
Proof. vm_compute. repeat split. Qed.

(** *** Relations a method keeps *)

Lemma keeps_ret {A} (I : Engine → Prop) (a : A) : keeps I (ret a).
Proof. intros e out e' HI [= <- <-]. done. Qed.

Lemma keeps_throw {A} (I : Engine → Prop) : keeps I (@throw A).
Proof. intros e out e' HI [= <- <-]. done. Qed.

Lemma keeps_bind {A B} (I : Engine → Prop) (m : Method A) (k : A → Method B) :
  keeps I m → (∀ a, keeps I (k a)) → keeps I (bind m k).
Proof.
  intros Hm Hk e out e' HI. unfold bind.
  destruct (m e) as [[a|] e1] eqn:E.
  - apply (Hk a). by eapply Hm.
  - intros [= <- <-]. by eapply Hm.
Qed.

Lemma keeps_getState I : keeps I getState.
Proof. intros e out e' HI [= <- <-]. done. Qed.

Lemma keeps_deref I (ref : nat) : keeps I (deref ref).
Proof. intros e out e' HI. unfold deref. destruct (_ !! ref); intros [= <- <-]; done. Qed.

Lemma keeps_getCharacterById I (id : option string) : keeps I (getCharacterById id).
Proof. intros e out e' HI [= <- <-]. done. Qed.

Lemma keeps_getCurrentCharacter I : keeps I getCurrentCharacter.
Proof.
  apply keeps_bind; [apply keeps_getState|]. intros s. apply keeps_getCharacterById.
Qed.

Lemma keeps_logging P f : keeps (onState P) (logging f).
Proof.
  intros e out e' HI. unfold logging. destruct (f _) as [log amb]. intros [= <- <-]. done.
Qed.

Lemma keeps_rolling {A} P (f : Rng.SeededRNG → A * Rng.SeededRNG) : keeps (onState P) (rolling f).
Proof.
  intros e out e' HI. unfold rolling, onRNG. destruct (f _) as [r g]. intros [= <- <-]. done.
Qed.

Lemma keeps_mathRandom P : keeps (onState P) mathRandom.
Proof. intros e out e' HI [= <- <-]. done. Qed.

Lemma keeps_modifyState (P : CombatState.t → Prop) f :
  (∀ s, P s → P (f s)) → keeps (onState P) (modifyState f).
Proof. intros Hf e out e' HI [= <- <-]. by apply Hf. Qed.

(** A projection of the characters that an assignment leaves alone. *)
Lemma fmap_alter_same {B} (proj : Character.t → B) (f : Character.t → Character.t)
    (ref : nat) (l : list Character.t) :
  (∀ c, proj (f c) = proj c) → proj <$> alter f ref l = proj <$> l.
Proof.
  intros Hf. rewrite (list_fmap_alter proj f id).
  - by apply list_alter_id.
  - apply Forall_forall. intros c _. apply Hf.
Qed.

Lemma keeps_assign {B} (proj : Character.t → B) (v : list B) f (ref : nat) :
  (∀ c, proj (f c) = proj c) →
  keeps (onState (λ s, proj <$> CombatState.characters s = v)) (assign ref f).
Proof.
  intros Hf. apply keeps_modifyState. intros s Hs. cbn. by rewrite fmap_alter_same.
Qed.

Lemma keeps_checkDeath P (target : nat) : keeps (onState P) (checkDeath target).
Proof.
  apply keeps_bind; [apply keeps_deref|]. intros t.
  case_bool_decide; [apply keeps_logging|apply keeps_ret].
Qed.

Ltac keep :=
  repeat first
    [ apply keeps_ret | apply keeps_throw | apply keeps_getState | apply keeps_deref
    | apply keeps_getCharacterById | apply keeps_getCurrentCharacter
    | apply keeps_logging | apply keeps_rolling | apply keeps_mathRandom
    | apply keeps_checkDeath
    | apply keeps_assign; intros; reflexivity
    | apply keeps_modifyState; intros ? ?; assumption
    | apply keeps_bind; [|intros]
    | match goal with
      | |- keeps _ (match ?x with _ => _ end) => destruct x
      end ].

(** *** Spell slots *)

(** No path through the spell handler writes to a resource pool. *)
Lemma processSpell_keeps_resources (v : list Resources.t) (character : nat)
    (action : CombatAction.t) :
  keeps (onState (λ s, Character.resources <$> CombatState.characters s = v))
    (processSpell character action).
Proof. unfold processSpell, spellDamage, derefOption, spellTarget. keep. Qed.

(** C2, on the engine.  The wizard holds two slots of level 3 and casts
    Fireball, a spell of level 3, at the orc.  The action is accepted, and
    the wizard still holds two slots of level 3 afterwards; the claim says
    one. *)
Theorem spell_leaves_slots_untouched :
  let e := Fixtures.engine 42 (Fixtures.started 8 8 [Fixtures.wizard; Fixtures.orc]) in
  let action := Fixtures.act CombatAction.spell "wizard"
                  (Some (CombatAction.Name "orc")) (Some "fireball") in
  Spells.level <$> Spells.lookup "fireball" = Some 3
  ∧ slotsLeft "wizard" 3 e = Some 2
  ∧ (processAction action e).1 = Returns (true, action)
  ∧ slotsLeft "wizard" 3 (processAction action e).2 = Some 2.
Proof. vm_compute. repeat split. Qed.

(** The second copy of the engine does take the slot, on the same input. *)
Lemma second_copy_takes_a_slot :
  let e := Fixtures.engine 42 (Fixtures.started 8 8 [Fixtures.wizard; Fixtures.orc]) in
  let action := Fixtures.act CombatAction.spell "wizard"
                  (Some (CombatAction.Name "orc")) (Some "fireball") in
  (CombatEngineAlt.processAction action e).1 = Returns (true, action)
  ∧ slotsLeft "wizard" 3 (CombatEngineAlt.processAction action e).2 = Some 1.
Proof. vm_compute. repeat split. Qed.

Lemma findCharacter_valid (id : option string) (l : list Character.t) (ref : nat) :
  findCharacter id l = Some ref → is_Some (l !! ref).
Proof.
  unfold findCharacter. destruct (list_find _ l) as [[i c]|] eqn:Hfind; [|done].
  intros [= <-]. apply list_find_Some in Hfind as (Hc & _). by exists c.
Qed.

Lemma spellTarget_reads (action : CombatAction.t) (e : Engine) :
  ∃ target, spellTarget action e = (Returns target, e)
            ∧ ∀ ref, target = Some ref →
                     is_Some (CombatState.characters (combatState e) !! ref).
Proof.
  unfold spellTarget. destruct (CombatAction.target action) as [[cell|targetId]|].
  - exists None. by split.
  - case_bool_decide.
    + exists None. by split.
    + eexists. split; [reflexivity|]. intros ref. apply findCharacter_valid.
  - exists None. by split.
Qed.

(** What the claim asks for holds in the second copy of the engine: a spell
    of level above 0, cast by a character with a slot of that level left,
    takes exactly one slot from that pool. *)
Lemma second_copy_consumes_one_slot (action : CombatAction.t) (e : Engine) (ref : nat)
    (c : Character.t) (spellId : string) (spell : Spells.Spell) (pool : Pool.t) :
  CombatAction.type action = CombatAction.spell →
  findCharacter (Some (CombatAction.characterId action))
    (CombatState.characters (combatState e)) = Some ref →
  CombatState.characters (combatState e) !! ref = Some c →
  CombatLog.truthy (CombatAction.spellId action) = Some spellId →
  Spells.lookup spellId = Some spell →
  0 < Spells.level spell →
  Resources.spellSlots (Character.resources c) !! Spells.level spell = Some pool →
  0 < Pool.current pool →
  ∃ e' c',
    CombatEngineAlt.processAction action e = (Returns (true, action), e')
    ∧ CombatState.characters (combatState e') !! ref = Some c'
    ∧ Resources.spellSlots (Character.resources c') !! Spells.level spell
      = Some (Pool.mk (Pool.current pool - 1) (Pool.maximum pool)).
Proof.
  intros Hkind Hfind Hc Hid Hspell Hlevel Hpool Hleft.
  unfold CombatEngineAlt.processAction.
  erewrite bind_returns by (unfold getCharacterById; by rewrite Hfind).
  rewrite Hkind. unfold CombatEngineAlt.processSpell. rewrite Hid.
  erewrite bind_returns by reflexivity.
  set (e1 := mk _ _ _).
  assert (CombatState.characters (combatState e1) !! ref
          = Some (Character.setHasUsedAction true c)) as Hc1
    by (subst e1; cbn; by rewrite list_lookup_alter_eq, Hc).
  destruct (spellTarget_reads action e1) as (target & Htarget & Hvalid).
  erewrite bind_returns by exact Htarget.
  erewrite bind_returns by (unfold deref; by rewrite Hc1).
  assert (∃ t, derefOption target e1 = (Returns t, e1)) as [t Ht].
  { destruct target as [j|]; [|by eexists].
    destruct (Hvalid j eq_refl) as [cj Hcj]. exists (Some cj).
    unfold derefOption. erewrite bind_returns by (unfold deref; by rewrite Hcj). done. }
  erewrite bind_returns by exact Ht.
  unfold logging at 1. unfold bind at 1.
  destruct (CombatLog.logSpellCast _ _ _ _) as [log amb].
  rewrite Hspell, bool_decide_true by done.
  erewrite bind_returns by reflexivity. unfold ret.
  eexists _, _. split; [reflexivity|]. cbn [combatState CombatState.characters
    CombatState.setCharacters]. fold e1.
  split.
  - rewrite list_lookup_alter_eq, Hc1. reflexivity.
  - unfold CombatEngineAlt.consumeSlot. cbn. rewrite Hpool, bool_decide_true by done.
    cbn. by rewrite lookup_insert_eq.
Qed.

(** *** Dash *)

(** Ending a turn writes to no character's speed. *)
Lemma endTurn_keeps_speed (v : list Z) :
  keeps (onState (λ s, Character.speed <$> CombatState.characters s = v)) endTurn.
Proof. unfold endTurn. keep. Qed.

(** C5, on the engine.  The fighter, with speed 30, takes Dash on its
    turn; two calls to [endTurn] bring its turn back, and it starts that
    turn with speed 60.  Dash again, and the turn after starts at 120. *)
Theorem dash_doubling_is_never_reverted :
  let e := Fixtures.engine 42 (Fixtures.started 8 8 [Fixtures.fighter; Fixtures.orc]) in
  let dash := Submit (Fixtures.act CombatAction.dash "fighter" None None) in
  let e1 := run [dash; EndTurn; EndTurn] e in
  let e2 := run [dash; EndTurn; EndTurn] e1 in
  Character.speed <$> characterOf "fighter" e = Some 30
  ∧ CombatState.currentCharacterId (combatState e1) = Some "fighter"
  ∧ Character.speed <$> characterOf "fighter" e1 = Some 60
  ∧ CombatState.currentCharacterId (combatState e2) = Some "fighter"
  ∧ Character.speed <$> characterOf "fighter" e2 = Some 120.
Proof. vm_compute. repeat split. Qed.

(** *** Initiative *)

Lemma insertByInitiative_perm (c : Character.t) (l : list Character.t) :
  insertByInitiative c l ≡ₚ c :: l.
Proof.
  induction l as [|d l IH]; [done|]. cbn. case_bool_decide; [done|].
  by rewrite IH, Permutation_swap.
Qed.

Lemma sortByInitiative_perm (l : list Character.t) : sortByInitiative l ≡ₚ l.
Proof.
  induction l as [|c l IH]; [done|]. cbn.
  by rewrite insertByInitiative_perm, IH.
Qed.

Lemma insertByInitiative_sorted (c : Character.t) (l : list Character.t) :
  StronglySorted (λ a b, Character.initiative b ≤ Character.initiative a) l →
  StronglySorted (λ a b, Character.initiative b ≤ Character.initiative a)
    (insertByInitiative c l).
Proof.
  induction 1 as [|d l Hl IH Hd]; cbn.
  - repeat constructor.
  - case_bool_decide as Hle.
    + constructor; [by constructor|]. constructor; [done|].
      eapply Forall_impl; [exact Hd|]. cbn. intros; lia.
    + constructor; [done|]. rewrite insertByInitiative_perm.
      constructor; [lia|done].
Qed.

Lemma sortByInitiative_sorted (l : list Character.t) :
  StronglySorted (λ a b, Character.initiative b ≤ Character.initiative a)
    (sortByInitiative l).
Proof.
  induction l as [|c l IH]; cbn; [constructor|by apply insertByInitiative_sorted].
Qed.

(** Rolling initiative for the characters at valid indices succeeds and
    leaves every id in its place. *)
Lemma forEach_rollInitiative (indices : list nat) (e : Engine) :
  Forall (λ i, (i < length (CombatState.characters (combatState e)))%nat) indices →
  ∃ e1, forEach indices rollInitiative e = (Returns (), e1)
        ∧ Character.id <$> CombatState.characters (combatState e1)
          = Character.id <$> CombatState.characters (combatState e).
Proof.
  revert e. induction indices as [|i indices IH]; intros e Hall.
  - by exists e.
  - apply Forall_cons in Hall as [Hi Hall].
    destruct (lookup_lt_is_Some_2 _ _ Hi) as [c Hc].
    cbn [forEach]. unfold bind at 1, rollInitiative, bind at 1, deref. rewrite Hc.
    unfold bind at 1, rolling, onRNG. destruct (Rng.rollDie 20 _) as [roll g].
    unfold assign, modifyState.
    set (e1 := mk _ _ _).
    assert (Character.id <$> CombatState.characters (combatState e1)
            = Character.id <$> CombatState.characters (combatState e)) as Hid.
    { subst e1. cbn. by apply fmap_alter_same. }
    destruct (IH e1) as (e2 & Hrun & Hids).
    { assert (length (CombatState.characters (combatState e1))
              = length (CombatState.characters (combatState e))) as Hlen
        by (rewrite <- !(length_fmap Character.id); by f_equal).
      eapply Forall_impl; [exact Hall|]. intros j Hj. cbn beta in *. lia. }
    exists e2. split; [exact Hrun|]. by rewrite Hids.
Qed.

(** C10.  After [initializeCombat], whether it returns or stops at the
    turn-start entry of an empty roster, the array [characters] itself is in
    descending order of initiative and holds the characters it held before;
    [initiativeOrder] lists the ids of [characters] index by index; and
    [combatLog] is empty.  The order the caller had set up is lost: the
    sample roster fighter, orc, goblin comes out as orc, goblin, fighter. *)
Theorem initializeCombat_sorts_in_place (e : Engine) :
  let s' := combatState (initializeCombat e).2 in
  (∀ i : nat, Character.id <$> CombatState.characters s' !! i
              = CombatState.initiativeOrder s' !! i)
  ∧ CombatState.initiativeOrder s' = Character.id <$> CombatState.characters s'
  ∧ StronglySorted (λ a b, Character.initiative b ≤ Character.initiative a)
      (CombatState.characters s')
  ∧ Character.id <$> CombatState.characters s'
    ≡ₚ Character.id <$> CombatState.characters (combatState e)
  ∧ CombatState.combatLog s' = []
  ∧ Character.id <$> CombatState.characters
      (combatState (initializeCombat
         (Fixtures.engine 7
            (Fixtures.board 8 8 [Fixtures.fighter; Fixtures.orc; Fixtures.goblin]))).2)
    = ["orc"; "goblin"; "fighter"].
Proof.
  cbn zeta.
  destruct (forEach_rollInitiative
              (seq 0 (length (CombatState.characters (combatState e)))) e)
    as (e1 & Hrun & Hids).
  { apply Forall_forall. intros i Hi. apply elem_of_seq in Hi. lia. }
  unfold initializeCombat.
  erewrite bind_returns by reflexivity.
  erewrite bind_returns by exact Hrun.
  do 4 (erewrite bind_returns by reflexivity). cbn [combatState logger ambient].
  set (sorted := sortByInitiative (CombatState.characters (combatState e1))).
  match goal with
  | |- context [bind getState ?k ?e5] =>
      assert (keeps (onState (λ s, s = combatState e5)) (bind getState k)) as Hrest
        by keep;
      destruct (bind getState k e5) as [out e'] eqn:Erest;
      apply Hrest in Erest; [|reflexivity]
  end.
  unfold onState in Erest. cbn [snd]. rewrite Erest.
  cbn [combatState CombatState.characters CombatState.initiativeOrder CombatState.combatLog
       CombatState.setCharacters CombatState.setInitiativeOrder
       CombatState.setCurrentCharacterId CombatState.setCombatLog].
  split_and!.
  - intros i. by rewrite list_lookup_fmap.
  - done.
  - apply sortByInitiative_sorted.
  - subst sorted. by rewrite sortByInitiative_perm, Hids.
  - done.
  - vm_compute. reflexivity.
Qed.

End EngineFacts.

(** ** Grid search *)

Module PathFacts.
Import Pathfinding PathVocabulary.

Lemma position_eq (p q : Position.t) :
  p = q ↔ Position.x p = Position.x q ∧ Position.y p = Position.y q.
Proof. destruct p, q; cbn. split; [by intros [= -> ->]|by intros [-> ->]]. Qed.

Lemma sameCell_true (p q : Position.t) : sameCell p q = true ↔ p = q.
Proof.
  unfold sameCell. rewrite andb_true_iff, !bool_decide_eq_true. symmetry. apply position_eq.
Qed.

Lemma sameCell_false (p q : Position.t) : sameCell p q = false ↔ p ≠ q.
Proof. rewrite <- sameCell_true. by destruct (sameCell p q). Qed.

(** *** The sort of the open set *)

Lemma insertByF_perm (n : PathNode) (l : list PathNode) : insertByF n l ≡ₚ n :: l.
Proof.
  induction l as [|m l IH]; [done|]. cbn. case_bool_decide; [done|].
  by rewrite IH, Permutation_swap.
Qed.

Lemma sortByF_perm (l : list PathNode) : sortByF l ≡ₚ l.
Proof. induction l as [|n l IH]; [done|]. cbn. by rewrite insertByF_perm, IH. Qed.

Lemma insertByF_sorted (n : PathNode) (l : list PathNode) :
  StronglySorted (λ a b, fCost a ≤ fCost b) l →
  StronglySorted (λ a b, fCost a ≤ fCost b) (insertByF n l).
Proof.
  induction 1 as [|m l Hl IH Hm]; cbn.
  - repeat constructor.
  - case_bool_decide as Hle.
    + constructor; [by constructor|]. constructor; [done|].
      eapply Forall_impl; [exact Hm|]. cbn. intros; lia.
    + constructor; [done|]. rewrite insertByF_perm. constructor; [lia|done].
Qed.

Lemma sortByF_sorted (l : list PathNode) :
  StronglySorted (λ a b, fCost a ≤ fCost b) (sortByF l).
Proof. induction l as [|n l IH]; cbn; [constructor|by apply insertByF_sorted]. Qed.

(** A node whose [fCost] is below that of every other open node is the one
    the round takes. *)
Lemma sortByF_least (n : PathNode) (openSet rest : list PathNode) :
  openSet ≡ₚ n :: rest →
  Forall (λ m, fCost n < fCost m) rest →
  ∃ rest', sortByF openSet = n :: rest' ∧ rest' ≡ₚ rest.
Proof.
  intros Hperm Hrest.
  pose proof (sortByF_sorted openSet) as Hsorted.
  assert (sortByF openSet ≡ₚ n :: rest) as Hsort
    by (etrans; [apply sortByF_perm|exact Hperm]).
  destruct (sortByF openSet) as [|hd tl].
  { by apply Permutation_nil_cons in Hsort. }
  apply StronglySorted_inv in Hsorted as [_ Htl].
  assert (hd = n) as ->.
  { assert (hd ∈ n :: rest) as Hhd by (rewrite <- Hsort; left).
    apply elem_of_cons in Hhd as [->|Hhd]; [done|].
    assert (n ∈ hd :: tl) as Hn by (rewrite Hsort; left).
    apply elem_of_cons in Hn as [->|Hn]; [done|].
    rewrite Forall_forall in Hrest, Htl.
    specialize (Hrest _ Hhd). specialize (Htl _ Hn). lia. }
  exists tl. split; [done|]. by apply Permutation_cons_inv in Hsort.
Qed.

(** *** Steps toward the goal *)

Lemma toward_closer (goal p : Position.t) :
  p ≠ goal →
  calculateDistance (toward goal p) goal + 1 ≤ calculateDistance p goal.
Proof.
  rewrite position_eq. unfold calculateDistance, toward. cbn. intros Hne.
  destruct (Z.sgn_spec (Position.x goal - Position.x p)) as [[? ->]|[[? ->]|[? ->]]];
  destruct (Z.sgn_spec (Position.y goal - Position.y p)) as [[? ->]|[[? ->]|[? ->]]]; lia.
Qed.

Lemma neighbour_farther (goal p d : Position.t) :
  d ∈ directions →
  offset p d ≠ toward goal p →
  calculateDistance (toward goal p) goal + 1 ≤ calculateDistance (offset p d) goal.
Proof.
  intros Hd. rewrite position_eq. unfold calculateDistance, toward, offset. cbn.
  unfold directions in Hd.
  repeat (apply elem_of_cons in Hd as [->|Hd]); [..|by apply elem_of_nil in Hd]; cbn;
    intros Hne;
    destruct (Z.sgn_spec (Position.x goal - Position.x p)) as [[? Hx]|[[? Hx]|[? Hx]]];
    destruct (Z.sgn_spec (Position.y goal - Position.y p)) as [[? Hy]|[[? Hy]|[? Hy]]];
    rewrite Hx, Hy in *; lia.
Qed.

Lemma toward_offset (goal p : Position.t) :
  p ≠ goal → ∃ d, d ∈ directions ∧ toward goal p = offset p d.
Proof.
  rewrite position_eq. intros Hne.
  exists (Position.mk (Z.sgn (Position.x goal - Position.x p))
                      (Z.sgn (Position.y goal - Position.y p))).
  split; [|done]. unfold directions.
  destruct (Z.sgn_spec (Position.x goal - Position.x p)) as [[? ->]|[[? ->]|[? ->]]];
  destruct (Z.sgn_spec (Position.y goal - Position.y p)) as [[? ->]|[[? ->]|[? ->]]];
    try lia; rewrite !elem_of_cons; auto 10.
Qed.

Lemma toward_inside (battlefield : Battlefield.t) (goal p : Position.t) :
  inside battlefield p → inside battlefield goal → inside battlefield (toward goal p).
Proof.
  unfold inside, toward. cbn. intros Hp Hg.
  destruct (Z.sgn_spec (Position.x goal - Position.x p)) as [[? ->]|[[? ->]|[? ->]]];
  destruct (Z.sgn_spec (Position.y goal - Position.y p)) as [[? ->]|[[? ->]|[? ->]]]; lia.
Qed.

Lemma chebyshev_toward (goal p : Position.t) :
  p ≠ goal → chebyshev (toward goal p) goal = chebyshev p goal - 1.
Proof.
  rewrite position_eq. unfold chebyshev, toward. cbn. intros Hne.
  destruct (Z.sgn_spec (Position.x goal - Position.x p)) as [[? ->]|[[? ->]|[? ->]]];
  destruct (Z.sgn_spec (Position.y goal - Position.y p)) as [[? ->]|[[? ->]|[? ->]]]; lia.
Qed.

Lemma chebyshev_zero (goal p : Position.t) : chebyshev p goal = 0 ↔ p = goal.
Proof. rewrite position_eq. unfold chebyshev. lia. Qed.

Lemma chebyshev_nonneg (a b : Position.t) : 0 ≤ chebyshev a b.
Proof. unfold chebyshev. lia. Qed.

(** *** The search on an open board *)

Section OpenBoard.

Variable st : CombatState.t.
Variable excludeCharacter : option string.
Variables start goal : Position.t.

Hypothesis Hopen : openBoard st excludeCharacter.
Hypothesis Hstart : inside (CombatState.battlefield st) start.
Hypothesis Hgoal : inside (CombatState.battlefield st) goal.

Local Abbreviation steps := (Z.to_nat (chebyshev start goal)).
Local Abbreviation h p := (calculateDistance p goal).

Lemma not_blocked (p : Position.t) : isPositionBlocked p st excludeCharacter = false.
Proof.
  destruct Hopen as [Hobs Hchars]. unfold isPositionBlocked. rewrite Hobs. cbn.
  induction Hchars as [|c l Hc _ IH]; [done|]. cbn. rewrite IH, orb_false_r.
  destruct Hc as [Hex|Hdead].
  - by rewrite (bool_decide_true _ Hex).
  - rewrite (bool_decide_false (0 < _)) by lia. by rewrite andb_false_r.
Qed.

Lemma position_node (t : nat) : position (node start goal t) = cell start goal t.
Proof. by destruct t. Qed.

Lemma gCost_node (t : nat) : gCost (node start goal t) = Z.of_nat t.
Proof. by destruct t. Qed.

Lemma fCost_node (t : nat) :
  fCost (node start goal t) = Z.of_nat t + h (cell start goal t).
Proof. by destruct t. Qed.

Lemma cell_inside (t : nat) : inside (CombatState.battlefield st) (cell start goal t).
Proof. induction t; cbn; [done|by apply toward_inside]. Qed.

Lemma cell_chebyshev (t : nat) :
  (t ≤ steps)%nat →
  chebyshev (cell start goal t) goal = chebyshev start goal - Z.of_nat t.
Proof.
  induction t as [|t IH]; intros Ht; cbn [cell]; [lia|].
  specialize (IH ltac:(lia)).
  rewrite chebyshev_toward; [lia|].
  intros Heq. apply chebyshev_zero in Heq. lia.
Qed.

Lemma cell_before (t : nat) : (t < steps)%nat → cell start goal t ≠ goal.
Proof.
  intros Ht Heq. apply chebyshev_zero in Heq.
  rewrite cell_chebyshev in Heq by lia. lia.
Qed.

Lemma cell_last : cell start goal steps = goal.
Proof.
  apply chebyshev_zero. rewrite cell_chebyshev by lia.
  pose proof (chebyshev_nonneg start goal). lia.
Qed.

Lemma pathTo_node (t : nat) :
  pathTo (node start goal t) = cell start goal <$> seq 0 (S t).
Proof.
  induction t as [|t IH]; [done|].
  rewrite (seq_S (S t)), fmap_app, <- IH. reflexivity.
Qed.

Lemma lagging_next (t : nat) (n : PathNode) :
  (t < steps)%nat → lagging start goal t n → lagging start goal (S t) n.
Proof.
  intros Ht (Hf & Hg & Hh). pose proof (toward_closer goal _ (cell_before t Ht)).
  unfold lagging. cbn [cell]. lia.
Qed.

(** One neighbour of the node taken in round [t].  Either the open set is
    left as it is, or the neighbour is opened: as the node of round [t+1] if
    it is the cell nearest to the goal, as a lagging node otherwise. *)
Lemma visit_step (t : nat) (seen : bool) (openSet rest : list PathNode)
    (closedSet : gset (Z * Z)) (d : Position.t) :
  (t < steps)%nat →
  d ∈ directions →
  (∀ q, key q ∈ closedSet → h (cell start goal (S t)) + 1 ≤ h q) →
  openSet ≡ₚ (if seen then [node start goal (S t)] else []) ++ rest →
  Forall (lagging start goal (S t)) rest →
  ∃ (seen' : bool) (rest' : list PathNode),
    visit goal st excludeCharacter closedSet (node start goal t) openSet
      (offset (cell start goal t) d)
    ≡ₚ (if seen' then [node start goal (S t)] else []) ++ rest'
    ∧ Forall (lagging start goal (S t)) rest'
    ∧ (seen = true ∨ offset (cell start goal t) d = cell start goal (S t) → seen' = true).
Proof.
  intros Ht Hd Hclosed Hperm Hrest.
  set (p := offset (cell start goal t) d).
  unfold visit. case_bool_decide as Hin.
  { exists seen, rest. split_and!; [done..|]. intros [->|Hp]; [done|].
    specialize (Hclosed _ Hin). rewrite Hp in Hclosed. lia. }
  rewrite not_blocked. cbn [andb].
  destruct (list_find _ openSet) as [[i existing]|] eqn:Hfind.
  - apply list_find_Some in Hfind as (Hlook & Hsame & _).
    apply sameCell_true in Hsame.
    assert (existing ∈ (if seen then [node start goal (S t)] else []) ++ rest) as Hex
      by (rewrite <- Hperm; by eapply list_elem_of_lookup_2).
    assert (gCost existing ≤ gCost (node start goal t) + 1
            ∧ (p = cell start goal (S t) → seen = true)) as [Hg Hseen].
    { rewrite gCost_node. apply elem_of_app in Hex as [Hex|Hex].
      - destruct seen; [|by apply elem_of_nil in Hex].
        apply list_elem_of_singleton in Hex as ->. rewrite gCost_node. split; [lia|done].
      - rewrite Forall_forall in Hrest. destruct (Hrest _ Hex) as (_ & Hg & Hh).
        split; [lia|]. intros Hp. rewrite Hsame, Hp in Hh. lia. }
    rewrite bool_decide_true by done.
    exists seen, rest. split_and!; [done..|]. intros [->|Hp]; [done|by apply Hseen].
  - apply list_find_None in Hfind.
    destruct (decide (p = cell start goal (S t))) as [Hp|Hp].
    + assert (seen = false) as ->.
      { destruct seen; [|done]. exfalso.
        rewrite Hperm in Hfind. apply Forall_cons in Hfind as [Hfind _].
        apply Hfind, sameCell_true. by rewrite position_node. }
      exists true, rest. split_and!; [|done..].
      rewrite Hperm. cbn [app]. rewrite <- Permutation_cons_append.
      apply Permutation_cons; [|done].
      rewrite gCost_node, Hp. cbn [node]. by rewrite Nat2Z.inj_succ, Z.add_1_r.
    + exists seen, (rest ++ [mkNode p (gCost (node start goal t) + 1) (h p)
                              (gCost (node start goal t) + 1 + h p)
                              (Some (node start goal t))]).
      split_and!.
      * by rewrite Hperm, app_assoc.
      * apply Forall_app. split; [done|]. apply Forall_singleton.
        pose proof (neighbour_farther goal (cell start goal t) d Hd Hp) as Hfar.
        unfold lagging. cbn [fCost gCost position cell]. rewrite gCost_node.
        subst p. lia.
      * intros [->|?]; done.
Qed.

(** All neighbours of the node taken in round [t]. *)
Lemma visit_all (t : nat) (closedSet : gset (Z * Z)) (ds : list Position.t) :
  (t < steps)%nat →
  Forall (λ d, d ∈ directions) ds →
  (∀ q, key q ∈ closedSet → h (cell start goal (S t)) + 1 ≤ h q) →
  ∀ (seen : bool) (openSet rest : list PathNode),
    openSet ≡ₚ (if seen then [node start goal (S t)] else []) ++ rest →
    Forall (lagging start goal (S t)) rest →
    ∃ (seen' : bool) (rest' : list PathNode),
      fold_left (visit goal st excludeCharacter closedSet (node start goal t))
        (offset (cell start goal t) <$> ds) openSet
      ≡ₚ (if seen' then [node start goal (S t)] else []) ++ rest'
      ∧ Forall (lagging start goal (S t)) rest'
      ∧ (seen = true ∨ cell start goal (S t) ∈ offset (cell start goal t) <$> ds
         → seen' = true).
Proof.
  intros Ht Hds Hclosed. induction Hds as [|d ds Hd _ IH]; intros seen openSet rest Hperm Hrest.
  - exists seen, rest. split_and!; [done..|]. intros [->|Hin]; [done|].
    by apply elem_of_nil in Hin.
  - cbn [fmap list_fmap fold_left].
    destruct (visit_step t seen openSet rest closedSet d Ht Hd Hclosed Hperm Hrest)
      as (seen1 & rest1 & Hperm1 & Hrest1 & Hseen1).
    destruct (IH seen1 _ rest1 Hperm1 Hrest1) as (seen2 & rest2 & Hperm2 & Hrest2 & Hseen2).
    exists seen2, rest2. split_and!; [done..|].
    intros [->|Hin]; [by apply Hseen2; left; apply Hseen1; left|].
    apply elem_of_cons in Hin as [Hin|Hin].
    + apply Hseen2. left. apply Hseen1. by right.
    + apply Hseen2. by right.
Qed.

Lemma getNeighbors_offsets (p : Position.t) :
  ∃ ds, Forall (λ d, d ∈ directions) ds
        ∧ getNeighbors p (CombatState.battlefield st) = offset p <$> ds
        ∧ ∀ d, d ∈ directions → inside (CombatState.battlefield st) (offset p d) →
               offset p d ∈ offset p <$> ds.
Proof.
  unfold getNeighbors.
  exists (filter (λ d, inBounds (CombatState.battlefield st) (offset p d) = true) directions).
  split_and!.
  - apply Forall_forall. by intros d [_ Hd]%list_elem_of_filter.
  - generalize directions. intros l. induction l as [|d l IH]; [done|].
    cbn [fmap list_fmap]. rewrite !filter_cons. case_decide; cbn; by rewrite IH.
  - intros d Hd (Hx & Hy). apply list_elem_of_fmap_2, list_elem_of_filter.
    split; [|done]. unfold inBounds.
    rewrite !andb_true_iff, !bool_decide_eq_true. lia.
Qed.

(** A round before the last takes the node of the round and leaves the
    frontier of the next round. *)
Lemma one_round (t : nat) (openSet : list PathNode) (closedSet : gset (Z * Z)) :
  (t < steps)%nat →
  frontier start goal t openSet closedSet →
  ∃ rest,
    sortByF openSet = node start goal t :: rest
    ∧ frontier start goal (S t)
        (fold_left
           (visit goal st excludeCharacter ({[ key (cell start goal t) ]} ∪ closedSet)
              (node start goal t))
           (getNeighbors (cell start goal t) (CombatState.battlefield st)) rest)
        ({[ key (cell start goal t) ]} ∪ closedSet).
Proof.
  intros Ht [(rest & Hperm & Hrest) Hclosed].
  pose proof (toward_closer goal _ (cell_before t Ht)) as Hcloser.
  destruct (sortByF_least (node start goal t) openSet rest Hperm) as (rest' & Hsort & Hperm').
  { eapply Forall_impl; [exact Hrest|]. intros n (Hf & _). rewrite fCost_node. lia. }
  exists rest'. split; [done|].
  assert (∀ q, key q ∈ {[ key (cell start goal t) ]} ∪ closedSet →
               h (cell start goal (S t)) + 1 ≤ h q) as Hclosed'.
  { intros q [Hq|Hq]%elem_of_union.
    - apply elem_of_singleton in Hq. injection Hq as Hx Hy.
      assert (q = cell start goal t) as -> by (by apply position_eq). done.
    - specialize (Hclosed _ Hq). cbn [cell]. lia. }
  split; [|done].
  destruct (getNeighbors_offsets (cell start goal t)) as (ds & Hds & -> & Hall).
  destruct (visit_all t _ ds Ht Hds Hclosed' false rest' rest') as (seen & rest1 & Hp1 & Hr1 & Hs1).
  { done. }
  { rewrite Hperm'. eapply Forall_impl; [exact Hrest|]. intros n. by apply lagging_next. }
  assert (seen = true) as ->.
  { apply Hs1. right. destruct (toward_offset goal _ (cell_before t Ht)) as (d & Hd & Heq).
    cbn [cell]. rewrite Heq. apply Hall; [done|]. rewrite <- Heq.
    apply toward_inside; [apply cell_inside|done]. }
  by exists rest1.
Qed.

(** From the frontier of round [t], the loop reaches the goal in the rounds
    that are left and returns the cells stepped through. *)
Lemma search_frontier (n t fuel : nat) (openSet : list PathNode) (closedSet : gset (Z * Z)) :
  (t + n = steps)%nat →
  (n < fuel)%nat →
  frontier start goal t openSet closedSet →
  search fuel goal st excludeCharacter openSet closedSet
  = Found (pathTo (node start goal steps)).
Proof.
  revert t fuel openSet closedSet.
  induction n as [|n IH]; intros t fuel openSet closedSet Hsteps Hfuel Hfrontier;
    (destruct fuel as [|fuel]; [lia|]); cbn [search].
  - assert (t = steps) as -> by lia.
    destruct Hfrontier as [(rest & Hperm & Hrest) _].
    destruct (sortByF_least (node start goal steps) openSet rest Hperm) as (rest' & -> & _).
    { eapply Forall_impl; [exact Hrest|]. intros m (Hf & _). rewrite fCost_node. lia. }
    rewrite position_node, cell_last.
    by rewrite (proj2 (sameCell_true goal goal)).
  - destruct (one_round t openSet closedSet ltac:(lia) Hfrontier) as (rest & -> & Hnext).
    rewrite position_node.
    rewrite (proj2 (sameCell_false _ _) (cell_before t ltac:(lia))).
    apply (IH (S t)); [lia|lia|done].
Qed.

Lemma findPath_open :
  findPath start goal st excludeCharacter = Found (cell start goal <$> seq 0 (S steps)).
Proof.
  unfold findPath, findPathWithin. rewrite <- pathTo_node.
  apply (search_frontier steps 0).
  - lia.
  - destruct Hstart as [? ?], Hgoal as [? ?]. unfold chebyshev. nia.
  - split; [|set_solver]. exists []. split; [done|constructor].
Qed.

End OpenBoard.

(** C7, as the claim states it, fails: on the open 2 by 2 board the path
    from (0,0) to (1,1) is the single diagonal step, while the Manhattan
    distance between the two cells is 2. *)
Lemma diagonal_is_one_step :
  let a := Position.mk 0 0 in
  let b := Position.mk 1 1 in
  let st := Fixtures.board 2 2 [] in
  findPath a b st None = Found [a; b]
  ∧ calculateDistance a b = 2
  ∧ Z.of_nat (length [a; b]) - 1 ≠ calculateDistance a b.
Proof. vm_compute. repeat split. discriminate. Qed.

(** C7, amended.  On a battlefield without obstacles on which no character
    other than the excluded one is alive, [findPath] between two cells of
    the battlefield returns a path from the first to the second whose number
    of steps is the larger of the two coordinate differences, a diagonal
    step counting as one.  That is the Manhattan distance when the two cells
    share a row or a column. *)
Theorem open_board_path (st : CombatState.t) (excludeCharacter : option string)
    (a b : Position.t) :
  openBoard st excludeCharacter →
  inside (CombatState.battlefield st) a →
  inside (CombatState.battlefield st) b →
  ∃ path,
    findPath a b st excludeCharacter = Found path
    ∧ head path = Some a ∧ last path = Some b
    ∧ Z.of_nat (length path) - 1 = chebyshev a b
    ∧ (Position.x a = Position.x b ∨ Position.y a = Position.y b →
       Z.of_nat (length path) - 1 = calculateDistance a b).
Proof.
  intros Hopen Ha Hb. eexists. split; [by apply findPath_open|].
  pose proof (chebyshev_nonneg a b) as Hc.
  split_and!.
  - done.
  - rewrite seq_S, fmap_app, list_fmap_singleton, last_snoc. f_equal. by apply cell_last.
  - rewrite length_fmap, length_seq. lia.
  - rewrite length_fmap, length_seq. unfold chebyshev, calculateDistance in *. lia.
Qed.

Lemma open_board_path_witness :
  let st := Fixtures.board 8 6 [Fixtures.fighter] in
  let a := Position.mk 0 0 in
  let b := Position.mk 5 2 in
  (openBoard st (Some "fighter") ∧ inside (CombatState.battlefield st) a
   ∧ inside (CombatState.battlefield st) b)
  ∧ ∃ path,
      findPath a b st (Some "fighter") = Found path
      ∧ head path = Some a ∧ last path = Some b
      ∧ Z.of_nat (length path) - 1 = chebyshev a b
      ∧ (Position.x a = Position.x b ∨ Position.y a = Position.y b →
         Z.of_nat (length path) - 1 = calculateDistance a b).
Proof.
  cbn zeta.
  assert (openBoard (Fixtures.board 8 6 [Fixtures.fighter]) (Some "fighter")) as Hopen.
  { split; [reflexivity|]. repeat constructor. }
  assert (inside (CombatState.battlefield (Fixtures.board 8 6 [Fixtures.fighter]))
            (Position.mk 0 0)) as Ha by (unfold inside; cbn; lia).
  assert (inside (CombatState.battlefield (Fixtures.board 8 6 [Fixtures.fighter]))
            (Position.mk 5 2)) as Hb by (unfold inside; cbn; lia).
  split; [done|].
  exact (open_board_path _ _ _ _ Hopen Ha Hb).
Defined.

End PathFacts.

(** * Part III: further properties of the modelled code *)

(** ** The seeded generator, continued *)

Module RngMore.
Import Rng RngVocabulary.

Lemma nextInt_range (min max : Z) (g : SeededRNG) :
  inPeriod g → min ≤ max →
  min ≤ (nextInt min max g).1 ≤ max ∧ inPeriod (nextInt min max g).2.
Proof.
  intros Hs Hm. pose proof (RngFacts.next_in_unit_interval g Hs) as (H0 & H1 & Hs').
  unfold nextInt. destruct (next g) as [[a b] g']. cbn [fst snd] in *.
  split; [|done].
  unfold Qle, Qlt in H0, H1. cbn in H0, H1.
  unfold Qfloor, Qmult, inject_Z. cbn [Qnum Qden]. rewrite Pos.mul_1_r.
  assert (0 ≤ a * (max - min + 1) / Z.pos b) by (apply Z.div_pos; nia).
  assert (a * (max - min + 1) / Z.pos b < max - min + 1)
    by (apply Z.div_lt_upper_bound; nia).
  lia.
Qed.



Lemma rollDiceLoop_range (count : nat) (sides total : Z) (g : SeededRNG) :
  inPeriod g → 1 ≤ sides →
  total + Z.of_nat count ≤ (rollDiceLoop count sides total g).1
                         ≤ total + Z.of_nat count * sides
  ∧ inPeriod (rollDiceLoop count sides total g).2.
Proof.
  revert total g. induction count as [|count IH]; intros total g Hg Hs.
  - cbn. split; [lia|done].
  - cbn [rollDiceLoop].
    pose proof (nextInt_range 1 sides g Hg Hs) as [Hr Hg'].
    fold (rollDie sides g) in Hr, Hg'. destruct (rollDie sides g) as [r g'].
    cbn [fst snd] in *. destruct (IH (total + r) g' Hg' Hs) as [Hb Hp].
    split; [nia|done].
Qed.

Lemma rollDice_range (count sides modifier : Z) (g : SeededRNG) :
  inPeriod g → 0 ≤ count → 1 ≤ sides →
  modifier + count ≤ (rollDice count sides modifier g).1 ≤ modifier + count * sides
  ∧ inPeriod (rollDice count sides modifier g).2.
Proof.
  intros Hg Hc Hs. unfold rollDice.
  destruct (rollDiceLoop_range (Z.to_nat count) sides modifier g Hg Hs) as [Hb Hp].
  rewrite Z2Nat.id in Hb by done. done.
Qed.



(** *** Dice expressions *)

Lemma takeDigits_split (s ds r : list ascii) : takeDigits s = (ds, r) → s = ds ++ r.
Proof.
  revert ds r. induction s as [|c s IH]; intros ds r; cbn.
  - by intros [= <- <-].
  - destruct (isDigit c); [|by intros [= <- <-]].
    destruct (takeDigits s) as [ds' r']. intros [= <- <-]. cbn. f_equal. by apply IH.
Qed.

Lemma takeDigits_head (s : list ascii) (c : ascii) (ds r : list ascii) :
  takeDigits s = (c :: ds, r) → ∃ s', s = c :: s' ∧ isDigit c = true.
Proof.
  destruct s as [|c' s]; cbn; [done|].
  destruct (isDigit c') eqn:Hc; [|done].
  destruct (takeDigits s) as [ds' r']. intros [= -> _ _]. eauto.
Qed.

Lemma dieBeforeDigit_app (pre : list ascii) (c : ascii) (post : list ascii) :
  isDigit c = true → dieBeforeDigit (pre ++ "d"%char :: c :: post) = true.
Proof.
  intros Hc. induction pre as [|a pre IH].
  - cbn. by rewrite Hc.
  - change ((a :: pre) ++ "d"%char :: c :: post)
      with (a :: (pre ++ "d"%char :: c :: post)).
    cbn [dieBeforeDigit]. rewrite IH.
    destruct (pre ++ _); [done|]. by rewrite orb_true_r.
Qed.

(** A match at the head of the text needs a [d] with a digit after it. *)
Lemma matchHere_needs_die (s : list ascii) (m : DiceMatch) :
  matchHere s = Some m → dieBeforeDigit s = true.
Proof.
  unfold matchHere. destruct (takeDigits s) as [ds r] eqn:Hs.
  apply takeDigits_split in Hs as ->.
  destruct r as [|c r1]; [done|].
  destruct (decide (c = "d"%char)) as [->|Hc].
  - destruct (takeDigits r1) as [[|c2 ss] r2] eqn:Hr1; [done|].
    apply takeDigits_head in Hr1 as (s' & -> & Hc2). intros _.
    by apply dieBeforeDigit_app.
  - destruct c as [[] [] [] [] [] [] [] []]; done.
Qed.

Lemma matchDice_needs_die (s : list ascii) (m : DiceMatch) :
  matchDice s = Some m → dieBeforeDigit s = true.
Proof.
  induction s as [|c s IH]; cbn [matchDice].
  - destruct (matchHere []) eqn:E; [|done]. intros _. by apply matchHere_needs_die in E.
  - destruct (matchHere (c :: s)) eqn:E.
    + intros _. by apply matchHere_needs_die in E.
    + intros Hm. apply IH in Hm. cbn [dieBeforeDigit].
      destruct s; [done|]. by rewrite Hm, orb_true_r.
Qed.

(** A text in which no [d] is directly followed by a digit is no dice
    expression: [parseDiceString] answers 0 and the generator is not
    touched. *)
Theorem parse_without_die (diceString : string) (g : SeededRNG) :
  dieBeforeDigit (String.list_ascii_of_string diceString) = false →
  parseDiceString diceString g = (0, g).
Proof.
  intros Hno. unfold parseDiceString.
  destruct (matchDice _) as [m|] eqn:E; [|done].
  apply matchDice_needs_die in E. congruence.
Qed.

Lemma parse_without_die_witness :
  dieBeforeDigit (String.list_ascii_of_string "2 swords and a shield") = false
  ∧ parseDiceString "2 swords and a shield" (new (Some (SeedNumber 42)) 0)
    = (0, new (Some (SeedNumber 42)) 0).
Proof. split; [reflexivity|]. apply parse_without_die. reflexivity. Defined.

(** *** [choice] and [shuffle] *)








(** *** [hashString] *)

Lemma toInt32_range (z : Z) : - 2 ^ 31 ≤ toInt32 z < 2 ^ 31.
Proof. unfold toInt32. pose proof (Z.mod_pos_bound (z + 2 ^ 31) (2 ^ 32)). lia. Qed.

(** The state a string seed installs lies in [0 .. 2^31]: the hash is a
    32-bit integer and [Math.abs] folds its negative half over. *)
Theorem hashString_range (str : string) : 0 ≤ hashString str ≤ 2 ^ 31.
Proof.
  unfold hashString, hashCodes.
  assert (∀ codes h, - 2 ^ 31 ≤ h < 2 ^ 31 →
             - 2 ^ 31 ≤ fold_left hashStep codes h < 2 ^ 31) as Hfold.
  { induction codes as [|c codes IH]; intros h Hh; [done|]. cbn [fold_left].
    apply IH. unfold hashStep. cbn zeta. rewrite Z.land_diag. apply toInt32_range. }
  specialize (Hfold (charCodes str) 0 ltac:(lia)). lia.
Qed.

End RngMore.

(** ** The combat log and the attack roll, continued *)

Module CombatLogMore.
Import Runtime CombatLog RngVocabulary.

(** However many entries are added to an empty log, the log holds at most
    100 of them, at least 50 once that many were added, and they are the
    most recent ones in the order they were added. *)
Theorem log_is_a_bounded_suffix (entries : list CombatLogEntry.Body) (amb : Ambient) :
  let log := (addAll entries ([], amb)).1 in
  (length log ≤ 100)%nat
  ∧ (Nat.min (length entries) 50 ≤ length log)%nat
  ∧ CombatLogEntry.body <$> log = drop (length entries - length log) entries.
Proof.
  cbn zeta.
  assert (∃ k, (k ≤ length entries)%nat
               ∧ (length (addAll entries ([], amb)).1 ≤ 100)%nat
               ∧ (Nat.min (length entries) 50 ≤ length (addAll entries ([], amb)).1)%nat
               ∧ CombatLogEntry.body <$> (addAll entries ([], amb)).1 = drop k entries)
    as (k & Hk & Hlen & Hmin & Hbody).
  { induction entries as [|entry entries IH] using rev_ind.
    - exists 0%nat. cbn. split_and!; [lia..|done].
    - destruct IH as (k & Hk & Hlen & Hmin & Hbody).
      rewrite CombatLogFacts.addAll_snoc.
      destruct (addAll entries ([], amb)) as [log amb']. cbn [fst] in *.
      destruct (CombatLogFacts.addEntry_log entry log amb') as (e & He & ->).
      assert (length log = length entries - k)%nat as Hlog
        by (by rewrite <- (length_fmap CombatLogEntry.body), Hbody, length_drop).
      rewrite !length_app. cbn [length].
      case_bool_decide as Hcut.
      + exists (k + (length log + 1 - 50))%nat.
        rewrite length_drop, fmap_drop, fmap_app, Hbody, !length_app. cbn. rewrite He.
        split_and!; [lia..|].
        rewrite <- drop_drop. f_equal. rewrite drop_app_le by lia. done.
      + exists k. rewrite !length_app, fmap_app, Hbody. cbn. rewrite He.
        split_and!; [lia..|]. by rewrite drop_app_le by lia. }
  split_and!; [done..|]. rewrite Hbody. f_equal.
  rewrite <- (length_fmap CombatLogEntry.body), Hbody, length_drop. lia.
Qed.

(** *** The attack roll without a weapon *)

Lemma default_dice (g : Rng.SeededRNG) : Rng.parseDiceString "1d4" g = Rng.rollDice 1 4 0 g.
Proof. reflexivity. Qed.

(** An attack without a weapon, from a generator state of the period: the
    d20 shows 1 to 20 and the total adds the Strength modifier and the
    proficiency bonus.  A miss deals 0 and has used the generator for the d20
    only; a hit deals at least 1, at most [max(1, 4 + modifier)] when
    the d20 is not 20, and at least 2 when it is. *)
Theorem unarmed_attack (attacker target : Character.t) (g : Rng.SeededRNG) :
  inPeriod g →
  let d20 := (Rng.rollDie 20 g).1 in
  let str := Stats.getModifier (StatBlock.strength (Character.stats attacker)) in
  ∃ result g',
    rollAttack attacker target None g = (Returns result, g')
    ∧ inPeriod g'
    ∧ 1 ≤ d20 ≤ 20
    ∧ attackRoll result = d20 + str + Stats.getProficiencyBonus (Character.level attacker)
    ∧ (hit result = false → damage result = 0 ∧ g' = (Rng.rollDie 20 g).2)
    ∧ (hit result = true →
       1 ≤ damage result
       ∧ (d20 ≠ 20 → damage result ≤ Z.max 1 (4 + str))
       ∧ (d20 = 20 → 2 ≤ damage result)).
Proof.
  intros Hg. cbn zeta. unfold rollAttack, rollAttackWith. cbn [weaponOf truthy mbind option_bind
    includesTrait isRanged damageDiceOf fmap option_fmap option_map default].
  destruct (RngMore.nextInt_range 1 20 g Hg ltac:(lia)) as [Hd Hg1].
  fold (Rng.rollDie 20 g) in Hd, Hg1. destruct (Rng.rollDie 20 g) as [d20 g1].
  cbn [fst snd] in *. rewrite !default_dice.
  destruct (RngMore.rollDice_range 1 4 0 g1 Hg1 ltac:(lia) ltac:(lia)) as [Hr Hg2].
  destruct (Rng.rollDice 1 4 0 g1) as [rolled g2]. cbn [fst snd] in *.
  rewrite ?default_dice.
  destruct (RngMore.rollDice_range 1 4 0 g2 Hg2 ltac:(lia) ltac:(lia)) as [Hc Hg3].
  destruct (Rng.rollDice 1 4 0 g2) as [crit g3]. cbn [fst snd] in *.
  unfold Stats.getProficiencyBonus.
  case_bool_decide as Hhit; [case_bool_decide as Hcrit|];
    eexists _, _; (split; [reflexivity|]); cbn [hit attackRoll damage];
    split_and!;
    first [ done | lia
          | intros _; split_and!; first [ done | lia | intros; lia ] ].
Qed.

Lemma unarmed_attack_witness :
  let g := MoreFixtures.generator 57500 in
  let d20 := (Rng.rollDie 20 g).1 in
  let str := Stats.getModifier (StatBlock.strength (Character.stats Fixtures.fighter)) in
  inPeriod g
  ∧ ∃ result g',
      rollAttack Fixtures.fighter Fixtures.orc None g = (Returns result, g')
      ∧ inPeriod g'
      ∧ 1 ≤ d20 ≤ 20
      ∧ attackRoll result
        = d20 + str + Stats.getProficiencyBonus (Character.level Fixtures.fighter)
      ∧ (hit result = false → damage result = 0 ∧ g' = (Rng.rollDie 20 g).2)
      ∧ (hit result = true →
         1 ≤ damage result
         ∧ (d20 ≠ 20 → damage result ≤ Z.max 1 (4 + str))
         ∧ (d20 = 20 → 2 ≤ damage result)).
Proof.
  cbn zeta.
  assert (inPeriod (MoreFixtures.generator 57500)) as Hg by (unfold inPeriod; cbn; lia).
  split; [exact Hg|]. exact (unarmed_attack Fixtures.fighter Fixtures.orc _ Hg).
Defined.

(** *** A finesse weapon *)

(** With a weapon whose trait list has finesse, the attack roll adds the
    larger of the Strength and Dexterity modifiers, but the damage of a hit
    adds the Strength modifier (the Dexterity modifier only if the weapon is
    ranged), whichever of the two was used to hit. *)
Theorem finesse_attack (attacker target : Character.t) (w : Weapons.WeaponData)
    (names : list string) (g : Rng.SeededRNG) :
  Weapons.properties w = Weapons.Traits names →
  "finesse" ∈ names →
  let d20 := (Rng.rollDie 20 g).1 in
  let str := Stats.getModifier (StatBlock.strength (Character.stats attacker)) in
  let dex := Stats.getModifier (StatBlock.dexterity (Character.stats attacker)) in
  let rolled := (Rng.parseDiceString (damageDiceOf (Some w)) (Rng.rollDie 20 g).2).1 in
  ∃ result g',
    rollAttackWith (Some w) attacker target g = (Returns result, g')
    ∧ attackRoll result
      = d20 + Z.max str dex + Stats.getProficiencyBonus (Character.level attacker)
    ∧ (hit result = true → d20 ≠ 20 →
       damage result
       = Z.max 1 (rolled + if bool_decide (Weapons.category w = Weapons.ranged)
                           then dex else str)).
Proof.
  intros Hprops Hfinesse. cbn zeta. unfold rollAttackWith. cbn [includesTrait isRanged].
  rewrite Hprops, bool_decide_true by done.
  destruct (Rng.rollDie 20 g) as [d20 g1]. cbn [fst snd].
  unfold Stats.getProficiencyBonus.
  case_bool_decide as Hhit.
  - destruct (Rng.parseDiceString _ g1) as [rolled g2]. cbn [fst].
    case_bool_decide as Hcrit.
    + destruct (Rng.parseDiceString _ g2) as [crit g3].
      eexists _, _. split; [reflexivity|]. cbn. split; [lia|]. done.
    + eexists _, _. split; [reflexivity|]. cbn. split; [lia|]. done.
  - eexists _, _. split; [reflexivity|]. cbn. split; [lia|]. done.
Qed.

Lemma finesse_attack_witness :
  let w := MoreFixtures.declaredDagger in
  let g := MoreFixtures.generator 63887 in
  let d20 := (Rng.rollDie 20 g).1 in
  let str := Stats.getModifier (StatBlock.strength (Character.stats Fixtures.goblin)) in
  let dex := Stats.getModifier (StatBlock.dexterity (Character.stats Fixtures.goblin)) in
  let rolled := (Rng.parseDiceString (damageDiceOf (Some w)) (Rng.rollDie 20 g).2).1 in
  (Weapons.properties w = Weapons.Traits ["light"; "finesse"; "thrown"]
   ∧ "finesse" ∈ ["light"; "finesse"; "thrown"])
  ∧ ∃ result g',
      rollAttackWith (Some w) Fixtures.goblin Fixtures.weakling g = (Returns result, g')
      ∧ attackRoll result
        = d20 + Z.max str dex + Stats.getProficiencyBonus (Character.level Fixtures.goblin)
      ∧ (hit result = true → d20 ≠ 20 →
         damage result
         = Z.max 1 (rolled + if bool_decide (Weapons.category w = Weapons.ranged)
                             then dex else str)).
Proof.
  cbn zeta.
  assert ("finesse" ∈ ["light"; "finesse"; "thrown"]) as Hin by (right; left).
  split; [by split|].
  exact (finesse_attack Fixtures.goblin Fixtures.weakling MoreFixtures.declaredDagger
           _ (MoreFixtures.generator 63887) eq_refl Hin).
Defined.

End CombatLogMore.

(** ** Grid search, continued *)

Module PathMore.
Import Pathfinding PathVocabulary PathMoreVocabulary.

(** [calculateDistance] is a metric on cells. *)
Theorem calculateDistance_metric (a b c : Position.t) :
  calculateDistance a b = calculateDistance b a
  ∧ (calculateDistance a b = 0 ↔ a = b)
  ∧ calculateDistance a c ≤ calculateDistance a b + calculateDistance b c.
Proof. rewrite PathFacts.position_eq. unfold calculateDistance. lia. Qed.

Lemma offset_adjacent (p d : Position.t) : d ∈ directions → adjacent p (offset p d).
Proof.
  unfold directions. intros Hd.
  repeat (apply elem_of_cons in Hd as [->|Hd]); [..|by apply elem_of_nil in Hd];
    unfold adjacent, chebyshev, offset; cbn; lia.
Qed.

Lemma adjacent_offset (p q : Position.t) :
  adjacent p q → ∃ d, d ∈ directions ∧ q = offset p d.
Proof.
  unfold adjacent, chebyshev. intros Hadj.
  exists (Position.mk (Position.x q - Position.x p) (Position.y q - Position.y p)).
  split.
  - assert (Position.x q - Position.x p = -1 ∨ Position.x q - Position.x p = 0
            ∨ Position.x q - Position.x p = 1) as Hx by lia.
    assert (Position.y q - Position.y p = -1 ∨ Position.y q - Position.y p = 0
            ∨ Position.y q - Position.y p = 1) as Hy by lia.
    unfold directions.
    destruct Hx as [Hx|[Hx|Hx]]; destruct Hy as [Hy|[Hy|Hy]]; rewrite Hx, Hy;
      try lia; rewrite !elem_of_cons; auto 10.
  - apply PathFacts.position_eq. unfold offset. cbn. lia.
Qed.

Lemma inBounds_inside (battlefield : Battlefield.t) (p : Position.t) :
  inBounds battlefield p = true ↔ inside battlefield p.
Proof.
  unfold inBounds, inside. rewrite !andb_true_iff, !bool_decide_eq_true. lia.
Qed.

Lemma offset_inj (p d1 d2 : Position.t) : offset p d1 = offset p d2 → d1 = d2.
Proof.
  rewrite !PathFacts.position_eq. unfold offset. cbn. lia.
Qed.

Lemma elem_of_getNeighbors (p q : Position.t) (battlefield : Battlefield.t) :
  q ∈ getNeighbors p battlefield ↔ inside battlefield q ∧ adjacent p q.
Proof.
  unfold getNeighbors. rewrite list_elem_of_filter, inBounds_inside.
  rewrite list_elem_of_fmap. split.
  - intros (Hin & d & -> & Hd). split; [done|by apply offset_adjacent].
  - intros (Hin & Hadj). split; [done|].
    destruct (adjacent_offset p q Hadj) as (d & Hd & ->). eauto.
Qed.

(** The neighbours of a cell are the cells of the battlefield a king's move
    away, each listed once: at most eight, and never the cell itself. *)
Theorem getNeighbors_exact (p q : Position.t) (battlefield : Battlefield.t) :
  (q ∈ getNeighbors p battlefield ↔ inside battlefield q ∧ adjacent p q)
  ∧ NoDup (getNeighbors p battlefield)
  ∧ (length (getNeighbors p battlefield) ≤ 8)%nat
  ∧ p ∉ getNeighbors p battlefield.
Proof.
  split_and!.
  - apply elem_of_getNeighbors.
  - unfold getNeighbors. apply NoDup_filter, NoDup_fmap_2_strong.
    + intros d1 d2 _ _. apply offset_inj.
    + unfold directions. apply (bool_decide_unpack _). vm_compute. exact I.
  - unfold getNeighbors. etrans; [apply length_filter|]. by rewrite length_fmap.
  - rewrite elem_of_getNeighbors. unfold adjacent, chebyshev. lia.
Qed.

(** A cell is blocked exactly when an obstacle stands on it or a character
    other than the excluded one stands on it alive. *)
Theorem isPositionBlocked_exact (p : Position.t) (st : CombatState.t)
    (excludeCharacter : option string) :
  isPositionBlocked p st excludeCharacter = true
  ↔ p ∈ Battlefield.obstacles (CombatState.battlefield st)
    ∨ ∃ c, c ∈ CombatState.characters st
           ∧ Some (Character.id c) ≠ excludeCharacter
           ∧ Character.position c = p
           ∧ 0 < Health.current (Character.health c).
Proof.
  unfold isPositionBlocked.
  assert (existsb (λ obs, sameCell obs p) (Battlefield.obstacles (CombatState.battlefield st))
          = true ↔ p ∈ Battlefield.obstacles (CombatState.battlefield st)) as Hobs.
  { rewrite existsb_exists. setoid_rewrite PathFacts.sameCell_true.
    setoid_rewrite <- list_elem_of_In. split.
    - by intros (obs & Hin & ->).
    - intros Hin. by exists p. }
  destruct (existsb (λ obs, sameCell obs p) _) eqn:E.
  - split; [intros _; left; by apply Hobs|done].
  - rewrite existsb_exists. setoid_rewrite <- list_elem_of_In.
    setoid_rewrite andb_true_iff. setoid_rewrite andb_true_iff. setoid_rewrite andb_true_iff.
    setoid_rewrite negb_true_iff. setoid_rewrite bool_decide_eq_false.
    setoid_rewrite bool_decide_eq_true. setoid_rewrite PathFacts.position_eq.
    split.
    + intros (c & Hc & ((Hex & Hx) & Hy) & Hh). right. exists c. by split_and!.
    + intros [Hp|(c & Hc & Hex & [Hx Hy] & Hh)].
      * apply Hobs in Hp. congruence.
      * exists c. by split_and!.
Qed.

Lemma elem_of_span (lo hi v : Z) : v ∈ span lo hi ↔ lo ≤ v ≤ hi.
Proof. unfold span. rewrite elem_of_seqZ. lia. Qed.

(** [getPositionsInRange] lists exactly the cells of the battlefield within
    the given Manhattan distance of the centre, each once. *)
Theorem getPositionsInRange_exact (center : Position.t) (range : Z) (st : CombatState.t)
    (p : Position.t) :
  (p ∈ getPositionsInRange center range st
   ↔ inside (CombatState.battlefield st) p ∧ calculateDistance center p ≤ range)
  ∧ NoDup (getPositionsInRange center range st).
Proof.
  unfold getPositionsInRange. cbn zeta. split.
  - rewrite list_elem_of_bind. setoid_rewrite list_elem_of_bind.
    setoid_rewrite elem_of_span. split.
    + intros (x & (y & Hp & Hy) & Hx). case_bool_decide as Hd; [|by apply elem_of_nil in Hp].
      apply list_elem_of_singleton in Hp as ->. unfold inside. cbn. split; [lia|done].
    + intros ([Hx Hy] & Hd). exists (Position.x p). split.
      * exists (Position.y p). destruct p as [px py]. cbn in *.
        rewrite bool_decide_true by done. split; [by left|].
        unfold calculateDistance in Hd. cbn in Hd. lia.
      * unfold calculateDistance in Hd. lia.
  - assert (∀ (q c : Position.t) (P : Prop) `{Decision P},
              q ∈ (if bool_decide P then [c] else []) → q = c) as Hpick.
    { intros q c P ? Hq. case_bool_decide; [|by apply elem_of_nil in Hq].
      by apply list_elem_of_singleton in Hq. }
    apply NoDup_bind.
    + intros x1 x2 q _ _ (y1 & Hq1 & _)%list_elem_of_bind (y2 & Hq2 & _)%list_elem_of_bind.
      apply Hpick in Hq1, Hq2. congruence.
    + intros x _. apply NoDup_bind.
      * intros y1 y2 q _ _ Hq1 Hq2. apply Hpick in Hq1, Hq2. congruence.
      * intros y _. case_bool_decide; [apply NoDup_singleton|apply NoDup_nil_2].
      * apply NoDup_seqZ.
    + apply NoDup_seqZ.
Qed.

(** *** Whatever [findPath] returns is a walk *)

Section AnyBoard.

Variable st : CombatState.t.
Variable excludeCharacter : option string.
Variables start goal : Position.t.

Lemma pathTo_last (n : PathNode) : last (pathTo n) = Some (position n).
Proof. destruct n as [pos g h f [p|]]; cbn; [apply last_snoc|done]. Qed.

Lemma sound_walk :
  ∀ n, sound start goal st excludeCharacter n →
       Walk start goal st excludeCharacter (pathTo n) ∧ head (pathTo n) = Some start.
Proof.
  fix IH 1. intros [pos g h f [p|]]; cbn.
  - intros (Hp & Hadj & Hstep). destruct (IH p Hp) as [Hw Hh]. split.
    + eapply walk_step; [done|apply pathTo_last|done|done].
    + destruct (pathTo p); [done|]. done.
  - intros ->. split; [constructor|done].
Qed.

Lemma chebyshev_triangle (a b c : Position.t) :
  chebyshev a c ≤ chebyshev a b + chebyshev b c.
Proof. unfold chebyshev. lia. Qed.

Lemma walk_length (path : list Position.t) :
  Walk start goal st excludeCharacter path →
  ∀ p, last path = Some p → chebyshev start p ≤ Z.of_nat (length path) - 1.
Proof.
  induction 1 as [|path p q Hw IH Hlast Hadj Hstep]; intros r Hr.
  - cbn in Hr. injection Hr as <-. unfold chebyshev. cbn. lia.
  - rewrite last_snoc in Hr. injection Hr as <-.
    specialize (IH p Hlast). pose proof (chebyshev_triangle start p q) as Htri.
    unfold adjacent in Hadj. rewrite length_app. cbn. lia.
Qed.

Lemma visit_sound (closedSet : gset (Z * Z)) (cur : PathNode)
    (openSet : list PathNode) (nb : Position.t) :
  sound start goal st excludeCharacter cur →
  nb ∈ getNeighbors (position cur) (CombatState.battlefield st) →
  Forall (sound start goal st excludeCharacter) openSet →
  Forall (sound start goal st excludeCharacter)
    (visit goal st excludeCharacter closedSet cur openSet nb).
Proof.
  intros Hcur Hnb Hall. apply elem_of_getNeighbors in Hnb as [Hin Hadj].
  unfold visit. case_bool_decide; [done|].
  destruct (isPositionBlocked nb st excludeCharacter && negb (sameCell nb goal)) eqn:Hb;
    [done|].
  assert (steppable goal st excludeCharacter nb) as Hstep.
  { split; [done|]. apply andb_false_iff in Hb as [Hb|Hb]; [by left|right].
    apply negb_false_iff in Hb. by apply PathFacts.sameCell_true. }
  destruct (list_find _ openSet) as [[i existing]|] eqn:Hfind.
  - apply list_find_Some in Hfind as (_ & Hsame & _).
    apply PathFacts.sameCell_true in Hsame.
    case_bool_decide; [done|]. apply Forall_insert; [done|].
    cbn. rewrite Hsame. done.
  - apply Forall_app. split; [done|]. apply Forall_singleton. cbn. done.
Qed.

Lemma visits_sound (closedSet : gset (Z * Z)) (cur : PathNode) (nbs : list Position.t) :
  sound start goal st excludeCharacter cur →
  Forall (λ nb, nb ∈ getNeighbors (position cur) (CombatState.battlefield st)) nbs →
  ∀ openSet,
    Forall (sound start goal st excludeCharacter) openSet →
    Forall (sound start goal st excludeCharacter)
      (fold_left (visit goal st excludeCharacter closedSet cur) nbs openSet).
Proof.
  intros Hcur Hnbs. induction Hnbs as [|nb nbs Hnb _ IH]; intros openSet Hall; [done|].
  cbn [fold_left]. apply IH. by apply visit_sound.
Qed.

Lemma search_sound (fuel : nat) (openSet : list PathNode) (closedSet : gset (Z * Z))
    (path : list Position.t) :
  Forall (sound start goal st excludeCharacter) openSet →
  search fuel goal st excludeCharacter openSet closedSet = Found path →
  Walk start goal st excludeCharacter path
  ∧ head path = Some start ∧ last path = Some goal.
Proof.
  revert openSet closedSet. induction fuel as [|fuel IH]; intros openSet closedSet Hall.
  - cbn. by destruct openSet.
  - cbn [search]. rewrite <- (PathFacts.sortByF_perm openSet) in Hall.
    destruct (sortByF openSet) as [|cur rest]; [done|].
    apply Forall_cons in Hall as [Hcur Hrest].
    destruct (sameCell (position cur) goal) eqn:Hgoal.
    + intros [= <-]. apply PathFacts.sameCell_true in Hgoal.
      destruct (sound_walk cur Hcur) as [Hw Hh].
      split_and!; [done..|]. by rewrite pathTo_last, Hgoal.
    + apply IH. apply visits_sound; [done| |done].
      apply Forall_forall. by intros nb Hnb.
Qed.

(** Whatever the board, a path that [findPath] returns starts at the start
    cell, ends at the goal, and goes from cell to adjacent cell; every cell
    after the first lies on the battlefield and is free unless it is the
    goal.  It has at least as many steps as a king needs. *)
Theorem findPath_returns_a_walk (path : list Position.t) :
  findPath start goal st excludeCharacter = Found path →
  Walk start goal st excludeCharacter path
  ∧ head path = Some start ∧ last path = Some goal
  ∧ chebyshev start goal ≤ Z.of_nat (length path) - 1.
Proof.
  intros Hfound. apply search_sound in Hfound as (Hw & Hh & Hl).
  - split_and!; [done..|]. by apply (walk_length path Hw).
  - apply Forall_singleton. reflexivity.
Qed.

(** The path from a cell to itself is that cell alone, whatever stands on
    it. *)
Theorem findPath_to_itself : findPath start start st excludeCharacter = Found [start].
Proof.
  unfold findPath, findPathWithin. cbn [search sortByF foldr insertByF startNode position].
  by rewrite (proj2 (PathFacts.sameCell_true start start)).
Qed.

(** When every neighbour of the start is blocked and none of them is the
    goal, there is no path. *)
Theorem findPath_walled_in :
  start ≠ goal →
  (∀ q, q ∈ getNeighbors start (CombatState.battlefield st) →
        isPositionBlocked q st excludeCharacter = true ∧ q ≠ goal) →
  findPath start goal st excludeCharacter = NoPath.
Proof.
  intros Hne Hwall. unfold findPath, findPathWithin.
  cbn [search sortByF foldr insertByF startNode position].
  rewrite (proj2 (PathFacts.sameCell_false start goal) Hne).
  assert (∀ closedSet cur nbs,
            Forall (λ q, isPositionBlocked q st excludeCharacter = true ∧ q ≠ goal) nbs →
            fold_left (visit goal st excludeCharacter closedSet cur) nbs [] = []) as Hfold.
  { intros closedSet cur nbs Hnbs. induction Hnbs as [|q nbs [Hb Hq] _ IH]; [done|].
    cbn [fold_left]. unfold visit at 2. case_bool_decide; [done|].
    by rewrite Hb, (proj2 (PathFacts.sameCell_false q goal) Hq). }
  rewrite Hfold by (apply Forall_forall; exact Hwall).
  by destruct (Z.to_nat _).
Qed.

End AnyBoard.

Lemma findPath_returns_a_walk_witness :
  let st := CombatState.mk 1 0 [Fixtures.orc] [] None []
              (Battlefield.mk 5 5 [Position.mk 1 0; Position.mk 1 1; Position.mk 1 2] []) true None in
  let path := [Position.mk 0 0; Position.mk 0 1; Position.mk 0 2; Position.mk 1 3;
               Position.mk 2 3; Position.mk 3 3] in
  findPath (Position.mk 0 0) (Position.mk 3 3) st None = Found path
  ∧ (Walk (Position.mk 0 0) (Position.mk 3 3) st None path
     ∧ head path = Some (Position.mk 0 0) ∧ last path = Some (Position.mk 3 3)
     ∧ chebyshev (Position.mk 0 0) (Position.mk 3 3) ≤ Z.of_nat (length path) - 1).
Proof.
  cbn zeta. split; [vm_compute; reflexivity|].
  apply findPath_returns_a_walk. vm_compute. reflexivity.
Defined.

Lemma findPath_walled_in_witness :
  let st := Fixtures.board 4 4 [] in
  let walled := CombatState.mk 1 0 [] [] None []
                  (Battlefield.mk 4 4 [Position.mk 1 0; Position.mk 0 1; Position.mk 1 1] [])
                  true None in
  (Position.mk 0 0 ≠ Position.mk 3 3
   ∧ ∀ q, q ∈ getNeighbors (Position.mk 0 0) (CombatState.battlefield walled) →
          isPositionBlocked q walled None = true ∧ q ≠ Position.mk 3 3)
  ∧ findPath (Position.mk 0 0) (Position.mk 3 3) walled None = NoPath.
Proof.
  cbn zeta.
  assert (∀ q, q ∈ getNeighbors (Position.mk 0 0)
                 (Battlefield.mk 4 4 [Position.mk 1 0; Position.mk 0 1; Position.mk 1 1] []) →
               isPositionBlocked q
                 (CombatState.mk 1 0 [] [] None []
                    (Battlefield.mk 4 4 [Position.mk 1 0; Position.mk 0 1; Position.mk 1 1] [])
                    true None) None = true ∧ q ≠ Position.mk 3 3) as Hwall.
  { intros q Hq. vm_compute in Hq.
    repeat (apply elem_of_cons in Hq as [->|Hq]; [by split|]). by apply elem_of_nil in Hq. }
  split; [by split|]. by apply findPath_walled_in.
Defined.

(** *** The search loop ends *)

Lemma key_inj (p q : Position.t) : key p = key q → p = q.
Proof. destruct p, q. unfold key. cbn. congruence. Qed.

Lemma key_inside (battlefield : Battlefield.t) (p : Position.t) :
  inside battlefield p → key p ∈ cells battlefield.
Proof.
  intros [Hx Hy]. unfold cells. rewrite elem_of_list_to_set, list_elem_of_bind.
  exists (Position.x p). rewrite elem_of_seqZ. split; [|lia].
  rewrite list_elem_of_bind. exists (Position.y p). rewrite elem_of_seqZ.
  split; [by left|lia].
Qed.

Lemma size_list_to_set (l : list (Z * Z)) :
  (size (list_to_set l : gset (Z * Z)) ≤ length l)%nat.
Proof.
  induction l as [|k l IH]; cbn [list_to_set length].
  - by rewrite size_empty.
  - rewrite size_union_alt, size_singleton.
    assert (size (list_to_set l ∖ {[ k ]} : gset (Z * Z)) ≤ size (list_to_set l : gset (Z * Z)))%nat
      by (apply subseteq_size, subseteq_difference_l; reflexivity).
    lia.
Qed.

Lemma length_grid (xs ys : list Z) :
  length (x ← xs; y ← ys; [(x, y)]) = (length xs * length ys)%nat.
Proof.
  induction xs as [|x xs IH]; [done|]. cbn [mbind list_bind]. rewrite length_app.
  cbn [mbind] in IH. rewrite IH. cbn [length].
  assert (length (ys ≫= λ y : Z, [(x, y)]) = length ys) as ->; [|lia].
  clear IH. induction ys as [|y ys IHy]; [done|]. cbn. by f_equal.
Qed.

Lemma Z2Nat_inj_nonpos (z : Z) : z ≤ 0 → Z.to_nat z = 0%nat.
Proof. lia. Qed.

Lemma size_cells (battlefield : Battlefield.t) :
  (size (cells battlefield)
   ≤ Z.to_nat (Battlefield.width battlefield * Battlefield.height battlefield))%nat.
Proof.
  unfold cells. etrans; [apply size_list_to_set|]. rewrite length_grid, !length_seqZ.
  destruct (decide (0 ≤ Battlefield.width battlefield)),
           (decide (0 ≤ Battlefield.height battlefield)).
  - rewrite Z2Nat.inj_mul by done. done.
  - rewrite (Z2Nat_inj_nonpos (Battlefield.height _)) by lia. lia.
  - rewrite (Z2Nat_inj_nonpos (Battlefield.width _)) by lia. lia.
  - rewrite (Z2Nat_inj_nonpos (Battlefield.width _)) by lia. lia.
Qed.

Section Termination.

Variable st : CombatState.t.
Variable excludeCharacter : option string.
Variables start goal : Position.t.

Lemma visit_tidy (closedSet : gset (Z * Z)) (cur : PathNode)
    (openSet : list PathNode) (nb : Position.t) :
  inside (CombatState.battlefield st) nb →
  tidy start st openSet closedSet →
  tidy start st (visit goal st excludeCharacter closedSet cur openSet nb) closedSet.
Proof.
  intros Hin (Hnd & Hkeys & Hsub). unfold visit. case_bool_decide as Hclosed; [done|].
  destruct (_ && _); [done|].
  destruct (list_find _ openSet) as [[i existing]|] eqn:Hfind.
  - case_bool_decide; [done|].
    apply list_find_Some in Hfind as (Hi & _ & _).
    assert ((key ∘ position) <$> <[i := mkNode (position existing) (gCost cur + 1)
                                     (hCost existing) (gCost cur + 1 + hCost existing)
                                     (Some cur)]> openSet
            = (key ∘ position) <$> openSet) as Heq.
    { rewrite list_fmap_insert. apply list_insert_id. by rewrite list_lookup_fmap, Hi. }
    unfold tidy. cbn zeta. rewrite Heq. done.
  - apply list_find_None in Hfind.
    unfold tidy. cbn zeta. rewrite fmap_app. cbn [fmap list_fmap compose position].
    split_and!; [|intros k [Hk|Hk]%elem_of_app|done].
    + apply NoDup_app. split_and!; [done| |apply NoDup_singleton].
      intros k Hk ->%list_elem_of_singleton.
      apply list_elem_of_fmap in Hk as (n & Hn & Hin').
      rewrite Forall_forall in Hfind. apply (Hfind n Hin').
      apply PathFacts.sameCell_true. apply key_inj. by rewrite Hn.
    + by apply Hkeys.
    + apply list_elem_of_singleton in Hk as ->. split; [done|].
      apply elem_of_union_r. by apply key_inside.
Qed.

Lemma visits_tidy (closedSet : gset (Z * Z)) (cur : PathNode) (nbs : list Position.t) :
  Forall (inside (CombatState.battlefield st)) nbs →
  ∀ openSet,
    tidy start st openSet closedSet →
    tidy start st (fold_left (visit goal st excludeCharacter closedSet cur) nbs openSet)
      closedSet.
Proof.
  induction 1 as [|nb nbs Hnb _ IH]; intros openSet Htidy; [done|].
  cbn [fold_left]. apply IH. by apply visit_tidy.
Qed.

Lemma search_ends (fuel : nat) :
  ∀ openSet closedSet,
    tidy start st openSet closedSet →
    (size (({[ key start ]} ∪ cells (CombatState.battlefield st)) ∖ closedSet) ≤ fuel)%nat →
    search fuel goal st excludeCharacter openSet closedSet ≠ OutOfFuel.
Proof.
  induction fuel as [|fuel IH]; intros openSet closedSet (Hnd & Hkeys & Hsub) Hsize.
  - cbn. destruct openSet as [|n openSet]; [done|]. exfalso.
    destruct (Hkeys (key (position n))) as [Hn Hu]; [by left|].
    assert (size (({[ key start ]} ∪ cells (CombatState.battlefield st)) ∖ closedSet) = 0%nat)
      as Hzero by lia.
    apply size_empty_inv in Hzero.
    apply (not_elem_of_empty (C := gset (Z * Z)) (key (position n))).
    rewrite <- Hzero. by apply elem_of_difference.
  - cbn [search].
    assert ((key ∘ position) <$> sortByF openSet ≡ₚ (key ∘ position) <$> openSet) as Hperm
      by (apply fmap_Permutation, PathFacts.sortByF_perm).
    rewrite <- Hperm in Hnd.
    assert (∀ k, k ∈ (key ∘ position) <$> sortByF openSet →
                 (k ∉ closedSet) ∧ k ∈ {[ key start ]} ∪ cells (CombatState.battlefield st))
      as Hkeys' by (intros k Hk; apply Hkeys; by rewrite <- Hperm).
    destruct (sortByF openSet) as [|cur rest]; [done|].
    destruct (sameCell (position cur) goal); [done|].
    cbn [fmap list_fmap compose] in Hnd, Hkeys'.
    apply NoDup_cons in Hnd as [Hcur Hrest].
    destruct (Hkeys' (key (position cur))) as [Hopen Hu]; [by left|].
    apply IH.
    + apply visits_tidy.
      * apply Forall_forall. intros nb Hnb. by apply elem_of_getNeighbors in Hnb as [? _].
      * split_and!; [done| |].
        2:{ intros k [->%elem_of_singleton|Hk]%elem_of_union; [done|by apply Hsub]. }
        intros k Hk. destruct (Hkeys' k) as [? ?]; [by right|].
        split; [|done]. intros [->%elem_of_singleton|?]%elem_of_union; done.
    + assert (size (({[ key start ]} ∪ cells (CombatState.battlefield st))
                      ∖ ({[ key (position cur) ]} ∪ closedSet))
              < size (({[ key start ]} ∪ cells (CombatState.battlefield st)) ∖ closedSet))%nat
        by (apply subset_size, strict_spec_alt; split;
            [ intros k [Hk Hn]%elem_of_difference; apply elem_of_difference;
              split; [done|]; intros ?; apply Hn; by apply elem_of_union_r
            | intros Heq; assert (key (position cur)
                                  ∈ ({[ key start ]} ∪ cells (CombatState.battlefield st))
                                      ∖ ({[ key (position cur) ]} ∪ closedSet)) as Hbad
                by (rewrite Heq; by apply elem_of_difference);
              apply elem_of_difference in Hbad as [_ Hbad]; apply Hbad;
              by apply elem_of_union_l, elem_of_singleton ]).
      lia.
Qed.

(** The search loop of [findPath] ends on every board and for every pair of
    cells: it closes one new cell per round and only opens cells of the
    battlefield, so [width * height + 1] rounds are enough, and the result is
    a path or [null]. *)
Theorem findPath_ends :
  findPath start goal st excludeCharacter ≠ OutOfFuel.
Proof.
  unfold findPath, findPathWithin. apply search_ends.
  - unfold tidy. cbn. split_and!.
    + apply NoDup_singleton.
    + intros k ->%list_elem_of_singleton. set_solver.
    + set_solver.
  - etrans; [apply subseteq_size; apply subseteq_difference_l; reflexivity|].
    rewrite size_union_alt, size_singleton.
    pose proof (size_cells (CombatState.battlefield st)).
    assert (size (cells (CombatState.battlefield st) ∖ {[ key start ]})
            ≤ size (cells (CombatState.battlefield st)))%nat
      by (apply subseteq_size, subseteq_difference_l; reflexivity).
    lia.
Qed.

End Termination.

(** *** A goal next to the start *)

Section AdjacentGoal.

Variable st : CombatState.t.
Variable excludeCharacter : option string.
Variables start goal : Position.t.

Local Abbreviation goalNode := (goalNode start goal).
Local Abbreviation firstRing := (firstRing start goal).

Lemma visit_first_ring (openSet : list PathNode) (nb : Position.t) :
  start ≠ goal →
  firstRing openSet →
  let openSet' := visit goal st excludeCharacter ({[ key start ]} ∪ ∅)
                    (startNode start goal) openSet nb in
  firstRing openSet'
  ∧ (goalNode ∈ openSet → goalNode ∈ openSet')
  ∧ (nb = goal → goalNode ∈ openSet').
Proof.
  intros Hne Hring. cbn zeta. unfold visit. cbn [startNode gCost].
  case_bool_decide as Hclosed.
  { split_and!; [done..|]. intros ->. exfalso. apply Hne.
    apply elem_of_union in Hclosed as [Hk%elem_of_singleton|Hk];
      [symmetry; by apply key_inj|by apply not_elem_of_empty in Hk]. }
  destruct (isPositionBlocked nb st excludeCharacter && negb (sameCell nb goal)) eqn:Hb.
  { split_and!; [done..|]. intros ->.
    rewrite (proj2 (PathFacts.sameCell_true goal goal)) in Hb by done.
    by rewrite andb_false_r in Hb. }
  destruct (list_find _ openSet) as [[i existing]|] eqn:Hfind.
  - apply list_find_Some in Hfind as (Hi & Hsame%PathFacts.sameCell_true & _).
    assert (existing ∈ openSet) as Hex by (by eapply list_elem_of_lookup_2).
    unfold firstRing in Hring. rewrite Forall_forall in Hring.
    destruct (Hring existing Hex) as (Hg & Hgoal & _).
    rewrite bool_decide_true by lia.
    split_and!; [by apply Forall_forall|done|].
    intros ->. by rewrite <- (Hgoal Hsame).
  - split_and!.
    + apply Forall_app. split; [done|]. apply Forall_singleton. cbn.
      split_and!; [done| |].
      * by intros ->.
      * intros Hnb. unfold calculateDistance. destruct nb, goal. cbn in *.
        assert (x ≠ x0 ∨ y ≠ y0) by (destruct (decide (x = x0)); [right; congruence|by left]).
        lia.
    + intros Hin. apply elem_of_app. by left.
    + intros ->. apply elem_of_app. right. by left.
Qed.

Lemma visits_first_ring (nbs : list Position.t) :
  start ≠ goal →
  ∀ openSet,
    firstRing openSet →
    let openSet' := fold_left (visit goal st excludeCharacter ({[ key start ]} ∪ ∅)
                                 (startNode start goal)) nbs openSet in
    firstRing openSet' ∧ (goalNode ∈ openSet ∨ goal ∈ nbs → goalNode ∈ openSet').
Proof.
  intros Hne. induction nbs as [|nb nbs IH]; intros openSet Hring; cbn zeta.
  - cbn. split; [done|]. intros [?|Hin]; [done|by apply elem_of_nil in Hin].
  - cbn [fold_left].
    destruct (visit_first_ring openSet nb Hne Hring) as (Hring' & Hkeep & Hnew).
    destruct (IH _ Hring') as (Hring'' & Hgoal). split; [done|].
    intros [Hin|[<-|Hin]%elem_of_cons]; apply Hgoal; eauto.
Qed.

(** A goal one king's move from the start is reached in one step, also when
    the goal cell itself holds an obstacle or a living character, and
    whatever else is on the board. *)
Theorem findPath_adjacent_goal :
  adjacent start goal →
  inside (CombatState.battlefield st) goal →
  findPath start goal st excludeCharacter = Found [start; goal].
Proof.
  intros Hadj Hin.
  assert (start ≠ goal) as Hne by (intros ->; unfold adjacent, chebyshev in Hadj; lia).
  unfold findPath, findPathWithin.
  destruct (Z.to_nat _) as [|fuel] eqn:Hfuel; [destruct Hin; nia|].
  cbn [search sortByF foldr insertByF startNode position].
  rewrite (proj2 (PathFacts.sameCell_false start goal) Hne).
  destruct (visits_first_ring (getNeighbors start (CombatState.battlefield st)) Hne [])
    as (Hring & Hgoal); [by apply Forall_nil|].
  cbn zeta in Hring, Hgoal. unfold startNode in Hring, Hgoal. cbn zeta in Hring, Hgoal.
  specialize (Hgoal (or_intror (proj2 (elem_of_getNeighbors _ _ _) (conj Hin Hadj)))).
  set (openSet := fold_left _ _ _) in *.
  pose proof (PathFacts.sortByF_sorted openSet) as Hsorted.
  pose proof (PathFacts.sortByF_perm openSet) as Hperm.
  cbn [search]. destruct (sortByF openSet) as [|hd tl].
  { rewrite <- Hperm in Hgoal. by apply elem_of_nil in Hgoal. }
  assert (hd = goalNode) as ->.
  { unfold firstRing in Hring. rewrite <- Hperm in Hring, Hgoal.
    apply Forall_cons in Hring as [(_ & Hhd & Hfar) _].
    destruct (decide (position hd = goal)) as [?|Hpos]; [by apply Hhd|].
    specialize (Hfar Hpos). exfalso.
    apply elem_of_cons in Hgoal as [Heq|Htl].
    - rewrite <- Heq in Hpos. by cbn in Hpos.
    - apply StronglySorted_inv in Hsorted as [_ Hle].
      rewrite Forall_forall in Hle. specialize (Hle _ Htl).
      unfold goalNode, calculateDistance in Hle. cbn in Hle. lia. }
  cbn [goalNode position]. by rewrite (proj2 (PathFacts.sameCell_true goal goal)).
Qed.

End AdjacentGoal.

Lemma findPath_adjacent_goal_witness :
  let st := CombatState.mk 1 0 [Fixtures.orc] [] None []
              (Battlefield.mk 3 3 [Position.mk 1 1; Position.mk 0 1] []) true None in
  (adjacent (Position.mk 0 0) (Position.mk 1 1)
   ∧ inside (CombatState.battlefield st) (Position.mk 1 1))
  ∧ findPath (Position.mk 0 0) (Position.mk 1 1) st None
    = Found [Position.mk 0 0; Position.mk 1 1].
Proof.
  cbn zeta.
  assert (adjacent (Position.mk 0 0) (Position.mk 1 1)) as Hadj by reflexivity.
  assert (inside (Battlefield.mk 3 3 [Position.mk 1 1; Position.mk 0 1] []) (Position.mk 1 1))
    as Hin by (unfold inside; cbn; lia).
  split; [by split|]. by apply findPath_adjacent_goal.
Defined.

(** *** Line of sight *)

Section Sight.

Variables start goal : Position.t.
Variable st : CombatState.t.
Variables dx dy sx sy : Z.

Hypothesis dx_nonneg : 0 ≤ dx.
Hypothesis dy_nonneg : 0 ≤ dy.
Hypothesis sx_unit : sx = 1 ∨ sx = -1.
Hypothesis sy_unit : sy = 1 ∨ sy = -1.
Hypothesis start_x : Position.x start = Position.x goal - dx * sx.
Hypothesis start_y : Position.y start = Position.y goal - dy * sy.

(** With [a] columns and [b] rows still to go, the error term of the line is
    [dx - dy + a * dy - b * dx]; it never lets the loop step past the goal's
    column or row. *)
Lemma sightLoop_returns (fuel : nat) :
  ∀ a b x y err,
    0 ≤ a ≤ dx → 0 ≤ b ≤ dy → (Z.to_nat (a + b) < fuel)%nat →
    x = Position.x goal - a * sx → y = Position.y goal - b * sy →
    err = dx - dy + a * dy - b * dx →
    ∃ r, sightLoop fuel start goal st dx dy sx sy x y err = Some r
         ∧ (r = false →
            ∃ obs, obs ∈ Battlefield.obstacles (CombatState.battlefield st)
                   ∧ obs ≠ start ∧ obs ≠ goal
                   ∧ Z.min (Position.x start) (Position.x goal) ≤ Position.x obs
                     ≤ Z.max (Position.x start) (Position.x goal)
                   ∧ Z.min (Position.y start) (Position.y goal) ≤ Position.y obs
                     ≤ Z.max (Position.y start) (Position.y goal)).
Proof.
  induction fuel as [|fuel IH]; intros a b x y err Ha Hb Hfuel Hx Hy Herr; [lia|].
  cbn [sightLoop].
  destruct (negb _ && negb _ && obstacleAt st x y) eqn:Hblock.
  { exists false. split; [done|]. intros _.
    apply andb_true_iff in Hblock as [[Hs Hg]%andb_true_iff Hobs].
    unfold obstacleAt in Hobs. apply existsb_exists in Hobs as (obs & Hin & Hat).
    apply list_elem_of_In in Hin.
    apply andb_true_iff in Hat as [Hox%bool_decide_eq_true Hoy%bool_decide_eq_true].
    apply negb_true_iff, andb_false_iff in Hs, Hg.
    rewrite !bool_decide_eq_false in Hs, Hg.
    exists obs. split_and!; [done|intros ->; lia|intros ->; lia|..];
      rewrite ?Hox, ?Hoy, ?Hx, ?Hy, ?start_x, ?start_y; nia. }
  destruct (bool_decide (x = Position.x goal) && bool_decide (y = Position.y goal)) eqn:Hgoal.
  { exists true. by split. }
  apply andb_false_iff in Hgoal. rewrite !bool_decide_eq_false in Hgoal.
  assert (0 < a ∨ 0 < b) as Hleft by nia.
  assert (- dy < 2 * err → 0 < a) as Hcol.
  { intros Hstep. destruct (decide (a = 0)) as [->|]; [|lia].
    assert (0 ≤ dx * (b - 1)) by nia. lia. }
  assert (2 * err < dx → 0 < b) as Hrow.
  { intros Hstep. destruct (decide (b = 0)) as [->|]; [|lia].
    assert (0 ≤ dy * (a - 1)) by nia. lia. }
  cbn zeta.
  destruct (bool_decide (- dy < 2 * err)) eqn:Hstepx;
    [apply bool_decide_eq_true in Hstepx|apply bool_decide_eq_false in Hstepx];
    (destruct (bool_decide (2 * err < dx)) eqn:Hstepy;
     [apply bool_decide_eq_true in Hstepy|apply bool_decide_eq_false in Hstepy]).
  - specialize (Hcol Hstepx). specialize (Hrow Hstepy). apply (IH (a - 1) (b - 1)); lia.
  - specialize (Hcol Hstepx). apply (IH (a - 1) b); lia.
  - specialize (Hrow Hstepy). apply (IH a (b - 1)); lia.
  - exfalso. lia.
Qed.

End Sight.

(** [hasLineOfSight] returns on every pair of cells, and it answers [false]
    only when an obstacle other than the two end cells lies in the rectangle
    they span: characters never block sight, and every cell sees itself. *)
Theorem hasLineOfSight_returns (start goal : Position.t) (st : CombatState.t) :
  ∃ r, hasLineOfSight start goal st = Some r
       ∧ (r = false →
          ∃ obs, obs ∈ Battlefield.obstacles (CombatState.battlefield st)
                 ∧ obs ≠ start ∧ obs ≠ goal
                 ∧ Z.min (Position.x start) (Position.x goal) ≤ Position.x obs
                   ≤ Z.max (Position.x start) (Position.x goal)
                 ∧ Z.min (Position.y start) (Position.y goal) ≤ Position.y obs
                   ≤ Z.max (Position.y start) (Position.y goal)).
Proof.
  unfold hasLineOfSight. cbn zeta.
  apply (sightLoop_returns start goal st _ _ _ _)
    with (a := Z.abs (Position.x goal - Position.x start))
         (b := Z.abs (Position.y goal - Position.y start));
    try (repeat case_bool_decide; lia).
Qed.

(** *** Paths that are longer than they need be *)

(** The path [findPath] returns is not always a shortest one: the distance
    it estimates with counts a diagonal step as two.  On the board of 4 by 3
    cells with an obstacle on (1, 1) it goes from (0, 2) to (3, 0) in four
    steps, around the obstacle by the left; three steps by the right do. *)
Theorem findPath_is_not_always_shortest :
  ∃ (st : CombatState.t) (start goal : Position.t) (path shorter : list Position.t),
    findPath start goal st None = Found path
    ∧ Walk start goal st None shorter
    ∧ head shorter = Some start ∧ last shorter = Some goal
    ∧ (length shorter < length path)%nat.
Proof.
  exists (CombatState.mk 1 0 [] [] None [] (Battlefield.mk 4 3 [Position.mk 1 1] []) true None),
    (Position.mk 0 2), (Position.mk 3 0),
    [Position.mk 0 2; Position.mk 0 1; Position.mk 1 0; Position.mk 2 0; Position.mk 3 0],
    [Position.mk 0 2; Position.mk 1 2; Position.mk 2 1; Position.mk 3 0].
  split_and!; [vm_compute; reflexivity| |reflexivity|reflexivity|cbn; lia].
  apply (walk_step _ _ _ _ [Position.mk 0 2; Position.mk 1 2; Position.mk 2 1]
           (Position.mk 2 1) (Position.mk 3 0));
    [|reflexivity|reflexivity|split; [unfold inside; cbn; lia|left; vm_compute; reflexivity]].
  apply (walk_step _ _ _ _ [Position.mk 0 2; Position.mk 1 2]
           (Position.mk 1 2) (Position.mk 2 1));
    [|reflexivity|reflexivity|split; [unfold inside; cbn; lia|left; vm_compute; reflexivity]].
  apply (walk_step _ _ _ _ [Position.mk 0 2] (Position.mk 0 2) (Position.mk 1 2));
    [|reflexivity|reflexivity|split; [unfold inside; cbn; lia|left; vm_compute; reflexivity]].
  apply walk_start.
Qed.

End PathMore.

(** ** The engine, continued *)

Module EngineMore.
Import Runtime CombatEngine Vocabulary EngineVocabulary.

(** *** What no call does *)

Lemma keeps_assign_each (P : Character.t → Prop) (f : Character.t → Character.t) (ref : nat) :
  (∀ c, P c → P (f c)) →
  keeps (onState (λ s, Forall P (CombatState.characters s))) (assign ref f).
Proof.
  intros Hf. apply EngineFacts.keeps_modifyState. intros s Hs. cbn.
  apply Forall_alter; [done|]. intros c _. apply Hf.
Qed.

Lemma keeps_assign_setting v (f : Character.t → Character.t) (ref : nat) :
  (∀ c, sheet (f c) = sheet c) →
  keeps (onState (λ s, setting s = v)) (assign ref f).
Proof.
  intros Hf. apply EngineFacts.keeps_modifyState. intros s <-. unfold setting. cbn.
  by rewrite EngineFacts.fmap_alter_same.
Qed.

Ltac keep_all :=
  repeat first
    [ apply EngineFacts.keeps_ret | apply EngineFacts.keeps_throw
    | apply EngineFacts.keeps_getState | apply EngineFacts.keeps_deref
    | apply EngineFacts.keeps_getCharacterById | apply EngineFacts.keeps_getCurrentCharacter
    | apply EngineFacts.keeps_logging | apply EngineFacts.keeps_rolling
    | apply EngineFacts.keeps_mathRandom | apply EngineFacts.keeps_checkDeath
    | apply keeps_assign_each; intros ? ?; cbn; lia
    | apply keeps_assign_setting; intros; reflexivity
    | apply EngineFacts.keeps_modifyState; intros ? ?; assumption
    | apply EngineFacts.keeps_bind; [|intros]
    | match goal with
      | |- keeps _ (match ?x with _ => _ end) => destruct x
      end ].

Lemma run_keeps (I : Engine → Prop) :
  (∀ action, keeps I (processAction action)) → keeps I endTurn →
  ∀ calls e, I e → I (run calls e).
Proof.
  intros Hact Hend calls. induction calls as [|c calls IH]; intros e HI; [done|].
  unfold run. cbn [foldl]. apply IH. destruct c as [action|]; cbn [call].
  - destruct (processAction action e) as [out e'] eqn:E. by eapply Hact.
  - destruct (endTurn e) as [out e'] eqn:E. by eapply Hend.
Qed.

Lemma processAction_unfold (action : CombatAction.t) :
  processAction action
  = bind (getCharacterById (Some (CombatAction.characterId action)))
      (λ found,
         match found with
         | None => ret (false, action)
         | Some character =>
             match CombatAction.type action with
             | CombatAction.move => processMovement character action
             | CombatAction.attack => processAttack character action
             | CombatAction.spell => processSpell character action
             | CombatAction.dash => bind (processDash character) (λ ok, ret (ok, action))
             | CombatAction.dodge => bind (processDodge character) (λ ok, ret (ok, action))
             | _ => ret (false, action)
             end
         end).
Proof. reflexivity. Qed.

(** Submitted actions and ended turns, in any number and order and whether
    they are accepted, refused or throw, never bring a character's current
    health below 0. *)
Theorem health_never_negative (calls : list Call) (e : Engine) :
  Forall (λ c, 0 ≤ Health.current (Character.health c))
    (CombatState.characters (combatState e)) →
  Forall (λ c, 0 ≤ Health.current (Character.health c))
    (CombatState.characters (combatState (run calls e))).
Proof.
  apply (run_keeps (onState (λ s, Forall (λ c, 0 ≤ Health.current (Character.health c))
                                    (CombatState.characters s)))).
  - intros action. unfold processAction, processMovement, processAttack, processSpell,
      processDash, processDodge, spellDamage, derefOption, spellTarget. keep_all.
  - unfold endTurn. keep_all.
Qed.

Lemma health_never_negative_witness :
  let e := Fixtures.engine 42 (Fixtures.started 8 8 [Fixtures.wizard; Fixtures.orc]) in
  let missile := Submit (Fixtures.act CombatAction.spell "wizard"
                           (Some (CombatAction.Name "orc")) (Some "magic_missile")) in
  Forall (λ c, 0 ≤ Health.current (Character.health c))
    (CombatState.characters (combatState e))
  ∧ Forall (λ c, 0 ≤ Health.current (Character.health c))
      (CombatState.characters (combatState (run [missile; EndTurn; missile] e))).
Proof.
  cbn zeta.
  assert (Forall (λ c, 0 ≤ Health.current (Character.health c))
            (CombatState.characters
               (combatState
                  (Fixtures.engine 42 (Fixtures.started 8 8 [Fixtures.wizard; Fixtures.orc])))))
    as Hstart by (apply (bool_decide_unpack _); vm_compute; exact I).
  split; [exact Hstart|]. by apply health_never_negative.
Defined.

(** Submitted actions and ended turns never change the setting of the
    fight: the battlefield, the order of turns and the log the state carries
    stay as they are, no character joins or leaves the roster, and no
    character's id, name, level, ability scores, maximum health, armor class,
    resources, side or initiative is written. *)
Theorem calls_keep_the_setting (calls : list Call) (e : Engine) :
  setting (combatState (run calls e)) = setting (combatState e).
Proof.
  apply (run_keeps (onState (λ s, setting s = setting (combatState e)))); [| |done].
  - intros action. unfold processAction, processMovement, processAttack, processSpell,
      processDash, processDodge, spellDamage, derefOption, spellTarget. keep_all.
  - unfold endTurn. keep_all.
Qed.

(** *** Ending a turn *)

Lemma logging_returns f (e : Engine) :
  ∃ e', logging f e = (Returns (), e') ∧ combatState e' = combatState e.
Proof. unfold logging. destruct (f _) as [log amb]. by eexists. Qed.

Lemma turnStart_returns (e : Engine) :
  ∃ e', bind getCurrentCharacter
          (λ next, match next with
                   | Some ref => bind (deref ref) (λ c, logging (CombatLog.logTurnStart c))
                   | None => ret ()
                   end) e = (Returns (), e')
        ∧ combatState e' = combatState e.
Proof.
  erewrite EngineFacts.bind_returns by reflexivity.
  destruct (findCharacter _ _) as [ref|] eqn:Hfind; [|by eexists].
  destruct (EngineFacts.findCharacter_valid _ _ _ Hfind) as [c Hc].
  erewrite EngineFacts.bind_returns by (unfold deref; by rewrite Hc).
  apply logging_returns.
Qed.

(** What [endTurn] leaves in the state, in terms of the index it computes. *)
Lemma endTurn_schedule (e : Engine) :
  let s := combatState e in
  let order := CombatState.initiativeOrder s in
  let nextIndex : option Z :=
    if bool_decide (order = []) then None
    else Some (Z.rem (indexOf (CombatState.currentCharacterId s) order + 1)
                 (Z.of_nat (length order))) in
  ∃ e', endTurn e = (Returns (), e')
        ∧ CombatState.currentCharacterId (combatState e') = nextIndex ≫= Rng.arrayGet order
        ∧ CombatState.turn (combatState e') = CombatState.turn s + 1
        ∧ CombatState.round (combatState e')
          = (if bool_decide (nextIndex = Some 0) then CombatState.round s + 1
             else CombatState.round s)
        ∧ CombatState.initiativeOrder (combatState e') = order
        ∧ CombatState.characters (combatState e')
          = match findCharacter (CombatState.currentCharacterId s) (CombatState.characters s) with
            | Some ref => alter resetTurnFlags ref (CombatState.characters s)
            | None => CombatState.characters s
            end.
Proof.
  cbn zeta. unfold endTurn.
  erewrite EngineFacts.bind_returns by reflexivity.
  set (chars' := match findCharacter _ _ with Some ref => alter _ _ _ | None => _ end).
  erewrite (EngineFacts.bind_returns _ _ e
              (mk (CombatState.setCharacters chars' (combatState e)) (logger e) (ambient e))).
  2:{ subst chars'. destruct (findCharacter _ _); [reflexivity|]. by destruct e as [[] ? ?]. }
  erewrite EngineFacts.bind_returns by reflexivity.
  cbn [combatState CombatState.initiativeOrder CombatState.currentCharacterId
       CombatState.setCharacters].
  do 2 (erewrite EngineFacts.bind_returns by reflexivity).
  cbn [combatState logger ambient].
  set (nextIndex := if bool_decide (CombatState.initiativeOrder (combatState e) = [])
                    then _ else _).
  set (s3 := CombatState.setTurn _ _).
  destruct (bool_decide (nextIndex = Some 0)).
  - destruct (logging_returns
                (CombatLog.logRoundStart
                   (CombatState.round (CombatState.setRound (CombatState.round s3 + 1) s3)))
                (mk (CombatState.setRound (CombatState.round s3 + 1) s3) (logger e) (ambient e)))
      as (e4 & Hlog & Hs4).
    erewrite (EngineFacts.bind_returns _ _ _ e4)
      by (do 2 (erewrite EngineFacts.bind_returns by reflexivity); exact Hlog).
    destruct (turnStart_returns e4) as (e5 & Hturn & Hs5).
    exists e5. split; [exact Hturn|]. rewrite Hs5, Hs4. by cbn.
  - erewrite EngineFacts.bind_returns by reflexivity.
    destruct (turnStart_returns (mk s3 (logger e) (ambient e))) as (e5 & Hturn & Hs5).
    exists e5. split; [exact Hturn|]. rewrite Hs5. by cbn.
Qed.

Lemma indexOf_NoDup (order : list string) (i : nat) (id : string) :
  NoDup order → order !! i = Some id → indexOf (Some id) order = Z.of_nat i.
Proof.
  intros Hnd Hi. unfold indexOf.
  assert (list_find (λ o, Some o = Some id) order = Some (i, id)) as ->; [|done].
  apply list_find_Some. split_and!; [done..|].
  intros j y Hj Hlt [= ->]. pose proof (NoDup_lookup _ _ _ _ Hnd Hi Hj). lia.
Qed.

Lemma indexOf_stranger (current : option string) (order : list string) :
  (∀ id, current = Some id → id ∉ order) → indexOf current order = -1.
Proof.
  intros Hout. unfold indexOf.
  destruct (list_find _ order) as [[i o]|] eqn:Hfind; [|done].
  apply list_find_Some in Hfind as (Hi & Ho & _). exfalso.
  apply (Hout o); [done|]. by eapply list_elem_of_lookup_2.
Qed.

(** With an order of turns that names nobody twice, [endTurn] passes the
    turn from the character at place [i] to the one at place [i + 1], and
    from the last to the first; it counts one more turn, and one more round
    exactly when it wraps around.  It never throws. *)
Theorem endTurn_cycles (e : Engine) (i : nat) (id : string) :
  let s := combatState e in
  let order := CombatState.initiativeOrder s in
  NoDup order →
  order !! i = Some id →
  CombatState.currentCharacterId s = Some id →
  let s' := combatState (endTurn e).2 in
  (endTurn e).1 = Returns ()
  ∧ CombatState.currentCharacterId s' = order !! (S i mod length order)%nat
  ∧ CombatState.turn s' = CombatState.turn s + 1
  ∧ CombatState.round s'
    = (if bool_decide (S i = length order) then CombatState.round s + 1
       else CombatState.round s)
  ∧ CombatState.initiativeOrder s' = order.
Proof.
  cbn zeta. intros Hnd Hi Hcur.
  destruct (endTurn_schedule e) as (e' & -> & Hnext & Hturn & Hround & Horder & _).
  cbn zeta in Hnext, Hround. cbn [fst snd].
  pose proof (lookup_lt_Some _ _ _ Hi) as Hlt.
  rewrite Hcur, (indexOf_NoDup _ i id Hnd Hi) in Hnext, Hround.
  assert (CombatState.initiativeOrder (combatState e) ≠ []) as Hne
    by (intros Hnil; rewrite Hnil in Hlt; cbn in Hlt; lia).
  rewrite (bool_decide_false _ Hne) in Hnext, Hround.
  split_and!; [done| |done| |done].
  - rewrite Hnext. cbn. unfold Rng.arrayGet.
    rewrite Z.rem_mod_nonneg by lia. rewrite bool_decide_true by (apply Z.mod_pos_bound; lia).
    f_equal. replace (Z.of_nat i + 1) with (Z.of_nat (S i)) by lia.
    by rewrite <- Nat2Z.inj_mod, Nat2Z.id.
  - rewrite Hround. rewrite Z.rem_mod_nonneg by lia.
    replace (Z.of_nat i + 1) with (Z.of_nat (S i)) by lia. rewrite <- Nat2Z.inj_mod.
    destruct (decide (S i = length (CombatState.initiativeOrder (combatState e))))
      as [Hwrap|Hwrap].
    + rewrite (bool_decide_true _ Hwrap). rewrite <- Hwrap, Nat.Div0.mod_same.
      by rewrite bool_decide_true.
    + rewrite (bool_decide_false _ Hwrap). rewrite Nat.mod_small by lia.
      rewrite bool_decide_false; [done|]. intros [= ?]; lia.
Qed.

Lemma endTurn_cycles_witness :
  let e := Fixtures.engine 42
             (CombatState.setCurrentCharacterId (Some "orc")
                (Fixtures.started 8 8 [Fixtures.fighter; Fixtures.orc])) in
  let s := combatState e in
  let order := CombatState.initiativeOrder s in
  let s' := combatState (endTurn e).2 in
  (NoDup order ∧ order !! 1%nat = Some "orc" ∧ CombatState.currentCharacterId s = Some "orc")
  ∧ (endTurn e).1 = Returns ()
  ∧ CombatState.currentCharacterId s' = order !! (2 mod length order)%nat
  ∧ CombatState.turn s' = CombatState.turn s + 1
  ∧ CombatState.round s'
    = (if bool_decide (2%nat = length order) then CombatState.round s + 1
       else CombatState.round s)
  ∧ CombatState.initiativeOrder s' = order.
Proof.
  cbn zeta.
  assert (NoDup (CombatState.initiativeOrder
                   (combatState
                      (Fixtures.engine 42
                         (CombatState.setCurrentCharacterId (Some "orc")
                            (Fixtures.started 8 8 [Fixtures.fighter; Fixtures.orc]))))))
    as Hnd by (apply (bool_decide_unpack _); vm_compute; exact I).
  split; [split_and!; [exact Hnd|reflexivity|reflexivity]|].
  apply (endTurn_cycles _ 1 "orc"); [exact Hnd|reflexivity|reflexivity].
Defined.

(** When the current id is not in the order of turns (or is undefined), the
    turn passes to the first of the order and a new round starts; with an
    empty order the current id becomes undefined and the round stays. *)
Theorem endTurn_from_a_stranger (e : Engine) :
  let s := combatState e in
  let order := CombatState.initiativeOrder s in
  (∀ id, CombatState.currentCharacterId s = Some id → id ∉ order) →
  let s' := combatState (endTurn e).2 in
  (endTurn e).1 = Returns ()
  ∧ CombatState.currentCharacterId s' = head order
  ∧ CombatState.turn s' = CombatState.turn s + 1
  ∧ CombatState.round s'
    = (if bool_decide (order = []) then CombatState.round s else CombatState.round s + 1).
Proof.
  cbn zeta. intros Hout.
  destruct (endTurn_schedule e) as (e' & -> & Hnext & Hturn & Hround & _).
  cbn zeta in Hnext, Hround. cbn [fst snd].
  rewrite (indexOf_stranger _ _ Hout) in Hnext, Hround.
  rewrite Hnext, Hround. split_and!; [done| |done|];
    destruct (CombatState.initiativeOrder (combatState e)) as [|o order].
  - by rewrite bool_decide_true.
  - rewrite bool_decide_false by done. change (-1 + 1) with 0.
    by rewrite Z.rem_0_l by (cbn [length]; lia).
  - rewrite (bool_decide_true ([] = [])) by done. by rewrite bool_decide_false.
  - rewrite (bool_decide_false (o :: order = [])) by done. change (-1 + 1) with 0.
    rewrite Z.rem_0_l by (cbn [length]; lia). by rewrite bool_decide_true.
Qed.

Lemma endTurn_from_a_stranger_witness :
  let e := Fixtures.engine 42 (Fixtures.board 8 8 [Fixtures.fighter; Fixtures.orc]) in
  (∀ id, CombatState.currentCharacterId (combatState e) = Some id →
         id ∉ CombatState.initiativeOrder (combatState e))
  ∧ CombatState.turn (combatState (endTurn e).2) = CombatState.turn (combatState e) + 1.
Proof.
  cbn zeta.
  assert (∀ id, CombatState.currentCharacterId
                  (combatState (Fixtures.engine 42
                     (Fixtures.board 8 8 [Fixtures.fighter; Fixtures.orc]))) = Some id →
                id ∉ CombatState.initiativeOrder
                       (combatState (Fixtures.engine 42
                          (Fixtures.board 8 8 [Fixtures.fighter; Fixtures.orc]))))
    as Hout by (intros id; vm_compute; discriminate).
  split; [exact Hout|]. by apply endTurn_from_a_stranger.
Defined.

(** *** The end of the fight *)

Lemma filter_length_zero (P Q : Character.t → Prop) `{∀ c, Decision (P c)}
    (l : list Character.t) :
  (∀ c, P c ↔ Q c) → length (filter P l) = 0%nat ↔ ¬ Exists Q l.
Proof.
  intros HPQ. rewrite Exists_exists. split.
  - intros Hlen%nil_length_inv (c & Hin & Hc).
    assert (c ∈ filter P l) as Hbad by (apply list_elem_of_filter; split; [by apply HPQ|done]).
    rewrite Hlen in Hbad. by apply elem_of_nil in Hbad.
  - intros Hnone. destruct (filter P l) as [|c rest] eqn:Hf; [done|]. exfalso.
    assert (c ∈ filter P l) as Hin by (rewrite Hf; left).
    apply list_elem_of_filter in Hin as [Hc Hin]. apply Hnone. exists c. split; [done|].
    by apply HPQ.
Qed.

(** [checkCombatEnd] gives the fight to the enemies when no player or
    companion is standing, also when no enemy is standing either or the
    roster is empty; to the players when one of them stands and no enemy
    does; and to nobody otherwise.  A verdict ends the fight in the state;
    nothing else is written, and nothing is logged. *)
Theorem checkCombatEnd_verdict (e : Engine) :
  let s := combatState e in
  let ended side := mk (CombatState.setEnded side s) (logger e) (ambient e) in
  (¬ Exists standingPlayer (CombatState.characters s)
   ∧ checkCombatEnd e = (Returns (Some CombatState.enemies), ended CombatState.enemies))
  ∨ (Exists standingPlayer (CombatState.characters s)
     ∧ ¬ Exists standingEnemy (CombatState.characters s)
     ∧ checkCombatEnd e = (Returns (Some CombatState.players), ended CombatState.players))
  ∨ (Exists standingPlayer (CombatState.characters s)
     ∧ Exists standingEnemy (CombatState.characters s)
     ∧ checkCombatEnd e = (Returns None, e)).
Proof.
  cbn zeta. unfold checkCombatEnd.
  erewrite EngineFacts.bind_returns by reflexivity.
  set (isPlayer := λ c : Character.t, _ && alive c = true).
  set (isEnemy := λ c : Character.t, _ && alive c = true).
  assert (∀ c, isPlayer c ↔ standingPlayer c) as Hplayer.
  { intros c. unfold isPlayer, standingPlayer, alive.
    rewrite andb_true_iff, orb_true_iff, !bool_decide_eq_true. done. }
  assert (∀ c, isEnemy c ↔ standingEnemy c) as Henemy.
  { intros c. unfold isEnemy, standingEnemy, alive.
    rewrite andb_true_iff, !bool_decide_eq_true. done. }
  pose proof (filter_length_zero isPlayer standingPlayer
                (CombatState.characters (combatState e)) Hplayer) as Hp.
  pose proof (filter_length_zero isEnemy standingEnemy
                (CombatState.characters (combatState e)) Henemy) as He.
  case_bool_decide as Hnp.
  - left. split; [by apply Hp|]. reflexivity.
  - right. assert (Exists standingPlayer (CombatState.characters (combatState e))) as Hsome.
    { destruct (decide (Exists isPlayer (CombatState.characters (combatState e))))
        as [Hex|Hex].
      - eapply Exists_impl; [exact Hex|]. intros c. apply Hplayer.
      - exfalso. apply Hnp, Hp. intros Hex'. apply Hex.
        eapply Exists_impl; [exact Hex'|]. intros c. apply Hplayer. }
    case_bool_decide as Hne.
    + left. split_and!; [done|by apply He|reflexivity].
    + right. split_and!; [done| |reflexivity].
      destruct (decide (Exists isEnemy (CombatState.characters (combatState e))))
        as [Hex|Hex].
      * eapply Exists_impl; [exact Hex|]. intros c. apply Henemy.
      * exfalso. apply Hne, He. intros Hex'. apply Hex.
        eapply Exists_impl; [exact Hex'|]. intros c. apply Henemy.
Qed.

(** *** The start of the fight *)

(** [initializeCombat] on an empty roster throws, at the turn-start entry
    for a current character that is not there; on any other roster it
    returns.  Either way the turn goes to the first character of the sorted
    array. *)
Theorem initializeCombat_outcome (e : Engine) :
  let s' := combatState (initializeCombat e).2 in
  (initializeCombat e).1
  = match CombatState.characters (combatState e) with
    | [] => TypeError
    | _ :: _ => Returns ()
    end
  ∧ CombatState.currentCharacterId s' = Character.id <$> head (CombatState.characters s').
Proof.
  cbn zeta.
  destruct (EngineFacts.forEach_rollInitiative
              (seq 0 (length (CombatState.characters (combatState e)))) e)
    as (e1 & Hrun & Hids).
  { apply Forall_forall. intros i Hi. apply elem_of_seq in Hi. lia. }
  unfold initializeCombat.
  erewrite EngineFacts.bind_returns by reflexivity.
  erewrite EngineFacts.bind_returns by exact Hrun.
  do 5 (erewrite EngineFacts.bind_returns by reflexivity).
  cbn [combatState logger ambient].
  set (s5 := CombatState.setCombatLog [] _).
  destruct (logging_returns (CombatLog.logRoundStart (CombatState.round s5))
              (mk s5 (logger e1) (ambient e1))) as (e6 & Hlog & Hs6).
  erewrite EngineFacts.bind_returns by exact Hlog.
  erewrite EngineFacts.bind_returns by reflexivity.
  rewrite Hs6.
  assert (length (sortByInitiative (CombatState.characters (combatState e1)))
          = length (CombatState.characters (combatState e))) as Hlen.
  { rewrite EngineFacts.sortByInitiative_perm.
    rewrite <- !(length_fmap Character.id). by f_equal. }
  subst s5.
  cbn [combatState CombatState.characters CombatState.initiativeOrder
       CombatState.currentCharacterId CombatState.setCharacters CombatState.setInitiativeOrder
       CombatState.setCurrentCharacterId CombatState.setCombatLog] in Hs6 |- *.
  destruct (sortByInitiative (CombatState.characters (combatState e1))) as [|c rest] eqn:Hsort.
  - destruct (CombatState.characters (combatState e)); [|done].
    cbn. by rewrite Hs6.
  - destruct (CombatState.characters (combatState e)); [done|].
    assert (findCharacter (head (Character.id <$> c :: rest)) (c :: rest) = Some 0%nat) as ->.
    { unfold findCharacter. cbn. by rewrite decide_True. }
    erewrite EngineFacts.bind_returns by (unfold deref; rewrite Hs6; reflexivity).
    destruct (logging_returns (CombatLog.logTurnStart c) e6) as (e7 & -> & Hs7).
    cbn [fst snd]. by rewrite Hs7, Hs6.
Qed.

(** *** The handlers *)

Lemma alter_alter_known (f g : Character.t → Character.t) (l : list Character.t)
    (i : nat) (c : Character.t) :
  l !! i = Some c → alter g i (alter f i l) = <[i := g (f c)]> l.
Proof.
  intros Hc. apply list_eq. intros j. destruct (decide (i = j)) as [<-|Hne].
  - rewrite !list_lookup_alter_eq, Hc.
    by rewrite list_lookup_insert_eq by (by eapply lookup_lt_Some).
  - by rewrite !list_lookup_alter_ne, list_lookup_insert_ne.
Qed.

(** A move by a character of the roster to a cell is always accepted: the
    character is put on the target cell and charged five feet for each step
    of the Manhattan distance, whatever its speed, the size of the
    battlefield, what stands on the cell, and whose turn it is. *)
Theorem move_is_always_accepted (e : Engine) (action : CombatAction.t) (ref : nat)
    (c : Character.t) (target : Position.t) :
  CombatAction.type action = CombatAction.move →
  CombatAction.target action = Some (CombatAction.Cell target) →
  findCharacter (Some (CombatAction.characterId action))
    (CombatState.characters (combatState e)) = Some ref →
  CombatState.characters (combatState e) !! ref = Some c →
  (processAction action e).1 = Returns (true, action)
  ∧ CombatState.characters (combatState (processAction action e).2)
    = <[ref := Character.setMovementUsed
                 (Character.movementUsed c
                  + (Z.abs (Position.x (Character.position c) - Position.x target)
                     + Z.abs (Position.y (Character.position c) - Position.y target)) * 5)
                 (Character.setPosition target c)]>
        (CombatState.characters (combatState e)).
Proof.
  intros Hkind Htarget Hfind Hc. unfold processAction.
  erewrite EngineFacts.bind_returns by (unfold getCharacterById; by rewrite Hfind).
  rewrite Hkind. unfold processMovement. rewrite Htarget.
  erewrite EngineFacts.bind_returns by (unfold deref; by rewrite Hc).
  do 2 (erewrite EngineFacts.bind_returns by reflexivity).
  cbn [combatState logger ambient CombatState.characters CombatState.setCharacters].
  erewrite EngineFacts.bind_returns
    by (unfold deref; cbn [combatState CombatState.characters CombatState.setCharacters];
        rewrite !list_lookup_alter_eq, Hc; reflexivity).
  match goal with
  | |- context [bind (logging ?f) _ ?e2] =>
      destruct (logging_returns f e2) as (e3 & Hlog & Hs3)
  end.
  erewrite EngineFacts.bind_returns by exact Hlog.
  unfold ret. cbn [fst snd]. split; [done|]. rewrite Hs3.
  cbn [combatState CombatState.characters CombatState.setCharacters].
  by rewrite (alter_alter_known _ _ _ _ c Hc).
Qed.

Lemma move_is_always_accepted_witness :
  let e := Fixtures.engine 42 (Fixtures.started 8 8 [Fixtures.fighter; Fixtures.orc]) in
  let target := Position.mk 40 (-3) in
  let action := Fixtures.act CombatAction.move "orc" (Some (CombatAction.Cell target)) None in
  (CombatAction.type action = CombatAction.move
   ∧ CombatAction.target action = Some (CombatAction.Cell target)
   ∧ findCharacter (Some (CombatAction.characterId action))
       (CombatState.characters (combatState e)) = Some 1%nat
   ∧ CombatState.characters (combatState e) !! 1%nat = Some Fixtures.orc)
  ∧ (processAction action e).1 = Returns (true, action)
  ∧ Character.position <$> CombatState.characters (combatState (processAction action e).2)
    = [Character.position Fixtures.fighter; target].
Proof.
  cbn zeta.
  destruct (move_is_always_accepted
              (Fixtures.engine 42 (Fixtures.started 8 8 [Fixtures.fighter; Fixtures.orc]))
              (Fixtures.act CombatAction.move "orc"
                 (Some (CombatAction.Cell (Position.mk 40 (-3)))) None)
              1 Fixtures.orc (Position.mk 40 (-3)))
    as [Hok Hchars]; [reflexivity..|].
  split; [by split_and!|]. split; [exact Hok|]. rewrite Hchars. reflexivity.
Defined.

(** An attack with a weapon of the table throws inside [rollAttack], after
    the attacker has been marked as having used its action: the call leaves
    that mark behind, rolls no die and logs nothing. *)
Theorem attack_with_a_table_weapon_throws (e : Engine) (action : CombatAction.t)
    (ref tref : nat) (targetId weaponId : string) (w : Weapons.WeaponData) :
  CombatAction.type action = CombatAction.attack →
  CombatAction.target action = Some (CombatAction.Name targetId) →
  targetId ≠ "" →
  CombatAction.weaponId action = Some weaponId →
  findCharacter (Some (CombatAction.characterId action))
    (CombatState.characters (combatState e)) = Some ref →
  findCharacter (Some targetId) (CombatState.characters (combatState e)) = Some tref →
  Weapons.getWeaponById weaponId = Some w →
  (processAction action e).1 = TypeError
  ∧ CombatState.characters (combatState (processAction action e).2)
    = alter (Character.setHasUsedAction true) ref (CombatState.characters (combatState e))
  ∧ logger (processAction action e).2 = logger e
  ∧ globalRNG (ambient (processAction action e).2) = globalRNG (ambient e).
Proof.
  intros Hkind Htarget Hname Hweapon Hfind Hfindt Hw.
  assert (weaponId ≠ "") as Hwid by (intros ->; vm_compute in Hw; discriminate).
  destruct (EngineFacts.findCharacter_valid _ _ _ Hfind) as [c Hc].
  destruct (EngineFacts.findCharacter_valid _ _ _ Hfindt) as [t Ht].
  unfold processAction.
  erewrite EngineFacts.bind_returns by (unfold getCharacterById; by rewrite Hfind).
  rewrite Hkind. unfold processAttack. rewrite Htarget, bool_decide_false by done.
  cbv iota.
  erewrite EngineFacts.bind_returns by (unfold getCharacterById; by rewrite Hfindt).
  cbv beta iota.
  erewrite EngineFacts.bind_returns by reflexivity.
  erewrite EngineFacts.bind_returns
    by (unfold deref; cbn [combatState CombatState.characters CombatState.setCharacters];
        rewrite list_lookup_alter_eq, Hc; reflexivity).
  assert (is_Some (alter (Character.setHasUsedAction true) ref
                     (CombatState.characters (combatState e)) !! tref)) as [t1 Ht1]
    by (apply lookup_lt_is_Some; rewrite length_alter; by eapply lookup_lt_Some).
  erewrite EngineFacts.bind_returns
    by (unfold deref; cbn [combatState CombatState.characters CombatState.setCharacters];
        rewrite Ht1; reflexivity).
  unfold bind, rolling, onRNG, CombatLog.rollAttack, CombatLog.weaponOf, CombatLog.truthy.
  rewrite Hweapon, bool_decide_false by done. cbn [mbind option_bind]. rewrite Hw.
  rewrite (AttackFacts.table_weapon_throws weaponId w _ _ _ Hw).
  cbn. done.
Qed.

Lemma attack_with_a_table_weapon_throws_witness :
  let e := Fixtures.engine 42 (Fixtures.started 8 8 [Fixtures.fighter; Fixtures.orc]) in
  let action := CombatAction.mk "a1" CombatAction.attack "fighter"
                  (Some (CombatAction.Name "orc")) None None None (Some "longsword")
                  None None None "" in
  (CombatAction.type action = CombatAction.attack
   ∧ CombatAction.target action = Some (CombatAction.Name "orc")
   ∧ "orc" ≠ ""
   ∧ CombatAction.weaponId action = Some "longsword"
   ∧ findCharacter (Some (CombatAction.characterId action))
       (CombatState.characters (combatState e)) = Some 0%nat
   ∧ findCharacter (Some "orc") (CombatState.characters (combatState e)) = Some 1%nat
   ∧ is_Some (Weapons.getWeaponById "longsword"))
  ∧ (processAction action e).1 = TypeError
  ∧ Character.hasUsedAction <$> CombatState.characters (combatState (processAction action e).2)
    = [true; false].
Proof.
  cbn zeta.
  assert (is_Some (Weapons.getWeaponById "longsword")) as [w Hw] by (vm_compute; eauto).
  destruct (attack_with_a_table_weapon_throws
              (Fixtures.engine 42 (Fixtures.started 8 8 [Fixtures.fighter; Fixtures.orc]))
              (CombatAction.mk "a1" CombatAction.attack "fighter"
                 (Some (CombatAction.Name "orc")) None None None (Some "longsword")
                 None None None "")
              0 1 "orc" "longsword" w)
    as (Hout & Hchars & _); [reflexivity|reflexivity|done|reflexivity..|exact Hw|].
  split; [split_and!; [reflexivity|reflexivity|done|reflexivity..|by exists w]|].
  split; [exact Hout|]. rewrite Hchars. reflexivity.
Defined.

(** *** Spells that deal damage *)









(** *** Status effects *)

Lemma keeps_assign_pairwise (R : Character.t → Character.t → Prop) (before : list Character.t)
    (f : Character.t → Character.t) (ref : nat) :
  (∀ c0 c, R c0 c → R c0 (f c)) →
  keeps (onState (λ s, Forall2 R before (CombatState.characters s))) (assign ref f).
Proof.
  intros Hf. apply EngineFacts.keeps_modifyState. intros s Hs. cbn.
  apply Forall2_alter_r; [done|]. intros c0 c _ _. apply Hf.
Qed.

(** Submitted actions and ended turns never remove or change a status
    effect: every character keeps the effects it had, in order, and Dodge
    only adds to them.  No effect runs out, whatever its duration. *)
Theorem effects_never_expire (calls : list Call) (e : Engine) :
  Forall2 (λ before after,
             Character.statusEffects before `prefix_of` Character.statusEffects after)
    (CombatState.characters (combatState e))
    (CombatState.characters (combatState (run calls e))).
Proof.
  apply (run_keeps
           (onState (λ s, Forall2 (λ before after,
                                     Character.statusEffects before
                                       `prefix_of` Character.statusEffects after)
                            (CombatState.characters (combatState e))
                            (CombatState.characters s)))).
  - intros action. unfold processAction, processMovement, processAttack, processSpell,
      processDash, processDodge, spellDamage, derefOption, spellTarget.
    repeat first
      [ apply EngineFacts.keeps_ret | apply EngineFacts.keeps_throw
      | apply EngineFacts.keeps_getState | apply EngineFacts.keeps_deref
      | apply EngineFacts.keeps_getCharacterById | apply EngineFacts.keeps_logging
      | apply EngineFacts.keeps_rolling | apply EngineFacts.keeps_mathRandom
      | apply EngineFacts.keeps_checkDeath
      | apply keeps_assign_pairwise; intros ? ? Hpre; cbn;
        first [ exact Hpre | by apply prefix_app_r ]
      | apply EngineFacts.keeps_bind; [|intros]
      | match goal with
        | |- keeps _ (match ?x with _ => _ end) => destruct x
        end ].
  - unfold endTurn.
    repeat first
      [ apply EngineFacts.keeps_ret | apply EngineFacts.keeps_getState
      | apply EngineFacts.keeps_deref | apply EngineFacts.keeps_getCurrentCharacter
      | apply EngineFacts.keeps_logging
      | apply keeps_assign_pairwise; intros ? ? Hpre; exact Hpre
      | apply EngineFacts.keeps_modifyState; intros ? ?; assumption
      | apply EngineFacts.keeps_bind; [|intros]
      | match goal with
        | |- keeps _ (match ?x with _ => _ end) => destruct x
        end ].
  - unfold onState. apply Forall2_same_length_lookup_2; [done|].
    intros i c c' Hc Hc'. by simplify_eq.
Qed.

End EngineMore.
